(** * WebSPS: the instruction-list front end, the generated scan code and the
    run-state controller of [WebSPS.js], embedded in Rocq.

    The development follows the source file top-down:
    - the host values and arrays the class works on,
    - [generateCodeStructure] (lexer/classifier) and [generateJSCode]
      (statement compiler, which builds JavaScript source text),
    - the fragment of JavaScript that [eval] meets in that text: a
      tokenizer, a recursive-descent parser and an interpreter over the three
      register banks,
    - the class [SPS] with its private fields and public methods,
    - the properties of the specification, stated over these definitions. *)

From Stdlib Require Import ZArith NArith Lia Ascii DecimalString DecimalN DecimalFacts.
From Stdlib Require String.
From stdpp Require Import base option list strings gmap.

Local Open Scope Z_scope.

(* ===================================================================== *)
(** ** Host values *)
(* ===================================================================== *)

(** Register contents.  The constructor fills the banks with the number [0],
    the generated code stores the booleans [true] and [false], and
    [setInputs]/[setFlags] copy whatever the caller's array holds, [undefined]
    included when that array is shorter than the bank. *)
Inductive jsval :=
  | VUndef
  | VBool (b : bool)
  | VNum (z : Z).

#[global] Instance jsval_eq_dec : EqDecision jsval.
Proof. solve_decision. Defined.

(** ECMAScript [ToBoolean]. *)
Definition truthy (v : jsval) : bool :=
  match v with
  | VUndef => false
  | VBool b => b
  | VNum z => negb (z =? 0)
  end.

(** ECMAScript strict inequality [!==]: operands of different types are
    unequal, operands of the same type are compared by value. *)
Definition strict_ne (a b : jsval) : bool :=
  match a, b with
  | VUndef, VUndef => false
  | VBool x, VBool y => negb (eqb x y)
  | VNum x, VNum y => negb (x =? y)
  | _, _ => true
  end.

(** A JavaScript array: the elements at the array indices [0 .. length-1]
    (a hole reads as [undefined] and is kept as [VUndef]) and the
    integer-keyed properties that are not array indices (key [-1], keys from
    [2^32 - 1] on), which do not count towards [length]. *)
Record jsarray := JSArray {
  elems : list jsval;
  props : gmap Z jsval
}.

Definition max_array_index : Z := 2 ^ 32 - 1.

Definition new_Array_fill (n : nat) (v : jsval) : jsarray :=
  JSArray (replicate n v) ∅.

Definition array_length (a : jsarray) : nat := length (elems a).

(** [a[k]] as an expression. *)
Definition array_get (a : jsarray) (k : Z) : jsval :=
  if (0 <=? k) && (k <? max_array_index)
  then default VUndef (elems a !! Z.to_nat k)
  else default VUndef (props a !! k).

(** [a[k] = v].  Inside the bank the element is replaced; past the end
    JavaScript extends the array up to [k]; a key that is no array index
    becomes an ordinary property. *)
Definition array_set (a : jsarray) (k : Z) (v : jsval) : jsarray :=
  if (0 <=? k) && (k <? max_array_index) then
    let i := Z.to_nat k in
    if (i <? length (elems a))%nat
    then JSArray (<[i := v]> (elems a)) (props a)
    else JSArray (elems a ++ replicate (i - length (elems a)) VUndef ++ [v]) (props a)
  else JSArray (elems a) (<[k := v]> (props a)).

(** [a.fill(v)]: every array index, and nothing else. *)
Definition array_fill (a : jsarray) (v : jsval) : jsarray :=
  JSArray (replicate (length (elems a)) v) (props a).

(* ===================================================================== *)
(** ** Characters and strings *)
(* ===================================================================== *)

(** The text is modelled as a string of 7-bit characters; on those the
    functions below are what [toUpperCase], [\s], [\d] and [trim] do.
    Beyond them JavaScript knows further white space (the no-break space
    among it) and further letters with an upper case; [seven_bit] below
    names the texts within the range. *)

Definition char_code (c : ascii) : nat := nat_of_ascii c.

Definition is_lower (c : ascii) : bool :=
  (97 <=? char_code c)%nat && (char_code c <=? 122)%nat.

Definition is_upper (c : ascii) : bool :=
  (65 <=? char_code c)%nat && (char_code c <=? 90)%nat.

Definition is_digit (c : ascii) : bool :=
  (48 <=? char_code c)%nat && (char_code c <=? 57)%nat.

(** [\s]: tab, line feed, vertical tab, form feed, carriage return, space. *)
Definition is_whitespace (c : ascii) : bool :=
  ((9 <=? char_code c)%nat && (char_code c <=? 13)%nat) || (char_code c =? 32)%nat.

(** Line terminators, where [.] stops and [$] matches under the [m] flag. *)
Definition is_line_terminator (c : ascii) : bool :=
  (char_code c =? 10)%nat || (char_code c =? 13)%nat.

Definition is_bracket_char (c : ascii) : bool :=
  existsb (Ascii.eqb c) ["("; ")"; "{"; "}"; "["; "]"]%char.

Definition upper_char (c : ascii) : ascii :=
  if is_lower c then ascii_of_nat (char_code c - 32) else c.

Fixpoint toUpperCase (s : string) : string :=
  match s with
  | EmptyString => EmptyString
  | String c r => String (upper_char c) (toUpperCase r)
  end.

Fixpoint drop_whitespace (s : string) : string :=
  match s with
  | String c r => if is_whitespace c then drop_whitespace r else s
  | EmptyString => EmptyString
  end.

Definition trim (s : string) : string :=
  String.rev (drop_whitespace (String.rev (drop_whitespace s))).

Fixpoint string_exists (p : ascii → bool) (s : string) : bool :=
  match s with
  | EmptyString => false
  | String c r => p c || string_exists p r
  end.

Fixpoint string_forall (p : ascii → bool) (s : string) : bool :=
  match s with
  | EmptyString => true
  | String c r => p c && string_forall p r
  end.

(** [Array.prototype.includes] on an array of strings. *)
Definition includes (l : list string) (s : string) : bool :=
  existsb (String.eqb s) l.

(** The longest prefix of decimal digits. *)
Fixpoint leading_digits (s : string) : string :=
  match s with
  | String c r => if is_digit c then String c (leading_digits r) else EmptyString
  | EmptyString => EmptyString
  end.

(** A JavaScript number as far as operand indices need it: [NaN] or an
    integer.  JavaScript numbers are doubles; integer arithmetic on them is
    exact up to [2^53], which is the range this model covers. *)
Inductive jsnum :=
  | NaN
  | Int (z : Z).

Definition max_safe_integer : Z := 2 ^ 53.

(** [parseInt] on a string that starts with its digits (no sign, blank or
    radix prefix: [generateJSCode] applies it to what follows the bank
    letter of an operand).  The value is the number the digits denote,
    which is what JavaScript returns while that number is at most [2^53];
    beyond, JavaScript rounds to a double.  Statements that depend on the
    value of an index keep it within that range. *)
Definition parseInt (s : string) : jsnum :=
  match leading_digits s with
  | EmptyString => NaN
  | ds =>
      match NilEmpty.uint_of_string ds with
      | Some u => Int (Z.of_N (N.of_uint u))
      | None => NaN
      end
  end.

(** Subtraction, exact within [2^53]. *)
Definition num_sub (a : jsnum) (b : Z) : jsnum :=
  match a with
  | NaN => NaN
  | Int z => Int (z - b)
  end.

(** Number-to-string conversion as string concatenation performs it: the
    decimal digits, with a minus sign before them if negative.  JavaScript
    prints integers so below [10^21], hence on all of the exact range. *)
Definition number_toString (a : jsnum) : string :=
  match a with
  | NaN => "NaN"
  | Int z => NilEmpty.string_of_int (Z.to_int z)
  end.

(* ===================================================================== *)
(** ** [generateCodeStructure]: lexer and classifier *)
(* ===================================================================== *)

(** One entry of [commandArray]:
    [{type: insType, instruction: instruction, blockNumber: ...}].
    Types: 1 logical operation, 2 instruction, 3 operand, 4 bracket,
    6 end of network. *)
Record command := Command {
  type : nat;
  instruction : string;
  blockNumber : nat
}.

Definition validlogicalOperations : list string := ["U"; "O"; "X"; "NOT"; "UN"; "ON"].
Definition validInstructions : list string := ["="; "S"; "R"].
Definition validOperands : list string := ["A"; "E"; "M"].
Definition validBrackets : list string := ["("; ")"].

(** [validOperandsRegex.test]: the pattern [^(A|E|M)\d+$]. *)
Definition validOperandsRegex (s : string) : bool :=
  match s with
  | String c r =>
      includes validOperands (String c EmptyString)
      && negb (String.eqb r EmptyString) && string_forall is_digit r
  | EmptyString => false
  end.

(** [CodeInput.replace(/\/\/.*$/gm, "")]: from each [//] up to, not
    including, the next line terminator. *)
Fixpoint removeComments_from (in_comment : bool) (s : string) : string :=
  match s with
  | EmptyString => EmptyString
  | String c r =>
      if in_comment then
        if is_line_terminator c then String c (removeComments_from false r)
        else removeComments_from true r
      else
        match r with
        | String c' r' =>
            if Ascii.eqb c "/" && Ascii.eqb c' "/"
            then removeComments_from true r'
            else String c (removeComments_from false r)
        | EmptyString => String c EmptyString
        end
  end.

Definition removeComments (s : string) : string := removeComments_from false s.

(** The characters of the class [[\s\t\n(){}\[\]]]. *)
Definition is_separator (c : ascii) : bool := is_whitespace c || is_bracket_char c.

(** [CodeInput.split(/([\s\t\n(){}\[\]])/)]: the text between separators
    (possibly empty) alternating with the captured separators. *)
Fixpoint split_from (cur : string) (s : string) : list string :=
  match s with
  | EmptyString => [cur]
  | String c r =>
      if is_separator c
      then cur :: String c EmptyString :: split_from EmptyString r
      else split_from (cur +:+ String c EmptyString) r
  end.

Definition split_separators (s : string) : list string := split_from EmptyString s.

(** The predicate of [codeParts.filter]. *)
Definition keep_part (part : string) : bool :=
  (0 <? String.length (trim part))%nat || string_exists is_bracket_char part.

Definition codeParts (CodeInput : string) : list string :=
  filter (λ p, keep_part p = true) (split_separators (removeComments (toUpperCase CodeInput))).

(** The variables of [generateCodeStructure] that its [forEach] callback
    updates, and the messages handed to [errorCallback] so far. *)
Record lexer_state := LexerState {
  commandArray : list command;
  BracketCount : Z;
  invalidCommand : bool;
  lexer_errors : list string
}.

Definition push_command (ty : nat) (codePart : string) (bc : Z) (st : lexer_state) : lexer_state :=
  LexerState
    (commandArray st ++ [Command ty codePart (length (commandArray st))])
    bc (invalidCommand st) (lexer_errors st).

(** The body of [codeParts.forEach]. *)
Definition classify_part (st : lexer_state) (codePart : string) : lexer_state :=
  if includes validlogicalOperations codePart then
    push_command 1 codePart (BracketCount st) st
  else if includes validInstructions codePart then
    push_command 2 codePart (BracketCount st) st
  else if validOperandsRegex codePart then
    push_command 3 codePart (BracketCount st) st
  else if includes validBrackets codePart then
    push_command 4 codePart
      (if String.eqb codePart "(" then BracketCount st + 1 else BracketCount st - 1) st
  else
    LexerState (commandArray st) (BracketCount st) true
      (lexer_errors st ++
         ["generateCodeStructure >> Unknown command or operand found: " +:+ codePart]).

Definition classify_all (parts : list string) : lexer_state :=
  fold_left classify_part parts (LexerState [] 0 false []).

Definition check_brackets (st : lexer_state) : lexer_state :=
  if negb (BracketCount st =? 0) then
    LexerState (commandArray st) (BracketCount st) true
      (lexer_errors st ++ ["generateCodeStructure >> Invalid bracket number"])
  else st.

(** [generateCodeStructure(CodeInput, errorCallback)]: the command array, or
    [None] for [null], together with the calls made to [errorCallback]. *)
Definition generateCodeStructure (CodeInput : string) : option (list command) * list string :=
  let st := check_brackets (classify_all (codeParts CodeInput)) in
  if invalidCommand st then (None, lexer_errors st)
  else
    (Some (commandArray st ++ [Command 6 ";" (length (commandArray st))]),
     lexer_errors st).

(* ===================================================================== *)
(** ** [generateJSCode]: the statement compiler *)
(* ===================================================================== *)

(** The variables the [forEach] callback of [generateJSCode] updates
    ([NOT] is declared in the source and never used), and the calls made to
    [errorCallback]. *)
Record gen_state := GenState {
  JSCode : string;
  lastInstruction : string;
  isNewBlock : bool;
  openIfBlock : bool;
  gen_errors : list string
}.

Definition gen_init : gen_state := GenState "" "" true false [].

Definition emit (txt : string) (st : gen_state) : gen_state :=
  GenState (JSCode st +:+ txt) (lastInstruction st) (isNewBlock st) (openIfBlock st)
    (gen_errors st).

Definition gen_error (msg : string) (st : gen_state) : gen_state :=
  GenState (JSCode st) (lastInstruction st) (isNewBlock st) (openIfBlock st)
    (gen_errors st ++ [msg]).

Definition set_last (l : string) (st : gen_state) : gen_state :=
  GenState (JSCode st) l (isNewBlock st) (openIfBlock st) (gen_errors st).

Definition set_isNewBlock (b : bool) (st : gen_state) : gen_state :=
  GenState (JSCode st) (lastInstruction st) b (openIfBlock st) (gen_errors st).

Definition set_openIfBlock (b : bool) (st : gen_state) : gen_state :=
  GenState (JSCode st) (lastInstruction st) (isNewBlock st) b (gen_errors st).

(** [command.instruction[0]] inside a concatenation: the first character,
    or the text of [undefined] for the empty string. *)
Definition first_char_text (s : string) : string :=
  match s with
  | String c _ => String c EmptyString
  | EmptyString => "undefined"
  end.

(** [command.instruction.slice(1)]. *)
Definition slice1 (s : string) : string :=
  match s with
  | String _ r => r
  | EmptyString => EmptyString
  end.

(** ["this.#" + slicedCommand[0] + "[" + slicedCommand[1] + "]"]. *)
Definition register_text (instr : string) : string :=
  "this.#" +:+ first_char_text instr +:+ "[" +:+
  number_toString (num_sub (parseInt (slice1 instr)) 1) +:+ "]".

(** The callback of [commandArray.forEach] in [generateJSCode]. *)
Definition gen_command (st : gen_state) (c : command) : gen_state :=
  let ins := instruction c in
  if (type c =? 6)%nat then emit "; // End of Network
" st
  else if isNewBlock st then
    match type c with
    | 1%nat =>
        let st := set_isNewBlock false (set_openIfBlock true st) in
        if String.eqb ins "NOT" then emit "if( !" st else emit "if( " st
    | 2%nat =>
        if String.eqb ins "S" then set_isNewBlock false (set_last "S" st)
        else if String.eqb ins "R" then set_isNewBlock false (set_last "R" st)
        else gen_error ("generateJSCode >> Missing logical Operand before =: " +:+ ins) st
    | 4%nat => gen_error ("generateJSCode >> Bracket without logical Operand: " +:+ ins) st
    | _ => gen_error ("generateJSCode >> Not valid as first command: " +:+ ins) st
    end
  else
    match type c with
    | 1%nat =>
        if String.eqb ins "U" then emit " && " st
        else if String.eqb ins "O" then emit " || " st
        else if String.eqb ins "X" then emit " !==" st
        else if String.eqb ins "NOT" then emit " !" st
        else if String.eqb ins "UN" then emit " && !" st
        else if String.eqb ins "ON" then emit " || !" st
        else gen_error ("generateJSCode >> Unknown logical Operant: " +:+ ins) st
    | 2%nat =>
        if String.eqb ins "S" then set_last "S" st
        else if String.eqb ins "R" then set_last "R" st
        else set_last "=" st
    | 3%nat =>
        let reg := register_text ins in
        if openIfBlock st then
          if String.eqb (lastInstruction st) "S" then
            emit (") { " +:+ reg +:+ " = true; } 
")
              (set_isNewBlock true (set_openIfBlock false (set_last "" st)))
          else if String.eqb (lastInstruction st) "R" then
            emit (") { " +:+ reg +:+ " = false; }
")
              (set_isNewBlock true (set_openIfBlock false (set_last "" st)))
          else if String.eqb (lastInstruction st) "=" then
            emit (") { " +:+ reg +:+ " = true; } else { " +:+ reg +:+ " = false; }
")
              (set_isNewBlock true (set_openIfBlock false (set_last "" st)))
          else emit reg st
        else
          if String.eqb (lastInstruction st) "S" then
            set_isNewBlock true (emit (reg +:+ " = true; ") (set_last "" st))
          else if String.eqb (lastInstruction st) "R" then
            set_isNewBlock true (emit (reg +:+ " = false; ") (set_last "" st))
          else gen_error ("generateJSCode >> Missing logical Operant before =: " +:+ ins) st
    | 4%nat =>
        if openIfBlock st then
          if String.eqb ins "(" then emit " ( " st else emit " ) " st
        else st
    | _ => st
    end.

Definition gen_run (st : gen_state) (cmds : list command) : gen_state :=
  fold_left gen_command cmds st.

(** [generateJSCode(commandArray, errorCallback)]: the returned text and the
    calls made to [errorCallback].  A [return null] in the callback only
    ends that iteration; the text is returned whatever was reported. *)
Definition generateJSCode (cmds : list command) : string * list string :=
  let st := gen_run gen_init cmds in (JSCode st, gen_errors st).

(* ===================================================================== *)
(** ** The JavaScript that [eval] receives *)
(* ===================================================================== *)

(** [#SPSRuntime] hands [#SPSCode] to a direct [eval] inside the class body,
    so the text is parsed as strict-mode statements that may name the private
    fields.  The generator emits a fixed vocabulary; the tokenizer, grammar
    and semantics below are ECMAScript restricted to it. *)

Inductive bank := BE | BA | BM.

#[global] Instance bank_eq_dec : EqDecision bank.
Proof. solve_decision. Defined.

Inductive jstok :=
  | TIf | TElse | TThis | TTrue | TFalse
  | TLParen | TRParen | TLBrace | TRBrace | TLBrack | TRBrack
  | TSemi | TDot | TEq | TMinus
  | TBang | TNe | TAnd | TOr
  | TPriv (b : bank)
  | TNum (n : N).

#[global] Instance jstok_eq_dec : EqDecision jstok.
Proof. solve_decision. Defined.

(** *** Tokenizer: one pass, longest match *)

Inductive lex_state :=
  | LStart
  | LWord (acc : string)      (* inside an identifier or keyword *)
  | LPrivate (acc : string)   (* inside a private name, after [#] *)
  | LNumber (acc : string)    (* inside a decimal literal *)
  | LPunct (acc : string)     (* inside a punctuator that may still grow *)
  | LComment.                 (* inside a [//] comment *)

Definition is_ident_start (c : ascii) : bool :=
  is_lower c || is_upper c || Ascii.eqb c "_" || Ascii.eqb c "$".

Definition is_ident_char (c : ascii) : bool := is_ident_start c || is_digit c.

Definition keyword_token (w : string) : option jstok :=
  if String.eqb w "if" then Some TIf
  else if String.eqb w "else" then Some TElse
  else if String.eqb w "this" then Some TThis
  else if String.eqb w "true" then Some TTrue
  else if String.eqb w "false" then Some TFalse
  else None.

(** The private names the generated text can mention are the three banks. *)
Definition private_token (w : string) : option jstok :=
  if String.eqb w "E" then Some (TPriv BE)
  else if String.eqb w "A" then Some (TPriv BA)
  else if String.eqb w "M" then Some (TPriv BM)
  else None.

(** A decimal literal; a leading zero followed by more digits is a legacy
    octal literal, which strict mode rejects. *)
Definition number_token (ds : string) : option jstok :=
  match ds with
  | String "0" (String _ _) => None
  | _ =>
      match NilEmpty.uint_of_string ds with
      | Some u => Some (TNum (N.of_uint u))
      | None => None
      end
  end.

(** The ECMAScript punctuators that begin with one of [! & | = - . /], and
    their proper prefixes. *)
Definition punctuator_prefixes : list string :=
  ["!"; "!="; "!=="; "&"; "&&"; "&="; "&&="; "|"; "||"; "|="; "||=";
   "="; "=="; "==="; "=>"; "-"; "--"; "-="; "."; ".."; "..."; "/"; "/="].

Definition punct_token (p : string) : option jstok :=
  if String.eqb p "!" then Some TBang
  else if String.eqb p "!==" then Some TNe
  else if String.eqb p "&&" then Some TAnd
  else if String.eqb p "||" then Some TOr
  else if String.eqb p "=" then Some TEq
  else if String.eqb p "-" then Some TMinus
  else if String.eqb p "." then Some TDot
  else None.

(** A character met between tokens. *)
Definition lex_start (c : ascii) : option (lex_state * list jstok) :=
  if is_whitespace c then Some (LStart, [])
  else if is_ident_start c then Some (LWord (String c EmptyString), [])
  else if is_digit c then Some (LNumber (String c EmptyString), [])
  else if Ascii.eqb c "#" then Some (LPrivate EmptyString, [])
  else if Ascii.eqb c "(" then Some (LStart, [TLParen])
  else if Ascii.eqb c ")" then Some (LStart, [TRParen])
  else if Ascii.eqb c "{" then Some (LStart, [TLBrace])
  else if Ascii.eqb c "}" then Some (LStart, [TRBrace])
  else if Ascii.eqb c "[" then Some (LStart, [TLBrack])
  else if Ascii.eqb c "]" then Some (LStart, [TRBrack])
  else if Ascii.eqb c ";" then Some (LStart, [TSemi])
  else if includes punctuator_prefixes (String c EmptyString)
  then Some (LPunct (String c EmptyString), [])
  else None.

(** The token [t] is complete; [c] is the character after it. *)
Definition lex_finish (t : option jstok) (c : ascii) : option (lex_state * list jstok) :=
  match t with
  | Some tok =>
      match lex_start c with
      | Some (st, out) => Some (st, tok :: out)
      | None => None
      end
  | None => None
  end.

Definition lex_step (st : lex_state) (c : ascii) : option (lex_state * list jstok) :=
  match st with
  | LStart => lex_start c
  | LWord acc =>
      if is_ident_char c then Some (LWord (acc +:+ String c EmptyString), [])
      else lex_finish (keyword_token acc) c
  | LPrivate acc =>
      if is_ident_char c then Some (LPrivate (acc +:+ String c EmptyString), [])
      else lex_finish (private_token acc) c
  | LNumber acc =>
      if is_digit c then Some (LNumber (acc +:+ String c EmptyString), [])
      else if is_ident_char c || Ascii.eqb c "." then None
      else lex_finish (number_token acc) c
  | LPunct acc =>
      if String.eqb acc "/" && Ascii.eqb c "/" then Some (LComment, [])
      else if includes punctuator_prefixes (acc +:+ String c EmptyString)
      then Some (LPunct (acc +:+ String c EmptyString), [])
      else if String.eqb acc "." && is_digit c then None
      else lex_finish (punct_token acc) c
  | LComment =>
      if is_line_terminator c then Some (LStart, []) else Some (LComment, [])
  end.

(** End of the text. *)
Definition lex_end (st : lex_state) : option (list jstok) :=
  match st with
  | LStart | LComment => Some []
  | LWord acc => (λ t, [t]) <$> keyword_token acc
  | LPrivate acc => (λ t, [t]) <$> private_token acc
  | LNumber acc => (λ t, [t]) <$> number_token acc
  | LPunct acc => (λ t, [t]) <$> punct_token acc
  end.

(** The characters of [s] read from state [st]: the tokens completed on the
    way and the state at the end. *)
Fixpoint lex_chars (st : lex_state) (s : string) : option (list jstok * lex_state) :=
  match s with
  | EmptyString => Some ([], st)
  | String c r =>
      match lex_step st c with
      | Some (st', out) =>
          match lex_chars st' r with
          | Some (ts, st'') => Some (out ++ ts, st'')
          | None => None
          end
      | None => None
      end
  end.

(** [None]: the text holds something outside the vocabulary above. *)
Definition tokenize (s : string) : option (list jstok) :=
  match lex_chars LStart s with
  | Some (ts, st) =>
      match lex_end st with
      | Some last => Some (ts ++ last)
      | None => None
      end
  | None => None
  end.

(** *** Syntax *)

#[local] Set Warnings "-register-all".

Inductive jexpr :=
  | EReg (b : bank) (k : Z)          (* [this.#b[k]] *)
  | EBool (v : bool)
  | ENot (e : jexpr)
  | ENe (l r : jexpr)
  | EAnd (l r : jexpr)
  | EOr (l r : jexpr)
  | ECall (f : jexpr) (arg : option jexpr).

Inductive jstmt :=
  | SEmpty
  | SExpr (e : jexpr)
  | SAssign (b : bank) (k : Z) (rhs : jexpr)   (* [this.#b[k] = rhs;] *)
  | SIf (c : jexpr) (s1 : jstmt) (s2 : option jstmt)
  | SBlock (body : list jstmt).

Definition parser (A : Type) : Type := list jstok → option (A * list jstok).

(** [this.#b[k]], the only shape in which [this], [.], a private name, the
    square brackets, a number or a minus sign occur in the text. *)
Definition parse_register : parser jexpr := λ ts,
  match ts with
  | TThis :: TDot :: TPriv b :: TLBrack :: r =>
      match r with
      | TNum n :: TRBrack :: r' => Some (EReg b (Z.of_N n), r')
      | TMinus :: TNum n :: TRBrack :: r' => Some (EReg b (- Z.of_N n), r')
      | _ => None
      end
  | _ => None
  end.

(** PrimaryExpression, given the parser [pe] for a nested Expression. *)
Definition parse_primary (pe : parser jexpr) : parser jexpr := λ ts,
  match ts with
  | TThis :: _ => parse_register ts
  | TTrue :: r => Some (EBool true, r)
  | TFalse :: r => Some (EBool false, r)
  | TLParen :: r =>
      match pe r with
      | Some (e, TRParen :: r') => Some (e, r')
      | _ => None
      end
  | _ => None
  end.

(** CallExpression: argument lists after a callee, at most [n] of them. *)
Fixpoint parse_call_rest (pe : parser jexpr) (n : nat) (f : jexpr) (ts : list jstok)
  : option (jexpr * list jstok) :=
  match ts with
  | TLParen :: r =>
      match n with
      | O => None
      | S n' =>
          match r with
          | TRParen :: r' => parse_call_rest pe n' (ECall f None) r'
          | _ =>
              match pe r with
              | Some (a, TRParen :: r') => parse_call_rest pe n' (ECall f (Some a)) r'
              | _ => None
              end
          end
      end
  | _ => Some (f, ts)
  end.

Definition parse_call (pe : parser jexpr) (n : nat) : parser jexpr := λ ts,
  match parse_primary pe ts with
  | Some (f, r) => parse_call_rest pe n f r
  | None => None
  end.

(** UnaryExpression: any number of [!] before the operand. *)
Fixpoint parse_unary (p : parser jexpr) (ts : list jstok) : option (jexpr * list jstok) :=
  match ts with
  | TBang :: r =>
      match parse_unary p r with
      | Some (e, r') => Some (ENot e, r')
      | None => None
      end
  | _ => p ts
  end.

(** A left-associative chain [p (op p)*], at most [n] operators. *)
Fixpoint parse_chain_rest (p : parser jexpr) (op : jstok) (mk : jexpr → jexpr → jexpr)
    (n : nat) (lhs : jexpr) (ts : list jstok) : option (jexpr * list jstok) :=
  match ts with
  | t :: r =>
      if decide (t = op) then
        match n with
        | O => None
        | S n' =>
            match p r with
            | Some (rhs, r') => parse_chain_rest p op mk n' (mk lhs rhs) r'
            | None => None
            end
        end
      else Some (lhs, ts)
  | [] => Some (lhs, [])
  end.

Definition parse_chain (p : parser jexpr) (op : jstok) (mk : jexpr → jexpr → jexpr)
    (n : nat) : parser jexpr := λ ts,
  match p ts with
  | Some (lhs, r) => parse_chain_rest p op mk n lhs r
  | None => None
  end.

(** Expression with the ECMAScript precedences: [!] binds tighter than
    [!==], that tighter than [&&], that tighter than [||].  The fuel bounds
    the nesting of parentheses and the length of each chain; every unit of it
    is spent on a token. *)
Fixpoint parse_expr (fuel : nat) (ts : list jstok) : option (jexpr * list jstok) :=
  match fuel with
  | O => None
  | S f =>
      parse_chain
        (parse_chain
           (parse_chain (parse_unary (parse_call (parse_expr f) f)) TNe ENe f)
           TAnd EAnd f)
        TOr EOr f ts
  end.

Definition parse_expression : parser jexpr := λ ts, parse_expr (S (length ts)) ts.

(** The statements of a block up to its closing brace. *)
Fixpoint parse_block_items (ps : parser jstmt) (n : nat) (ts : list jstok)
  : option (list jstmt * list jstok) :=
  match ts with
  | TRBrace :: r => Some ([], r)
  | _ =>
      match n with
      | O => None
      | S n' =>
          match ps ts with
          | Some (s, r) =>
              match parse_block_items ps n' r with
              | Some (ss, r') => Some (s :: ss, r')
              | None => None
              end
          | None => None
          end
      end
  end.

(** ExpressionStatement: an expression and its semicolon, or an assignment
    to a register. *)
Definition parse_expression_statement : parser jstmt := λ ts,
  match parse_expression ts with
  | Some (e, TSemi :: r) => Some (SExpr e, r)
  | Some (EReg b k, TEq :: r) =>
      match parse_expression r with
      | Some (v, TSemi :: r') => Some (SAssign b k v, r')
      | _ => None
      end
  | _ => None
  end.

(** Statement.  Semicolons are explicit: the generator ends a line only
    after [;] or [}], so automatic semicolon insertion has no place to act. *)
Fixpoint parse_stmt (fuel : nat) (ts : list jstok) : option (jstmt * list jstok) :=
  match fuel with
  | O => None
  | S f =>
      match ts with
      | TSemi :: r => Some (SEmpty, r)
      | TLBrace :: r =>
          match parse_block_items (parse_stmt f) f r with
          | Some (ss, r') => Some (SBlock ss, r')
          | None => None
          end
      | TIf :: TLParen :: r =>
          match parse_expression r with
          | Some (c, TRParen :: r1) =>
              match parse_stmt f r1 with
              | Some (s1, TElse :: r2) =>
                  match parse_stmt f r2 with
                  | Some (s2, r3) => Some (SIf c s1 (Some s2), r3)
                  | None => None
                  end
              | Some (s1, r2) => Some (SIf c s1 None, r2)
              | None => None
              end
          | _ => None
          end
      | TIf :: _ => None
      | _ => parse_expression_statement ts
      end
  end.

(** The statement list of a script, at most [n] statements. *)
Fixpoint parse_stmts (ps : parser jstmt) (n : nat) (ts : list jstok) : option (list jstmt) :=
  match ts with
  | [] => Some []
  | _ =>
      match n with
      | O => None
      | S n' =>
          match ps ts with
          | Some (s, r) =>
              match parse_stmts ps n' r with
              | Some ss => Some (s :: ss)
              | None => None
              end
          | None => None
          end
      end
  end.

Definition parse_program (ts : list jstok) : option (list jstmt) :=
  parse_stmts (parse_stmt (S (length ts))) (length ts) ts.

(** *** Semantics over the register banks *)

Record banks := Banks {
  regE : jsarray;
  regA : jsarray;
  regM : jsarray
}.

Definition bank_of (b : bank) (r : banks) : jsarray :=
  match b with BE => regE r | BA => regA r | BM => regM r end.

Definition set_bank (b : bank) (a : jsarray) (r : banks) : banks :=
  match b with
  | BE => Banks a (regA r) (regM r)
  | BA => Banks (regE r) a (regM r)
  | BM => Banks (regE r) (regA r) a
  end.

Definition read_reg (b : bank) (k : Z) (r : banks) : jsval := array_get (bank_of b r) k.

Definition write_reg (b : bank) (k : Z) (v : jsval) (r : banks) : banks :=
  set_bank b (array_set (bank_of b r) k v) r.

Inductive js_error := SyntaxError | TypeError | ReferenceError.

(** Evaluating an expression only reads registers.  [inr] is a thrown
    error: calling a register value, which is never a function. *)
Fixpoint eval_expr (e : jexpr) (r : banks) : jsval + js_error :=
  match e with
  | EReg b k => inl (read_reg b k r)
  | EBool v => inl (VBool v)
  | ENot e1 =>
      match eval_expr e1 r with
      | inl v => inl (VBool (negb (truthy v)))
      | inr x => inr x
      end
  | ENe a b =>
      match eval_expr a r with
      | inl va =>
          match eval_expr b r with
          | inl vb => inl (VBool (strict_ne va vb))
          | inr x => inr x
          end
      | inr x => inr x
      end
  | EAnd a b =>
      match eval_expr a r with
      | inl va => if truthy va then eval_expr b r else inl va
      | inr x => inr x
      end
  | EOr a b =>
      match eval_expr a r with
      | inl va => if truthy va then inl va else eval_expr b r
      | inr x => inr x
      end
  | ECall f arg =>
      match eval_expr f r with
      | inl _ =>
          match arg with
          | Some a =>
              match eval_expr a r with
              | inl _ => inr TypeError
              | inr x => inr x
              end
          | None => inr TypeError
          end
      | inr x => inr x
      end
  end.

(** How running some code ends: normally, or by an exception; either way
    with the banks as the code left them. *)
Inductive outcome :=
  | Done (r : banks)
  | Raised (x : js_error) (r : banks).

Definition outcome_banks (o : outcome) : banks :=
  match o with Done r | Raised _ r => r end.

Definition and_then (o : outcome) (k : banks → outcome) : outcome :=
  match o with
  | Done r => k r
  | Raised x r => Raised x r
  end.

Fixpoint exec_stmt (s : jstmt) (r : banks) : outcome :=
  match s with
  | SEmpty => Done r
  | SExpr e =>
      match eval_expr e r with
      | inl _ => Done r
      | inr x => Raised x r
      end
  | SAssign b k rhs =>
      match eval_expr rhs r with
      | inl v => Done (write_reg b k v r)
      | inr x => Raised x r
      end
  | SIf c s1 s2 =>
      match eval_expr c r with
      | inl v =>
          if truthy v then exec_stmt s1 r
          else match s2 with
               | Some s => exec_stmt s r
               | None => Done r
               end
      | inr x => Raised x r
      end
  | SBlock body =>
      (fix exec_body (l : list jstmt) (r : banks) : outcome :=
         match l with
         | [] => Done r
         | s :: l' => and_then (exec_stmt s r) (exec_body l')
         end) body r
  end.

(** A statement list runs front to back on the same banks. *)
Fixpoint exec_stmts (l : list jstmt) (r : banks) : outcome :=
  match l with
  | [] => Done r
  | s :: l' => and_then (exec_stmt s r) (exec_stmts l')
  end.

(** [eval(code)] for a string: the whole text is parsed before any of it
    runs, so a syntax error leaves the banks untouched.  A text the tokenizer
    does not cover is reported the same way; [tokenize_generated] shows that
    the compiler does not produce one. *)
Definition eval_code (code : string) (r : banks) : outcome :=
  match tokenize code with
  | Some ts =>
      match parse_program ts with
      | Some prog => exec_stmts prog r
      | None => Raised SyntaxError r
      end
  | None => Raised SyntaxError r
  end.

(* ===================================================================== *)
(** ** The class [SPS] *)
(* ===================================================================== *)

(** The argument of [loadCode]: one network, or an array of networks. *)
Inductive code_input :=
  | Single (text : string)
  | Networks (texts : list string).

(** The fields of an instance.  [dataReady_private] is [#dataReady];
    [dataReady] is the public property of that name, which exists once it has
    been assigned.  [None] stands for [undefined]. *)
Record SPS := MkSPS {
  SPSCode : option string;
  state : Z;
  dataReady_private : bool;
  runtimeTimer : option Z;
  registers : banks;
  RuntimeCounter : Z;
  SPSCycleTime : Z;
  dataReady : option bool;
  codeInput : option code_input
}.

(** What the instance touches outside itself: the intervals the host has
    armed (identifier and delay), the next identifier [setInterval] will hand
    out, the global variable [dataReady] if the host has one, and what went
    to [console.error]. *)
Record host := MkHost {
  intervals : list (Z * Z);
  next_timer : Z;
  global_dataReady : option jsval;
  console : list string
}.

Record world := MkWorld {
  sps : SPS;
  env : host
}.

(** How a method call ends. *)
Inductive completion (A : Type) :=
  | Returned (a : A)
  | Thrown (x : js_error).
Arguments Returned {A} a.
Arguments Thrown {A} x.

(** An array handed to the caller: a new array, or the instance's own bank
    object, in which case later writes to the bank show through it. *)
Inductive array_result :=
  | Fresh (a : jsarray)
  | Live (b : bank).

Definition deref (w : world) (x : array_result) : jsarray :=
  match x with
  | Fresh a => a
  | Live b => bank_of b (registers (sps w))
  end.

Definition clamp_size (n : nat) : nat := if (256 <? n)%nat then 256%nat else n.

(** [new SPS(Inputs, Outputs, Flags)]. *)
Definition new_SPS (Inputs Outputs Flags : nat) : SPS :=
  MkSPS None 0 false None
    (Banks (new_Array_fill (clamp_size Inputs) (VNum 0))
           (new_Array_fill (clamp_size Outputs) (VNum 0))
           (new_Array_fill (clamp_size Flags) (VNum 0)))
    0 10 None None.

(** A host in which nothing is armed yet and no global [dataReady] exists. *)
Definition fresh_host : host := MkHost [] 1 None [].

Definition new_world (Inputs Outputs Flags : nat) : world :=
  MkWorld (new_SPS Inputs Outputs Flags) fresh_host.

Definition with_SPSCode (c : option string) (s : SPS) : SPS :=
  MkSPS c (state s) (dataReady_private s) (runtimeTimer s) (registers s)
    (RuntimeCounter s) (SPSCycleTime s) (dataReady s) (codeInput s).
Definition with_state (x : Z) (s : SPS) : SPS :=
  MkSPS (SPSCode s) x (dataReady_private s) (runtimeTimer s) (registers s)
    (RuntimeCounter s) (SPSCycleTime s) (dataReady s) (codeInput s).
Definition with_dataReady_private (b : bool) (s : SPS) : SPS :=
  MkSPS (SPSCode s) (state s) b (runtimeTimer s) (registers s)
    (RuntimeCounter s) (SPSCycleTime s) (dataReady s) (codeInput s).
Definition with_runtimeTimer (t : option Z) (s : SPS) : SPS :=
  MkSPS (SPSCode s) (state s) (dataReady_private s) t (registers s)
    (RuntimeCounter s) (SPSCycleTime s) (dataReady s) (codeInput s).
Definition with_registers (r : banks) (s : SPS) : SPS :=
  MkSPS (SPSCode s) (state s) (dataReady_private s) (runtimeTimer s) r
    (RuntimeCounter s) (SPSCycleTime s) (dataReady s) (codeInput s).
Definition with_RuntimeCounter (n : Z) (s : SPS) : SPS :=
  MkSPS (SPSCode s) (state s) (dataReady_private s) (runtimeTimer s) (registers s)
    n (SPSCycleTime s) (dataReady s) (codeInput s).
Definition with_SPSCycleTime (n : Z) (s : SPS) : SPS :=
  MkSPS (SPSCode s) (state s) (dataReady_private s) (runtimeTimer s) (registers s)
    (RuntimeCounter s) n (dataReady s) (codeInput s).
Definition with_dataReady (b : option bool) (s : SPS) : SPS :=
  MkSPS (SPSCode s) (state s) (dataReady_private s) (runtimeTimer s) (registers s)
    (RuntimeCounter s) (SPSCycleTime s) b (codeInput s).
Definition with_codeInput (c : option code_input) (s : SPS) : SPS :=
  MkSPS (SPSCode s) (state s) (dataReady_private s) (runtimeTimer s) (registers s)
    (RuntimeCounter s) (SPSCycleTime s) (dataReady s) c.

Definition on_sps (f : SPS → SPS) (w : world) : world := MkWorld (f (sps w)) (env w).

Definition console_error (msg : string) (w : world) : world :=
  MkWorld (sps w)
    (MkHost (intervals (env w)) (next_timer (env w)) (global_dataReady (env w))
       (console (env w) ++ [msg])).

(** [setInterval(callback, delay)]: a new non-zero identifier, armed. *)
Definition setInterval (delay : Z) (w : world) : Z * world :=
  let h := env w in
  (next_timer h,
   MkWorld (sps w)
     (MkHost (intervals h ++ [(next_timer h, delay)]) (next_timer h + 1)
        (global_dataReady h) (console h))).

(** [clearInterval(id)]: disarms [id]; nothing happens for [undefined] or an
    identifier that is not armed. *)
Definition clearInterval (id : option Z) (w : world) : world :=
  match id with
  | None => w
  | Some i =>
      let h := env w in
      MkWorld (sps w)
        (MkHost (filter (λ p, p.1 ≠ i) (intervals h)) (next_timer h)
           (global_dataReady h) (console h))
  end.

(** [#SPSRuntime]: count, run the code, then assign [this.dataReady].
    [eval] returns a value that is not a string as it is, so nothing runs
    while [#SPSCode] is [undefined].  An exception from [eval] leaves the
    arrow function before the last assignment. *)
Definition SPSRuntime (w : world) : completion unit * world :=
  let w1 := on_sps (λ s, with_RuntimeCounter (RuntimeCounter s + 1) s) w in
  match SPSCode (sps w1) with
  | None => (Returned tt, on_sps (with_dataReady (Some true)) w1)
  | Some code =>
      match eval_code code (registers (sps w1)) with
      | Done r =>
          (Returned tt, on_sps (with_dataReady (Some true)) (on_sps (with_registers r) w1))
      | Raised x r => (Thrown x, on_sps (with_registers r) w1)
      end
  end.

(** [#changeSPSState(newState)]. *)
Definition changeSPSState (newState : Z) (w : world) : world :=
  if newState =? 0 then
    on_sps (with_RuntimeCounter 0) (clearInterval (runtimeTimer (sps w)) w)
  else if newState =? 1 then
    match runtimeTimer (sps w) with
    | Some t =>
        if negb (t =? 0) then
          let '(id, w') := setInterval (SPSCycleTime (sps w)) w in
          on_sps (with_runtimeTimer (Some id)) w'
        else w
    | None => w
    end
  else if newState =? 2 then clearInterval (runtimeTimer (sps w)) w
  else w.

(** The networks of an array input, compiled one by one as [flatMap] does:
    the concatenated command arrays, whether one of them came back [null],
    and every call made to [errorCallback]. *)
Fixpoint compile_networks (texts : list string) : list command * bool * list string :=
  match texts with
  | [] => ([], false, [])
  | t :: rest =>
      let '(cmds, invalid, errs) := compile_networks rest in
      match generateCodeStructure t with
      | (Some c, e) => (c ++ cmds, invalid, e ++ errs)
      | (None, e) => (cmds, true, e ++ errs)
      end
  end.

(** What [loadCode] has in [codeArray] and [invalidCommand] before it
    decides, with the calls made to [errorCallback] up to there. *)
Definition load_front (ImputCode : code_input) : option (list command) * bool * list string :=
  match ImputCode with
  | Networks texts =>
      let '(cmds, invalid, errs) := compile_networks texts in (Some cmds, invalid, errs)
  | Single text =>
      let '(c, errs) := generateCodeStructure text in (c, false, errs)
  end.

(** [loadCode(ImputCode, errorCallback)]: the returned number, the messages
    [errorCallback] received, and the world afterwards. *)
Definition loadCode (ImputCode : code_input) (w : world) : Z * list string * world :=
  let w := on_sps (with_codeInput (Some ImputCode)) w in
  let '(codeArray, invalid, errs) := load_front ImputCode in
  match codeArray with
  | Some cmds =>
      if (0 <? length cmds)%nat && negb invalid then
        let '(code, errs') := generateJSCode cmds in
        (0, errs ++ errs', on_sps (with_SPSCode (Some code)) w)
      else
        (-1, errs,
         on_sps (with_SPSCode (Some "")) (console_error "SPS:loadCode >> Invalid IL Code" w))
  | None =>
      (-1, errs,
       on_sps (with_SPSCode (Some "")) (console_error "SPS:loadCode >> Invalid IL Code" w))
  end.

(** [setCycleTime(delay)] for an integral number of milliseconds. *)
Definition setCycleTime (delay : Z) (w : world) : Z * world :=
  if (10 <? delay) || (delay <? 1000) then
    (0, on_sps (with_SPSCycleTime delay) w)
  else
    (-1, console_error "SPS:setCycleTime >> Cycle Time must be between 10 and 1000ms" w).

(** [bank[i] = source[i]] for [i] from [0] below the bank's length; reading
    past the end of [source] gives [undefined]. *)
Definition copy_into (a : jsarray) (source : list jsval) : jsarray :=
  fold_left (λ acc i, array_set acc (Z.of_nat i) (default VUndef (source !! i)))
    (seq 0 (array_length a)) a.

(** [setFlags(flags)].  Its first statement assigns to the identifier
    [dataReady], which no scope of the module declares: in strict code that
    is a [ReferenceError] unless the global object has such a property. *)
Definition setFlags (flags : list jsval) (w : world) : completion Z * world :=
  match global_dataReady (env w) with
  | None => (Thrown ReferenceError, w)
  | Some _ =>
      let h := env w in
      let w1 := MkWorld (sps w)
                  (MkHost (intervals h) (next_timer h) (Some (VBool false)) (console h)) in
      let r := registers (sps w1) in
      (Returned 0, on_sps (with_registers (set_bank BM (copy_into (regM r) flags) r)) w1)
  end.

(** [setInputs(inputs)]. *)
Definition setInputs (inputs : list jsval) (w : world) : Z * world :=
  let w1 := on_sps (with_dataReady_private false) w in
  let r := registers (sps w1) in
  (0, on_sps (with_registers (set_bank BE (copy_into (regE r) inputs) r)) w1).

(** [target[i] = source[i]] for [i] from [0] below [n], into a new array. *)
Definition copy_first (n : nat) (source : jsarray) : jsarray :=
  fold_left (λ acc i, array_set acc (Z.of_nat i) (array_get source (Z.of_nat i)))
    (seq 0 n) (JSArray [] ∅).

(** [getInputs()]: the loop runs to the literal [8]. *)
Definition getInputs (w : world) : array_result :=
  Fresh (copy_first 8 (regE (registers (sps w)))).

(** [getFlags()]. *)
Definition getFlags (w : world) : array_result :=
  let m := regM (registers (sps w)) in Fresh (copy_first (array_length m) m).

(** [getOutputs()]: a scan first when the private flag is unset and the
    state is 1; then [return this.#A], the bank object itself. *)
Definition getOutputs (w : world) : completion array_result * world :=
  if negb (dataReady_private (sps w)) && (state (sps w) =? 1) then
    match SPSRuntime w with
    | (Returned _, w') => (Returned (Live BA), w')
    | (Thrown x, w') => (Thrown x, w')
    end
  else (Returned (Live BA), w).

Definition getState (w : world) : Z := state (sps w).
Definition getRuntimeCounter (w : world) : Z := RuntimeCounter (sps w).
Definition dataAvailable (w : world) : bool := dataReady_private (sps w).

(** [start()]. *)
Definition start (w : world) : Z * world :=
  if state (sps w) =? 1 then (-1, w)
  else
    let w1 := on_sps (with_state 1) w in
    (0, changeSPSState (state (sps w1)) w1).

(** [stop()]. *)
Definition stop (w : world) : Z * world :=
  if state (sps w) =? 0 then (-1, w)
  else
    let w1 := on_sps (with_state 0) w in
    let r := registers (sps w1) in
    let w2 := on_sps (with_registers
                (Banks (array_fill (regE r) (VNum 0)) (array_fill (regA r) (VNum 0))
                       (array_fill (regM r) (VNum 0)))) w1 in
    (0, changeSPSState (state (sps w2)) w2).

(** [pause()]. *)
Definition pause (w : world) : Z * world :=
  if state (sps w) =? 2 then (-1, w)
  else
    let w1 := on_sps (with_state 2) w in
    (0, changeSPSState (state (sps w1)) w1).

(** One period of the host's timers: every armed interval runs its callback,
    [#SPSRuntime]; an exception ends that callback only. *)
Definition timer_tick (w : world) : world :=
  fold_left (λ acc _, (SPSRuntime acc).2) (intervals (env w)) w.

(** The calls a client, or the host's timer, can make. *)
Inductive call :=
  | CallLoadCode (i : code_input)
  | CallSetCycleTime (delay : Z)
  | CallSetFlags (flags : list jsval)
  | CallSetInputs (inputs : list jsval)
  | CallGetInputs
  | CallGetFlags
  | CallGetOutputs
  | CallStart
  | CallStop
  | CallPause
  | TimerTick.

Definition perform (w : world) (c : call) : world :=
  match c with
  | CallLoadCode i => (loadCode i w).2
  | CallSetCycleTime d => (setCycleTime d w).2
  | CallSetFlags f => (setFlags f w).2
  | CallSetInputs i => (setInputs i w).2
  | CallGetInputs | CallGetFlags => w
  | CallGetOutputs => (getOutputs w).2
  | CallStart => (start w).2
  | CallStop => (stop w).2
  | CallPause => (pause w).2
  | TimerTick => timer_tick w
  end.

(** The world after a history of calls on a new instance. *)
Definition after (Inputs Outputs Flags : nat) (history : list call) : world :=
  fold_left perform history (new_world Inputs Outputs Flags).

(* ===================================================================== *)
(** ** Notions used in the statements *)
(* ===================================================================== *)

(** The fields no method ever assigns a useful value to. *)
Definition dormant (w : world) : Prop :=
  runtimeTimer (sps w) = None ∧ intervals (env w) = [] ∧
  dataReady_private (sps w) = false ∧ global_dataReady (env w) = None.

(** The banks [r2] are the banks [r1] after register [k] of bank [b] received
    the value [v]: that register now reads [v], and every other register of
    every bank reads as it did. *)
Definition stored (b : bank) (k : Z) (v : jsval) (r1 r2 : banks) : Prop :=
  read_reg b k r2 = v ∧
  ∀ b' k', (b', k') ≠ (b, k) → read_reg b' k' r2 = read_reg b' k' r1.

(** The text is made of 7-bit characters: the range in which the model's
    [toUpperCase], [\s], [trim] and line terminators are JavaScript's. *)
Definition seven_bit (s : string) : bool :=
  string_forall (λ c, (char_code c <? 128)%nat) s.

(** A piece of text the lexer can classify: a logic operator, an
    instruction, an operand or a bracket. *)
Definition known_part (p : string) : bool :=
  includes validlogicalOperations p || includes validInstructions p
  || validOperandsRegex p || includes validBrackets p.

(** Some piece of the network text is none of these. *)
Definition invalid_token (text : string) : Prop :=
  ∃ p, p ∈ codeParts text ∧ known_part p = false.

(** The brackets of the network text do not pair up. *)
Definition unbalanced_brackets (text : string) : Prop :=
  BracketCount (classify_all (codeParts text)) ≠ 0.

(** The network texts of an argument of [loadCode]. *)
Definition texts_of (i : code_input) : list string :=
  match i with
  | Single t => [t]
  | Networks ts => ts
  end.

(** Some network of the input has an error that the lexer detects. *)
Definition has_lexical_error (i : code_input) : Prop :=
  ∃ t, t ∈ texts_of i ∧ (invalid_token t ∨ unbalanced_brackets t).

(** A token after which no expression can continue. *)
Definition stop_token (t : jstok) : bool :=
  match t with
  | TLParen | TNe | TAnd | TOr => false
  | _ => true
  end.

(** The tokens [x] do not continue an expression that ended before them. *)
Definition stops (x : list jstok) : Prop :=
  match x with
  | t :: _ => stop_token t = true
  | [] => True
  end.

(** [p'] succeeds wherever [p] does, with the same result. *)
Definition refines {A} (p p' : parser A) : Prop :=
  ∀ ts res, p ts = Some res → p' ts = Some res.

(** A result of [p] is not changed by tokens added behind the input, as long
    as an expression that reached the end cannot continue into them. *)
Definition extends_ok (p : parser jexpr) : Prop :=
  p [] = None ∧
  ∀ ts e r x, p ts = Some (e, r) → (r = [] → stops x) → p (ts ++ x) = Some (e, r ++ x).

(** The tokens [x] do not continue an [if] that ended before them. *)
Definition no_else (x : list jstok) : Prop :=
  match x with
  | TElse :: _ => False
  | _ => True
  end.

(** A statement parser whose results survive tokens added behind the input. *)
Definition stmt_extends_ok (ps : parser jstmt) : Prop :=
  ps [] = None ∧
  ∀ ts s r x, ps ts = Some (s, r) → (r = [] → no_else x) → ps (ts ++ x) = Some (s, r ++ x).

(** The letter of a bank in AWL operands. *)
Definition bank_letter (b : bank) : string :=
  match b with BE => "E" | BA => "A" | BM => "M" end.

(** The tokens of the index [k] between the brackets of a register
    reference. *)
Definition key_tokens (k : Z) : list jstok :=
  if k <? 0 then [TMinus; TNum (Z.to_N (- k))] else [TNum (Z.to_N k)].

(** The tokens of the reference [this.#b[k]]. *)
Definition register_tokens (b : bank) (k : Z) : list jstok :=
  [TThis; TDot; TPriv b; TLBrack] ++ key_tokens k ++ [TRBrack].

(** The bank an operand letter stands for. *)
Definition bank_of_letter (c : ascii) : option bank :=
  if Ascii.eqb c "E" then Some BE
  else if Ascii.eqb c "A" then Some BA
  else if Ascii.eqb c "M" then Some BM
  else None.

(** The register an operand names: its bank and its 0-based offset. *)
Definition operand_target (instr : string) : option (bank * Z) :=
  match instr with
  | String c ds =>
      match bank_of_letter c, num_sub (parseInt ds) 1 with
      | Some b, Int k => Some (b, k)
      | _, _ => None
      end
  | EmptyString => None
  end.

(** The states in which the tokenizer can be when a piece of generated text
    ends: between tokens, or behind a [!] or a [!==] that the next character
    completes. *)
Definition lex_ready (ls : lex_state) : Prop :=
  ls = LStart ∨ ls = LPunct "!" ∨ ls = LPunct "!==".

(** The token such a state still owes. *)
Definition owed (ls : lex_state) : list jstok := default [] (lex_end ls).

(** The value of a decimal digit. *)
Definition digit_value (c : ascii) : Z := Z.of_nat (char_code c) - 48.

(** The number a string of decimal digits denotes, most significant digit
    first, continuing from [acc]. *)
Fixpoint decimal_value_from (acc : Z) (ds : string) : Z :=
  match ds with
  | EmptyString => acc
  | String c r => decimal_value_from (10 * acc + digit_value c) r
  end.

(** The number a string of decimal digits denotes. *)
Definition decimal_value (ds : string) : Z := decimal_value_from 0 ds.

(** The index an operand names, read off its digits. *)
Definition operand_index (part : string) : Z := decimal_value (slice1 part).

(** What the lexer can put into a command. *)
Definition lexer_command (c : command) : bool :=
  match type c with
  | 1%nat => includes validlogicalOperations (instruction c)
  | 2%nat => includes validInstructions (instruction c)
  | 3%nat => validOperandsRegex (instruction c)
  | 4%nat => includes validBrackets (instruction c)
  | 6%nat => true
  | _ => false
  end.

(** The part of the compiler's state that decides what the next command
    emits: the state with the text and the reports emptied. *)
Definition core (st : gen_state) : gen_state :=
  GenState "" (lastInstruction st) (isNewBlock st) (openIfBlock st) [].

(** The tokens of the assignment [this.#b[k] = v;]. *)
Definition set_tokens (b : bank) (k : Z) (v : jstok) : list jstok :=
  register_tokens b k ++ [TEq; v; TSemi].

(** The tokens of the text that closes an [if] for each instruction. *)
Definition closing_tokens (ins : string) (b : bank) (k : Z) : list jstok :=
  if String.eqb ins "S" then
    [TRParen; TLBrace] ++ set_tokens b k TTrue ++ [TRBrace]
  else if String.eqb ins "R" then
    [TRParen; TLBrace] ++ set_tokens b k TFalse ++ [TRBrace]
  else
    [TRParen; TLBrace] ++ set_tokens b k TTrue ++ [TRBrace; TElse; TLBrace]
      ++ set_tokens b k TFalse ++ [TRBrace].

(** A command that may stand inside a condition. *)
Definition condition_command (c : command) : bool :=
  lexer_command c && ((type c =? 1)%nat || (type c =? 3)%nat || (type c =? 4)%nat).

(** The operand's index is one that JavaScript's numbers hold exactly. *)
Definition index_exact (c : command) : bool :=
  match type c with
  | 3%nat =>
      match operand_target (instruction c) with
      | Some (_, k) => k <? max_safe_integer
      | None => false
      end
  | _ => true
  end.

(** The compiler's state inside an open condition. *)
Definition in_condition : gen_state := GenState "" "" false true [].

(** The truth value of a literal token. *)
Definition bool_of_token (t : jstok) : option bool :=
  match t with
  | TTrue => Some true
  | TFalse => Some false
  | _ => None
  end.

(** The statement each instruction closes a condition with. *)
Definition closed_statement (ins : string) (c : jexpr) (b : bank) (k : Z) : jstmt :=
  if String.eqb ins "S" then SIf c (SBlock [SAssign b k (EBool true)]) None
  else if String.eqb ins "R" then SIf c (SBlock [SAssign b k (EBool false)]) None
  else SIf c (SBlock [SAssign b k (EBool true)]) (Some (SBlock [SAssign b k (EBool false)])).

(** The commands of one statement: a logic operator, the rest of the
    condition, an instruction and its target. *)
Definition statement_commands (op : command) (cond : list command)
    (ins : string) (n1 : nat) (tgt : string) (n2 : nat) : list command :=
  op :: cond ++ [Command 2 ins n1; Command 3 tgt n2].

(** A list of commands that compiles, from between statements, to text that
    parses as the statement list [prog]; its operand indices are exact. *)
Definition segment_compiles (cmds : list command) (prog : list jstmt) : Prop :=
  Forall (λ c, lexer_command c = true) cmds ∧
  Forall (λ c, index_exact c = true) cmds ∧
  ∃ ts, tokenize (generateJSCode cmds).1 = Some ts ∧ parse_program ts = Some prog.

(** The compiler is between statements after the commands. *)
Definition closed (cmds : list command) : Prop := core (gen_run gen_init cmds) = gen_init.

(** A network text that compiles, on its own, to the statement list [prog]:
    it is 7-bit text, the lexer accepts it, its operand indices are exact,
    the compiler is back between statements at its end, and the text it
    produced parses. *)
Definition compiles_to (text : string) (prog : list jstmt) : Prop :=
  ∃ cmds ts,
    seven_bit text = true ∧
    generateCodeStructure text = (Some cmds, []) ∧
    Forall (λ c, index_exact c = true) cmds ∧
    closed cmds ∧
    tokenize (generateJSCode cmds).1 = Some ts ∧
    parse_program ts = Some prog.

(** An offset that addresses a register of the bank. *)
Definition in_bounds (a : jsarray) (k : Z) : Prop := 0 ≤ k < Z.of_nat (array_length a).

(** Opening minus closing round brackets among the tokens. *)
Definition paren_net (ts : list jstok) : Z :=
  fold_right (λ t n, match t with
                     | TLParen => n + 1
                     | TRParen => n - 1
                     | _ => n
                     end) 0 ts.

(** A parser that consumes as many [(] as [)]. *)
Definition keeps_parens {A : Type} (p : parser A) : Prop :=
  ∀ ts a r, p ts = Some (a, r) → paren_net ts = paren_net r.

(** What a command inside a condition adds to the open round brackets. *)
Definition bracket_net (c : command) : Z :=
  if (type c =? 4)%nat then (if String.eqb (instruction c) "(" then 1 else -1) else 0.

(** No bank of [r'] is shorter than it is in [r]. *)
Definition banks_grow (r r' : banks) : Prop :=
  ∀ b, (array_length (bank_of b r) ≤ array_length (bank_of b r'))%nat.

(** The run state is one of the three the class knows, the counter is not
    negative, and it is zero while the controller is stopped. *)
Definition run_state_ok (w : world) : Prop :=
  (getState w = 0 ∨ getState w = 1 ∨ getState w = 2) ∧
  0 ≤ getRuntimeCounter w ∧
  (getState w = 0 → getRuntimeCounter w = 0).

(** The message the lexer hands to the error callback for an unknown part. *)
Definition unknown_message (p : string) : string :=
  "generateCodeStructure >> Unknown command or operand found: " +:+ p.

(** How many of the parts are the bracket [b]. *)
Definition count_bracket (b : string) (parts : list string) : nat :=
  length (filter (λ p, p = b) parts).

(** The brackets of the parts pair up by number. *)
Definition brackets_balanced (parts : list string) : Prop :=
  count_bracket "(" parts = count_bracket ")" parts.

(** Positions and block numbers agree. *)
Definition numbered (l : list command) : Prop :=
  ∀ i c, l !! i = Some c → blockNumber c = i.

(** The last character of the text is a slash. *)
Fixpoint ends_with_slash (s : string) : bool :=
  match s with
  | EmptyString => false
  | String c EmptyString => Ascii.eqb c "/"
  | String _ r => ends_with_slash r
  end.

(** The text is at the end of a line: empty, or a line terminator first. *)
Definition at_line_end (s : string) : bool :=
  match s with
  | EmptyString => true
  | String c _ => is_line_terminator c
  end.

(** A character that can stand inside a part and is left alone by the
    passes before the split: a 7-bit character that is no separator, no
    lower-case letter and no slash. *)
Definition plain_char (c : ascii) : bool :=
  (char_code c <? 128)%nat &&
  negb (is_separator c) && negb (is_lower c) && negb (Ascii.eqb c "/").

(** A part as [codeParts] produces it from well-spaced text: a non-empty
    run of plain characters, or one bracket character. *)
Definition is_part (p : string) : bool :=
  match p with
  | EmptyString => false
  | String c EmptyString => is_bracket_char c || plain_char c
  | _ => string_forall plain_char p
  end.

(** Every operand of the text has an index up to [2^53]: there the number
    its digits denote is what [parseInt] returns, the subtraction of 1 is
    exact and the result prints in decimal digits. *)
Definition indices_exact (text : string) : bool :=
  forallb (λ p, negb (validOperandsRegex p) || (operand_index p <=? max_safe_integer))
    (codeParts text).

(** The lexer accepts the network text: every part is known and the
    brackets pair up by number. *)
Definition lexer_accepts (text : string) : Prop :=
  Forall (λ p, known_part p = true) (codeParts text) ∧ brackets_balanced (codeParts text).

(** What a logic operator between two operands makes of their values: the
    truth of the condition [a <operator> b]. *)
Definition operator_truth (o : string) (a b : jsval) : bool :=
  if String.eqb o "U" then truthy a && truthy b
  else if String.eqb o "O" then truthy a || truthy b
  else if String.eqb o "X" then strict_ne a b
  else if String.eqb o "UN" then truthy a && negb (truthy b)
  else truthy a || negb (truthy b).

(** The expression a logic operator between two operands is compiled to. *)
Definition operator_expression (o : string) (a b : jexpr) : jexpr :=
  if String.eqb o "U" then EAnd a b
  else if String.eqb o "O" then EOr a b
  else if String.eqb o "X" then ENe a b
  else if String.eqb o "UN" then EAnd a (ENot b)
  else EOr a (ENot b).

(** The tokens of the text an operator inside a condition is compiled to. *)
Definition operator_tokens (o : string) : list jstok :=
  if String.eqb o "U" then [TAnd]
  else if String.eqb o "O" then [TOr]
  else if String.eqb o "X" then [TNe]
  else if String.eqb o "UN" then [TAnd; TBang]
  else [TOr; TBang].

(* ===================================================================== *)
(** ** Lemmas *)
(* ===================================================================== *)

(** *** Fields that no method arms *)

Lemma SPSRuntime_fields w :
  let w' := (SPSRuntime w).2 in
  runtimeTimer (sps w') = runtimeTimer (sps w) ∧ env w' = env w ∧
  dataReady_private (sps w') = dataReady_private (sps w) ∧
  state (sps w') = state (sps w) ∧
  RuntimeCounter (sps w') = RuntimeCounter (sps w) + 1.
Proof.
  unfold SPSRuntime; simpl.
  destruct (SPSCode (sps w)) as [code|]; simpl; [|done].
  destruct (eval_code code (registers (sps w))); simpl; done.
Qed.

Lemma SPSRuntime_dormant w : dormant w → dormant (SPSRuntime w).2.
Proof.
  intros (H1 & H2 & H3 & H4).
  destruct (SPSRuntime_fields w) as (E1 & E2 & E3 & _).
  unfold dormant. rewrite E1, E2, E3. done.
Qed.

Lemma loadCode_fields i w :
  let w' := (loadCode i w).2 in
  runtimeTimer (sps w') = runtimeTimer (sps w) ∧
  intervals (env w') = intervals (env w) ∧
  dataReady_private (sps w') = dataReady_private (sps w) ∧
  global_dataReady (env w') = global_dataReady (env w) ∧
  registers (sps w') = registers (sps w) ∧
  state (sps w') = state (sps w) ∧
  RuntimeCounter (sps w') = RuntimeCounter (sps w) ∧
  SPSCycleTime (sps w') = SPSCycleTime (sps w).
Proof.
  unfold loadCode.
  destruct (load_front i) as [[[cmds|] invalid] errs]; simpl; [|done].
  destruct ((0 <? length cmds)%nat && negb invalid); simpl; [|done].
  destruct (generateJSCode cmds); simpl; done.
Qed.

Lemma changeSPSState_dormant n w : dormant w → dormant (changeSPSState n w).
Proof.
  intros (H1 & H2 & H3 & H4). unfold changeSPSState.
  rewrite H1. simpl.
  repeat case_match; unfold dormant; simpl; done.
Qed.

Lemma perform_dormant w c : dormant w → dormant (perform w c).
Proof.
  intros H. destruct c; simpl; try done.
  - destruct (loadCode_fields i w) as (E1 & E2 & E3 & E4 & _).
    destruct H as (H1 & H2 & H3 & H4). unfold dormant. rewrite E1, E2, E3, E4. done.
  - unfold setCycleTime. destruct H as (H1 & H2 & H3 & H4).
    case_match; unfold dormant; simpl; done.
  - unfold setFlags. destruct H as (H1 & H2 & H3 & H4). rewrite H4. simpl. done.
  - unfold setInputs. destruct H as (H1 & H2 & H3 & H4). unfold dormant; simpl; done.
  - unfold getOutputs. case_match; [|done].
    pose proof (SPSRuntime_dormant w H) as H'.
    destruct (SPSRuntime w) as [[u|x] w']; simpl in *; done.
  - unfold start. case_match; [done|]. simpl.
    apply changeSPSState_dormant. destruct H as (H1 & H2 & H3 & H4). unfold dormant; simpl; done.
  - unfold stop. case_match; [done|]. simpl.
    apply changeSPSState_dormant. destruct H as (H1 & H2 & H3 & H4). unfold dormant; simpl; done.
  - unfold pause. case_match; [done|]. simpl.
    apply changeSPSState_dormant. destruct H as (H1 & H2 & H3 & H4). unfold dormant; simpl; done.
  - unfold timer_tick. destruct H as (H1 & H2 & H3 & H4). rewrite H2. simpl. done.
Qed.

Lemma after_dormant i o f history : dormant (after i o f history).
Proof.
  unfold after.
  assert (G : ∀ w, dormant w → dormant (fold_left perform history w)).
  { induction history as [|c h IH]; intros w Hw; simpl; [done|].
    apply IH. by apply perform_dormant. }
  apply G. unfold dormant; simpl; done.
Qed.

(** *** Arrays and the copying loops *)

Lemma array_set_inside a (i : nat) v :
  (i < length (elems a))%nat → Z.of_nat i < max_array_index →
  array_set a (Z.of_nat i) v = JSArray (<[i := v]> (elems a)) (props a).
Proof.
  intros Hi Hm. unfold array_set.
  replace (0 <=? Z.of_nat i) with true by (symmetry; apply Z.leb_le; lia).
  replace (Z.of_nat i <? max_array_index) with true by (symmetry; apply Z.ltb_lt; lia).
  simpl. rewrite Nat2Z.id.
  replace (i <? length (elems a))%nat with true by (symmetry; apply Nat.ltb_lt; lia).
  done.
Qed.

Lemma array_get_inside a (i : nat) :
  Z.of_nat i < max_array_index →
  array_get a (Z.of_nat i) = default VUndef (elems a !! i).
Proof.
  intros Hm. unfold array_get.
  replace (0 <=? Z.of_nat i) with true by (symmetry; apply Z.leb_le; lia).
  replace (Z.of_nat i <? max_array_index) with true by (symmetry; apply Z.ltb_lt; lia).
  simpl. by rewrite Nat2Z.id.
Qed.

(** The loop of [setInputs]/[setFlags] after [n] rounds. *)
Lemma copy_into_prefix (source : list jsval) a n :
  (n ≤ length (elems a))%nat → Z.of_nat (length (elems a)) ≤ max_array_index →
  fold_left (λ acc i, array_set acc (Z.of_nat i) (default VUndef (source !! i))) (seq 0 n) a
  = JSArray (map (λ i, default VUndef (source !! i)) (seq 0 n) ++ drop n (elems a)) (props a).
Proof.
  intros Hn Hm. induction n as [|n IH].
  - simpl. rewrite drop_0. by destruct a.
  - rewrite seq_S, fold_left_app, IH by lia. simpl.
    rewrite array_set_inside; simpl.
    + f_equal. rewrite map_app. simpl.
      rewrite <- app_assoc. 
      rewrite insert_app_r_alt by (rewrite length_map, length_seq; lia).
      rewrite length_map, length_seq, Nat.sub_diag.
      f_equal.
      destruct (drop n (elems a)) as [|x l] eqn:E.
      { apply (f_equal length) in E. rewrite length_drop in E. simpl in E. lia. }
      simpl. f_equal.
      change l with (drop 1 (x :: l)). rewrite <- E, drop_drop. f_equal. lia.
    + rewrite length_app, length_map, length_seq, length_drop. lia.
    + lia.
Qed.

Lemma copy_into_elems (source : list jsval) a :
  Z.of_nat (array_length a) ≤ max_array_index →
  copy_into a source =
  JSArray (map (λ i, default VUndef (source !! i)) (seq 0 (array_length a))) (props a).
Proof.
  intros Hm. unfold copy_into, array_length in *.
  rewrite copy_into_prefix by lia.
  by rewrite drop_all, app_nil_r.
Qed.

(** The loop of [getFlags] after [n] rounds. *)
Lemma copy_first_prefix source n :
  (n ≤ length (elems source))%nat → Z.of_nat (length (elems source)) ≤ max_array_index →
  copy_first n source = JSArray (take n (elems source)) ∅.
Proof.
  intros Hn Hm. unfold copy_first. induction n as [|n IH].
  - done.
  - rewrite seq_S, fold_left_app, IH by lia. simpl.
    unfold array_set.
    replace (0 <=? Z.of_nat n) with true by (symmetry; apply Z.leb_le; lia).
    replace (Z.of_nat n <? max_array_index) with true by (symmetry; apply Z.ltb_lt; lia).
    simpl. rewrite Nat2Z.id, length_take.
    replace (n <? n `min` length (elems source))%nat with false by (symmetry; apply Nat.ltb_ge; lia).
    replace (n - n `min` length (elems source))%nat with 0%nat by lia. simpl.
    f_equal. rewrite array_get_inside by lia.
    destruct (elems source !! n) as [x|] eqn:E.
    + simpl. by rewrite (take_S_r _ _ _ E).
    + apply lookup_ge_None in E. lia.
Qed.

Lemma getFlags_snapshot w :
  Z.of_nat (array_length (regM (registers (sps w)))) ≤ max_array_index →
  ∀ w', elems (deref w' (getFlags w)) = elems (regM (registers (sps w))).
Proof.
  intros Hm w'. unfold getFlags, array_length in *. simpl.
  rewrite copy_first_prefix by lia. simpl. by rewrite take_ge.
Qed.

Lemma setInputs_overwrites inputs w :
  Z.of_nat (array_length (regE (registers (sps w)))) ≤ max_array_index →
  let '(r, w') := setInputs inputs w in
  r = 0 ∧ dataAvailable w' = false ∧
  elems (regE (registers (sps w'))) =
    map (λ i, default VUndef (inputs !! i)) (seq 0 (array_length (regE (registers (sps w))))).
Proof.
  intros Hm. unfold setInputs; simpl. rewrite copy_into_elems by done.
  by destruct (registers (sps w)).
Qed.

Lemma setCycleTime_always_succeeds delay w :
  setCycleTime delay w = (0, on_sps (with_SPSCycleTime delay) w).
Proof.
  unfold setCycleTime.
  destruct (10 <? delay) eqn:E1; [done|].
  destruct (delay <? 1000) eqn:E2; [done|].
  apply Z.ltb_ge in E1, E2. lia.
Qed.

Lemma array_get_set_same a k v : array_get (array_set a k v) k = v.
Proof.
  unfold array_get, array_set.
  destruct ((0 <=? k) && (k <? max_array_index)) eqn:E.
  - destruct (Z.to_nat k <? length (elems a))%nat eqn:L; cbn [elems props].
    + apply Nat.ltb_lt in L. by rewrite list_lookup_insert_eq.
    + apply Nat.ltb_ge in L.
      rewrite lookup_app_r by done. rewrite lookup_app_r by (rewrite length_replicate; lia).
      rewrite length_replicate. by rewrite Nat.sub_diag.
  - cbn [elems props]. by rewrite lookup_insert_eq.
Qed.

Lemma array_get_set_other a k v k' : k' ≠ k → array_get (array_set a k v) k' = array_get a k'.
Proof.
  intros Hne. unfold array_get, array_set.
  destruct ((0 <=? k) && (k <? max_array_index)) eqn:E;
    destruct ((0 <=? k') && (k' <? max_array_index)) eqn:E'.
  - apply andb_prop in E as [E1 _]. apply andb_prop in E' as [E1' _].
    apply Z.leb_le in E1, E1'.
    assert (Z.to_nat k' ≠ Z.to_nat k) as Hn by lia.
    destruct (Z.to_nat k <? length (elems a))%nat eqn:L; cbn [elems props].
    + by rewrite list_lookup_insert_ne.
    + apply Nat.ltb_ge in L.
      destruct (decide (Z.to_nat k' < length (elems a))%nat) as [Hlt|Hge].
      * by rewrite lookup_app_l.
      * rewrite lookup_app_r by lia.
        rewrite (proj2 (lookup_ge_None (elems a) (Z.to_nat k'))) by lia. cbn [default].
        destruct (decide (Z.to_nat k' < Z.to_nat k)%nat) as [Hlt|Hgt].
        -- rewrite lookup_app_l by (rewrite length_replicate; lia).
           rewrite lookup_replicate_2 by lia. done.
        -- rewrite lookup_app_r by (rewrite length_replicate; lia).
           rewrite length_replicate.
           rewrite (proj2 (lookup_ge_None _ _)); [done|]. cbn [length]. lia.
  - by destruct (Z.to_nat k <? length (elems a))%nat.
  - done.
  - cbn [elems props]. by rewrite lookup_insert_ne.
Qed.

Lemma write_reg_stored b k v r : stored b k v r (write_reg b k v r).
Proof.
  unfold stored, read_reg, write_reg. split.
  - destruct b, r; cbn; apply array_get_set_same.
  - intros b' k' Hne.
    destruct (decide (b' = b)) as [->|Hb].
    + assert (k' ≠ k) by congruence.
      destruct b, r; cbn; by apply array_get_set_other.
    + destruct b, b', r; cbn; done.
Qed.

(** *** The lexer and the outcome of a load *)

Lemma classify_part_known st p :
  known_part p = true →
  invalidCommand (classify_part st p) = invalidCommand st ∧
  lexer_errors (classify_part st p) = lexer_errors st.
Proof.
  unfold known_part, classify_part. intros H.
  destruct (includes validlogicalOperations p); [done|].
  destruct (includes validInstructions p); [done|].
  destruct (validOperandsRegex p); [done|].
  destruct (includes validBrackets p); [done|]. done.
Qed.

Lemma classify_part_unknown st p :
  known_part p = false →
  invalidCommand (classify_part st p) = true ∧
  lexer_errors (classify_part st p) =
    lexer_errors st ++ ["generateCodeStructure >> Unknown command or operand found: " +:+ p].
Proof.
  unfold known_part, classify_part. intros H.
  destruct (includes validlogicalOperations p); [done|].
  destruct (includes validInstructions p); [done|].
  destruct (validOperandsRegex p); [done|].
  destruct (includes validBrackets p); [done|]. done.
Qed.

(** [invalidCommand] is raised exactly when something was reported. *)
Lemma classify_fold parts : ∀ st,
  (invalidCommand st = true ↔ lexer_errors st ≠ []) →
  let st' := fold_left classify_part parts st in
  (invalidCommand st' = true ↔ lexer_errors st' ≠ []) ∧
  (invalidCommand st' = true ↔
     invalidCommand st = true ∨ ∃ p, p ∈ parts ∧ known_part p = false).
Proof.
  induction parts as [|p parts IH]; intros st Hst; simpl.
  - split; [done|]. split; [tauto|]. intros [H|(p & Hp & _)]; [done|]. by apply elem_of_nil in Hp.
  - destruct (known_part p) eqn:K.
    + destruct (classify_part_known st p K) as [E1 E2].
      destruct (IH (classify_part st p)) as [I1 I2]; [by rewrite E1, E2|].
      split; [done|]. rewrite I2, E1. split.
      * intros [H|(q & Hq & Kq)]; [by left|]. right. exists q. split; [by right|done].
      * intros [H|(q & Hq & Kq)]; [by left|].
        apply elem_of_cons in Hq as [->|Hq]; [congruence|]. right. by exists q.
    + destruct (classify_part_unknown st p K) as [E1 E2].
      destruct (IH (classify_part st p)) as [I1 I2].
      { rewrite E1, E2. split; [|done]. intros _ H. by apply app_eq_nil in H as [_ ?]. }
      split; [done|]. rewrite I2, E1. split; [|by left].
      intros _. right. exists p. split; [by left|done].
Qed.

Lemma generateCodeStructure_rejects text :
  invalid_token text ∨ unbalanced_brackets text →
  ∃ errs, generateCodeStructure text = (None, errs) ∧ errs ≠ [].
Proof.
  intros H. unfold generateCodeStructure.
  destruct (classify_fold (codeParts text) (LexerState [] 0 false [])) as [I1 I2]; [done|].
  fold (classify_all (codeParts text)) in I1, I2.
  set (st := classify_all (codeParts text)) in *.
  assert (G : invalidCommand (check_brackets st) = true ∧ lexer_errors (check_brackets st) ≠ []).
  { unfold check_brackets. destruct (BracketCount st =? 0) eqn:B; simpl.
    - apply Z.eqb_eq in B. destruct H as [H|H]; [|done].
      assert (invalidCommand st = true) as Hi by (apply I2; by right).
      split; [done|]. by apply I1.
    - split; [done|]. intros E. by apply app_eq_nil in E as [_ ?]. }
  destruct G as [G1 G2]. rewrite G1. eauto.
Qed.

Lemma generateCodeStructure_accepts text :
  ¬ (invalid_token text ∨ unbalanced_brackets text) →
  ∃ cmds, generateCodeStructure text = (Some (cmds ++ [Command 6 ";" (length cmds)]), []).
Proof.
  intros H. unfold generateCodeStructure.
  destruct (classify_fold (codeParts text) (LexerState [] 0 false [])) as [I1 I2]; [done|].
  fold (classify_all (codeParts text)) in I1, I2.
  set (st := classify_all (codeParts text)) in *.
  assert (B : BracketCount st = 0).
  { destruct (decide (BracketCount st = 0)); [done|]. exfalso. apply H. by right. }
  assert (Hi : invalidCommand st = false).
  { destruct (invalidCommand st) eqn:E; [|done]. exfalso. apply H. left.
    destruct I2 as [I2 _]. destruct (I2 eq_refl) as [?|?]; done. }
  unfold check_brackets. rewrite B. simpl. rewrite Hi.
  exists (commandArray st). f_equal.
  destruct (lexer_errors st) eqn:E; [done|].
  assert (invalidCommand st = true) by (apply I1; done). congruence.
Qed.

Lemma compile_networks_rejects texts t :
  t ∈ texts → invalid_token t ∨ unbalanced_brackets t →
  ∃ cmds errs, compile_networks texts = (cmds, true, errs) ∧ errs ≠ [].
Proof.
  induction texts as [|t' texts IH]; intros Hin Hbad; [by apply elem_of_nil in Hin|].
  simpl. destruct (compile_networks texts) as [[cmds invalid] errs] eqn:E.
  apply elem_of_cons in Hin as [->|Hin].
  - destruct (generateCodeStructure_rejects _ Hbad) as (e & -> & He).
    exists cmds, (e ++ errs). split; [done|]. intros X. by apply app_eq_nil in X as [? _].
  - destruct (IH Hin Hbad) as (c & e & [= -> -> ->] & He).
    destruct (generateCodeStructure t') as [[c'|] e'].
    + eexists _, _. split; [done|]. intros X. by apply app_eq_nil in X as [_ ?].
    + eexists _, _. split; [done|]. intros X. by apply app_eq_nil in X as [_ ?].
Qed.

Lemma loadCode_lexical_error i w :
  has_lexical_error i →
  let '(ret, errs, w') := loadCode i w in
  ret = -1 ∧ errs ≠ [] ∧ SPSCode (sps w') = Some "".
Proof.
  intros (t & Hin & Hbad). unfold loadCode, load_front.
  destruct i as [text|texts]; simpl in Hin.
  - apply list_elem_of_singleton in Hin as ->.
    destruct (generateCodeStructure_rejects _ Hbad) as (e & -> & He). done.
  - destruct (compile_networks_rejects _ _ Hin Hbad) as (c & e & -> & He).
    rewrite andb_false_r. done.
Qed.

Lemma end_of_network_reports_nothing st n :
  gen_command st (Command 6 ";" n) =
  GenState (JSCode st +:+ "; // End of Network
") (lastInstruction st) (isNewBlock st) (openIfBlock st) (gen_errors st).
Proof. done. Qed.

(** *** The expression parser *)

Section ExprCombinators.
Context (pe pe' : parser jexpr).

Lemma parse_primary_refines : refines pe pe' → refines (parse_primary pe) (parse_primary pe').
Proof.
  intros H ts res. unfold parse_primary.
  destruct ts as [|[] ts]; try done.
  destruct (pe ts) as [[e r]|] eqn:E; [|done].
  rewrite (H _ _ E). done.
Qed.

Lemma parse_call_rest_refines n n' f ts res :
  refines pe pe' → (n ≤ n')%nat →
  parse_call_rest pe n f ts = Some res → parse_call_rest pe' n' f ts = Some res.
Proof.
  intros H. revert n' f ts. induction n as [|n IH]; intros n' f ts Hn.
  - destruct ts as [|[] ts]; simpl; try done; destruct n'; done.
  - destruct n' as [|n']; [lia|].
    destruct ts as [|[] ts]; simpl; try done.
    destruct ts as [|t ts].
    + destruct (pe []) as [[a r]|] eqn:E; [|done]. rewrite (H _ _ E).
      destruct r as [|[] r]; try done. apply IH. lia.
    + destruct (decide (t = TRParen)) as [->|Ht].
      * apply IH. lia.
      * assert (∀ X Y : option (jexpr * list jstok),
          match t with TRParen => X | _ => Y end = Y) as Hm by (intros; destruct t; done).
        rewrite !Hm.
        destruct (pe (t :: ts)) as [[a r]|] eqn:E; [|done]. rewrite (H _ _ E).
        destruct r as [|[] r]; try done. apply IH. lia.
Qed.

Lemma parse_call_refines n n' :
  refines pe pe' → (n ≤ n')%nat → refines (parse_call pe n) (parse_call pe' n').
Proof.
  intros H Hn ts res. unfold parse_call.
  destruct (parse_primary pe ts) as [[f r]|] eqn:E; [|done].
  rewrite (parse_primary_refines H _ _ E).
  by apply parse_call_rest_refines.
Qed.

Lemma parse_unary_refines : refines pe pe' → refines (parse_unary pe) (parse_unary pe').
Proof.
  intros H ts. induction ts as [|t ts IH]; intros res; simpl; [apply H|].
  destruct t; try apply H.
  destruct (parse_unary pe ts) as [[e r]|] eqn:E; [|done].
  rewrite (IH _ eq_refl). done.
Qed.

Lemma parse_chain_rest_refines op mk n n' lhs ts res :
  refines pe pe' → (n ≤ n')%nat →
  parse_chain_rest pe op mk n lhs ts = Some res →
  parse_chain_rest pe' op mk n' lhs ts = Some res.
Proof.
  intros H. revert n' lhs ts. induction n as [|n IH]; intros n' lhs ts Hn.
  - destruct ts as [|t ts]; simpl; [by destruct n'|].
    destruct (decide (t = op)); [done|]. destruct n'; simpl; by rewrite decide_False.
  - destruct n' as [|n']; [lia|].
    destruct ts as [|t ts]; simpl; [done|].
    destruct (decide (t = op)); [|done].
    destruct (pe ts) as [[rhs r]|] eqn:E; [|done]. rewrite (H _ _ E).
    apply IH. lia.
Qed.

Lemma parse_chain_refines op mk n n' :
  refines pe pe' → (n ≤ n')%nat →
  refines (parse_chain pe op mk n) (parse_chain pe' op mk n').
Proof.
  intros H Hn ts res. unfold parse_chain.
  destruct (pe ts) as [[l r]|] eqn:E; [|done]. rewrite (H _ _ E).
  by apply parse_chain_rest_refines.
Qed.

Lemma parse_primary_extends : extends_ok pe → extends_ok (parse_primary pe).
Proof.
  intros [H0 H]. split; [done|]. intros ts e r x. unfold parse_primary, parse_register.
  destruct ts as [|t ts]; [done|].
  destruct t; simpl; try done.
  - (* this *)
    destruct ts as [|[] ts]; simpl; try done.
    destruct ts as [|[] ts]; simpl; try done.
    destruct ts as [|[] ts]; simpl; try done.
    destruct ts as [|[] ts]; simpl; try done.
    + destruct ts as [|[] ts]; simpl; try done.
      destruct ts as [|[] ts]; simpl; try done.
      intros [= <- <-] _. done.
    + destruct ts as [|[] ts]; simpl; try done.
      intros [= <- <-] _. done.
  - intros [= <- <-] _. done.
  - intros [= <- <-] _. done.
  - destruct (pe ts) as [[e' r']|] eqn:E; [|done].
    destruct r' as [|[] r']; try done.
    intros [= <- <-] _.
    rewrite (H _ _ _ x E); [done|done].
Qed.

Lemma parse_call_rest_extends n : extends_ok pe →
  ∀ f ts e r x, parse_call_rest pe n f ts = Some (e, r) → (r = [] → stops x) →
    parse_call_rest pe n f (ts ++ x) = Some (e, r ++ x).
Proof.
  intros [H0 H]. induction n as [|n IH]; intros f ts e r x.
  - destruct ts as [|t ts]; simpl.
    + intros [= <- <-] Hx. specialize (Hx eq_refl).
      destruct x as [|[] x]; simpl in *; done.
    + destruct t; try done; intros [= <- <-] _; done.
  - destruct ts as [|t ts]; simpl.
    + intros [= <- <-] Hx. specialize (Hx eq_refl).
      destruct x as [|[] x]; simpl in *; done.
    + destruct t; try (intros [= <- <-] _; done).
      destruct ts as [|t ts]; simpl.
      * by rewrite H0.
      * destruct (decide (t = TRParen)) as [->|Ht]; [apply IH|].
        assert (∀ X Y : option (jexpr * list jstok),
          match t with TRParen => X | _ => Y end = Y) as Hm by (intros; destruct t; done).
        rewrite !Hm.
        destruct (pe (t :: ts)) as [[a r']|] eqn:E; [|done].
        destruct r' as [|[] r']; try done.
        intros Hr Hx.
        rewrite app_comm_cons, (H _ _ _ x E); [|done]. simpl.
        by apply IH.
Qed.

Lemma parse_call_extends n : extends_ok pe → extends_ok (parse_call pe n).
Proof.
  intros H. split; [done|]. intros ts e r x. unfold parse_call.
  destruct (parse_primary pe ts) as [[f r']|] eqn:E; [|done].
  intros Hr Hx.
  destruct (parse_primary_extends H) as [_ Hp].
  destruct r' as [|t r'].
  - assert (e = f ∧ r = []) as [-> ->] by (destruct n; simpl in Hr; by injection Hr as <- <-).
    rewrite (Hp _ _ _ x E Hx). simpl.
    specialize (Hx eq_refl). destruct x as [|[] x]; destruct n; simpl in *; done.
  - rewrite (Hp _ _ _ x E); [|done].
    by apply parse_call_rest_extends.
Qed.

Lemma parse_unary_extends : extends_ok pe → extends_ok (parse_unary pe).
Proof.
  intros [H0 H]. split; [done|].
  intros ts. induction ts as [|t ts IH]; intros e r x; simpl.
  - by rewrite H0.
  - destruct t; try (apply (H (_ :: ts))).
    destruct (parse_unary pe ts) as [[e' r']|] eqn:E; [|done].
    intros [= <- <-] Hx. by rewrite (IH _ _ x eq_refl Hx).
Qed.

Lemma parse_chain_rest_extends op mk n : stop_token op = false → extends_ok pe →
  ∀ lhs ts e r x, parse_chain_rest pe op mk n lhs ts = Some (e, r) → (r = [] → stops x) →
    parse_chain_rest pe op mk n lhs (ts ++ x) = Some (e, r ++ x).
Proof.
  intros Hop [H0 H]. induction n as [|n IH]; intros lhs ts e r x.
  - destruct ts as [|t ts]; simpl.
    + intros [= <- <-] Hx. specialize (Hx eq_refl).
      destruct x as [|t x]; simpl in *; [done|].
      destruct (decide (t = op)) as [->|]; [congruence|done].
    + destruct (decide (t = op)); [done|]. intros [= <- <-] _. done.
  - destruct ts as [|t ts]; simpl.
    + intros [= <- <-] Hx. specialize (Hx eq_refl).
      destruct x as [|t x]; simpl in *; [done|].
      destruct (decide (t = op)) as [->|]; [congruence|done].
    + destruct (decide (t = op)); [|intros [= <- <-] _; done].
      destruct (pe ts) as [[rhs r']|] eqn:E; [|done].
      intros Hr Hx.
      destruct r' as [|t' r'].
      * assert (e = mk lhs rhs ∧ r = []) as [-> ->]
          by (destruct n; simpl in Hr; by injection Hr as <- <-).
        rewrite (H _ _ _ x E Hx). simpl. exact (IH _ [] _ [] x Hr Hx).
      * rewrite (H _ _ _ x E); [|done]. by apply IH.
Qed.

Lemma parse_chain_extends op mk n :
  stop_token op = false → extends_ok pe → extends_ok (parse_chain pe op mk n).
Proof.
  intros Hop HH. destruct HH as [H0 H]. split; [unfold parse_chain; by rewrite H0|].
  intros ts e r x. unfold parse_chain.
  destruct (pe ts) as [[lhs r']|] eqn:E; [|done].
  intros Hr Hx.
  destruct r' as [|t' r'].
  - assert (e = lhs ∧ r = []) as [-> ->]
      by (destruct n; simpl in Hr; by injection Hr as <- <-).
    rewrite (H _ _ _ x E Hx). simpl.
    exact (parse_chain_rest_extends op mk n Hop (conj H0 H) _ [] _ [] x Hr Hx).
  - rewrite (H _ _ _ x E); [|done].
    by apply parse_chain_rest_extends.
Qed.
End ExprCombinators.

Lemma parse_expr_refines f f' : (f ≤ f')%nat → refines (parse_expr f) (parse_expr f').
Proof.
  revert f'. induction f as [|f IH]; intros f' Hf; [done|].
  destruct f' as [|f']; [lia|]. simpl.
  assert (f ≤ f')%nat as Hle by lia.
  repeat apply parse_chain_refines; try done.
  apply parse_unary_refines, parse_call_refines; [|done]. by apply IH.
Qed.

Lemma parse_expr_extends f : extends_ok (parse_expr f).
Proof.
  induction f as [|f IH]; [done|]. simpl.
  repeat apply parse_chain_extends; try done.
  by apply parse_unary_extends, parse_call_extends.
Qed.

Lemma parse_expression_extends ts e r x :
  parse_expression ts = Some (e, r) → (r = [] → stops x) →
  parse_expression (ts ++ x) = Some (e, r ++ x).
Proof.
  unfold parse_expression. intros H Hx.
  apply (parse_expr_refines (S (length ts))); [rewrite length_app; lia|].
  by apply parse_expr_extends.
Qed.

(** *** The statement parser *)

Lemma parse_expression_nil : parse_expression [] = None.
Proof. done. Qed.

Lemma parse_expression_else r : parse_expression (TElse :: r) = None.
Proof. done. Qed.

Lemma parse_stmt_nil f : parse_stmt f [] = None.
Proof. by destruct f. Qed.

Lemma parse_stmt_else f r : parse_stmt f (TElse :: r) = None.
Proof. by destruct f. Qed.

Lemma parse_block_items_refines (ps ps' : parser jstmt) n n' ts res :
  refines ps ps' → (n ≤ n')%nat →
  parse_block_items ps n ts = Some res → parse_block_items ps' n' ts = Some res.
Proof.
  intros H. revert n' ts res. induction n as [|n IH]; intros n' ts res Hn.
  - destruct ts as [|[] ts]; simpl; try done. by destruct n'.
  - destruct n' as [|n']; [lia|].
    assert (G : ∀ ts res,
      match ps ts with
      | Some (s, r) =>
          match parse_block_items ps n r with
          | Some (ss, r') => Some (s :: ss, r')
          | None => None
          end
      | None => None
      end = Some res →
      match ps' ts with
      | Some (s, r) =>
          match parse_block_items ps' n' r with
          | Some (ss, r') => Some (s :: ss, r')
          | None => None
          end
      | None => None
      end = Some res).
    { clear ts res. intros ts res.
      destruct (ps ts) as [[s r]|] eqn:E; [|done]. rewrite (H _ _ E).
      destruct (parse_block_items ps n r) as [[ss r']|] eqn:E2; [|done].
      rewrite (IH n' _ _ ltac:(lia) E2). done. }
    destruct ts as [|[] ts]; simpl; try apply G. done.
Qed.

Lemma parse_stmt_refines f f' : (f ≤ f')%nat → refines (parse_stmt f) (parse_stmt f').
Proof.
  revert f'. induction f as [|f IH]; intros f' Hf; [done|].
  destruct f' as [|f']; [lia|].
  assert (f ≤ f')%nat as Hle by lia. specialize (IH f' Hle).
  intros ts res.
  destruct ts as [|t ts]; [done|].
  destruct t; simpl; try done.
  - (* if *)
    destruct ts as [|[] ts]; try done.
    destruct (parse_expression ts) as [[c [|[] r1]]|]; try done.
    destruct (parse_stmt f r1) as [[s1 r2]|] eqn:E1; [|done].
    rewrite (IH _ _ E1).
    destruct r2 as [|[] r2]; try done.
    destruct (parse_stmt f r2) as [[s2 r3]|] eqn:E2; [|done].
    by rewrite (IH _ _ E2).
  - (* block *)
    destruct (parse_block_items (parse_stmt f) f ts) as [[ss r']|] eqn:E; [|done].
    by rewrite (parse_block_items_refines _ _ _ f' _ _ IH Hle E).
Qed.

Lemma parse_block_items_extends (ps : parser jstmt) n :
  stmt_extends_ok ps →
  ∀ ts ss r x, parse_block_items ps n ts = Some (ss, r) →
    parse_block_items ps n (ts ++ x) = Some (ss, r ++ x).
Proof.
  intros [H0 H]. induction n as [|n IH]; intros ts ss r x.
  - destruct ts as [|[] ts]; simpl; try done. by intros [= <- <-].
  - assert (G : ∀ ts, ts ≠ [] →
      match ps ts with
      | Some (s, r) =>
          match parse_block_items ps n r with
          | Some (ss, r') => Some (s :: ss, r')
          | None => None
          end
      | None => None
      end = Some (ss, r) →
      match ps (ts ++ x) with
      | Some (s, r) =>
          match parse_block_items ps n r with
          | Some (ss, r') => Some (s :: ss, r')
          | None => None
          end
      | None => None
      end = Some (ss, r ++ x)).
    { clear ts. intros ts Hts.
      destruct (ps ts) as [[s r1]|] eqn:E; [|done].
      destruct (parse_block_items ps n r1) as [[ss' r']|] eqn:E2; [|done].
      intros [= <- <-].
      assert (r1 ≠ []) as Hr1.
      { intros ->. destruct n; simpl in E2; [done|]. by rewrite H0 in E2. }
      rewrite (H _ _ _ x E); [|done].
      by rewrite (IH _ _ _ x E2). }
    destruct ts as [|t ts]; simpl.
    + by rewrite H0.
    + destruct t; try (apply (G (_ :: ts)); done).
      by intros [= <- <-].
Qed.

Lemma parse_stmt_extends f : stmt_extends_ok (parse_stmt f).
Proof.
  induction f as [|f [IH0 IH]]; [done|].
  split; [done|].
  intros ts s r x.
  assert (G : ∀ ts, parse_expression_statement ts = Some (s, r) →
                    parse_expression_statement (ts ++ x) = Some (s, r ++ x)).
  { clear ts. intros ts. unfold parse_expression_statement.
    destruct (parse_expression ts) as [[e r1]|] eqn:E; [|done].
    destruct r1 as [|t r1]; [by destruct e|].
    rewrite (parse_expression_extends _ _ _ x E); [|done]. simpl.
    destruct t; try (by destruct e).
    - by destruct e; intros [= <- <-].
    - destruct e; try done.
      destruct (parse_expression r1) as [[v r2]|] eqn:E2; [|done].
      destruct r2 as [|t2 r2]; [done|].
      rewrite (parse_expression_extends _ _ _ x E2); [|done]. simpl.
      destruct t2; try done. by intros [= <- <-]. }
  destruct ts as [|t ts]; [done|].
  destruct t;
    try (cbn [parse_stmt app]; intros Hr _; revert Hr; apply (G (_ :: ts))).
  - (* if *)
    simpl. destruct ts as [|t ts]; [done|].
    destruct t; try done. simpl.
    destruct (parse_expression ts) as [[c r0]|] eqn:E; [|done].
    destruct r0 as [|t0 r0]; [done|].
    rewrite (parse_expression_extends _ _ _ x E); [|done]. simpl.
    destruct t0; try done.
    destruct (parse_stmt f r0) as [[s1 r2]|] eqn:E1; [|done].
    intros Hr Hx.
    destruct r2 as [|t2 r2].
    + injection Hr as <- <-. rewrite (IH _ _ _ x E1 Hx). simpl.
      specialize (Hx eq_refl). destruct x as [|[] x]; simpl in *; done.
    + rewrite (IH _ _ _ x E1); [|done]. simpl.
      destruct t2; try (by injection Hr as <- <-).
      destruct (parse_stmt f r2) as [[s2 r3]|] eqn:E2; [|done].
      injection Hr as <- <-.
      by rewrite (IH _ _ _ x E2).
  - (* block *)
    simpl.
    destruct (parse_block_items (parse_stmt f) f ts) as [[ss r']|] eqn:E; [|done].
    intros [= <- <-] _.
    by rewrite (parse_block_items_extends _ _ (conj IH0 IH) _ _ _ x E).
  - (* ; *)
    simpl. by intros [= <- <-] _.
Qed.

Lemma parse_stmts_refines (ps ps' : parser jstmt) n n' ts res :
  refines ps ps' → (n ≤ n')%nat →
  parse_stmts ps n ts = Some res → parse_stmts ps' n' ts = Some res.
Proof.
  intros H. revert n' ts res. induction n as [|n IH]; intros n' ts res Hn.
  - destruct ts; simpl; [by destruct n'|done].
  - destruct n' as [|n']; [lia|].
    destruct ts as [|t ts]; [done|]. simpl.
    destruct (ps (t :: ts)) as [[s r]|] eqn:E; [|done]. rewrite (H _ _ E).
    destruct (parse_stmts ps n r) as [ss|] eqn:E2; [|done].
    by rewrite (IH n' _ _ ltac:(lia) E2).
Qed.

(** Two statement lists that parse on their own parse as their
    concatenation when written one after the other. *)
Lemma parse_stmts_app (ps : parser jstmt) n1 n2 t1 t2 s1 s2 :
  stmt_extends_ok ps → (∀ r, ps (TElse :: r) = None) →
  parse_stmts ps n1 t1 = Some s1 → parse_stmts ps n2 t2 = Some s2 →
  parse_stmts ps (n1 + n2) (t1 ++ t2) = Some (s1 ++ s2).
Proof.
  intros [H0 H] Helse. revert t1 s1. induction n1 as [|n1 IH]; intros t1 s1 P1 P2.
  - destruct t1; [|done]. injection P1 as <-. done.
  - destruct t1 as [|t t1].
    + injection P1 as <-. rewrite !app_nil_l.
      apply (parse_stmts_refines ps ps n2); [by unfold refines|lia|done].
    + simpl in P1.
      destruct (ps (t :: t1)) as [[s r]|] eqn:E; [|done].
      destruct (parse_stmts ps n1 r) as [ss|] eqn:E2; [|done].
      injection P1 as <-.
      change (parse_stmts ps (S (n1 + n2)) ((t :: t1) ++ t2) = Some ((s :: ss) ++ s2)).
      cbn [parse_stmts app].
      change (t :: t1 ++ t2) with ((t :: t1) ++ t2).
      rewrite (H _ _ _ t2 E).
      * by rewrite (IH _ _ E2 P2).
      * intros _. destruct t2 as [|[] t2]; try done.
        destruct n2; simpl in P2; [done|]. by rewrite Helse in P2.
Qed.

Lemma parse_program_app t1 t2 p1 p2 :
  parse_program t1 = Some p1 → parse_program t2 = Some p2 →
  parse_program (t1 ++ t2) = Some (p1 ++ p2).
Proof.
  unfold parse_program. intros P1 P2. rewrite length_app.
  apply parse_stmts_app.
  - apply parse_stmt_extends.
  - intros r. apply parse_stmt_else.
  - eapply parse_stmts_refines; [|reflexivity|exact P1].
    apply parse_stmt_refines. lia.
  - eapply parse_stmts_refines; [|reflexivity|exact P2].
    apply parse_stmt_refines. lia.
Qed.

Lemma exec_stmts_app p1 p2 r :
  exec_stmts (p1 ++ p2) r = and_then (exec_stmts p1 r) (exec_stmts p2).
Proof.
  revert r. induction p1 as [|s p1 IH]; intros r; simpl; [done|].
  destruct (exec_stmt s r); simpl; [apply IH|done].
Qed.

(** *** Tokenizing register references *)

Lemma append_cons c (s t : string) : String c s +:+ t = String c (s +:+ t).
Proof. reflexivity. Qed.

Lemma append_nil_r (s : string) : s +:+ "" = s.
Proof. induction s as [|c s IH]; [done|]. by rewrite append_cons, IH. Qed.

Lemma append_assoc (a b c : string) : (a +:+ b) +:+ c = a +:+ (b +:+ c).
Proof. induction a as [|x a IH]; [done|]. by rewrite !append_cons, IH. Qed.

Lemma lex_chars_app a : ∀ st b,
  lex_chars st (a +:+ b) =
  match lex_chars st a with
  | Some (t1, st1) =>
      match lex_chars st1 b with
      | Some (t2, st2) => Some (t1 ++ t2, st2)
      | None => None
      end
  | None => None
  end.
Proof.
  induction a as [|c a IH]; intros st b; [|rewrite append_cons]; simpl.
  - change ("" +:+ b) with b. by destruct (lex_chars st b) as [[]|].
  - destruct (lex_step st c) as [[st' out]|]; [|done].
    rewrite IH. destruct (lex_chars st' a) as [[t1 st1]|]; [|done].
    destruct (lex_chars st1 b) as [[t2 st2]|]; [|done].
    by rewrite app_assoc.
Qed.

Lemma is_digit_cases c :
  is_digit c = true →
  c ∈ ["0"; "1"; "2"; "3"; "4"; "5"; "6"; "7"; "8"; "9"]%char.
Proof.
  destruct c as [[] [] [] [] [] [] [] []]; vm_compute; intros H; try discriminate H;
    repeat first [apply list_elem_of_here | apply list_elem_of_further].
Qed.

Lemma all_digits_uint ds :
  string_forall is_digit ds = true →
  leading_digits ds = ds ∧ ∃ u, NilEmpty.uint_of_string ds = Some u.
Proof.
  induction ds as [|c ds IH]; simpl; [eauto|].
  intros H. apply andb_prop in H as [Hc Hds].
  destruct (IH Hds) as [-> [u Hu]]. rewrite Hc. split; [done|]. rewrite Hu.
  apply is_digit_cases in Hc.
  repeat (apply elem_of_cons in Hc as [->|Hc]; [simpl; eauto|]).
  by apply elem_of_nil in Hc.
Qed.

Lemma lex_chars_cons st c r :
  lex_chars st (String c r) =
  match lex_step st c with
  | Some (st', out) =>
      match lex_chars st' r with
      | Some (ts, st'') => Some (out ++ ts, st'')
      | None => None
      end
  | None => None
  end.
Proof. reflexivity. Qed.

Lemma lex_step_digit acc c :
  is_digit c = true → lex_step (LNumber acc) c = Some (LNumber (acc +:+ String c ""), []).
Proof. intros H. unfold lex_step. by rewrite H. Qed.

Lemma lex_digits u : ∀ acc,
  lex_chars (LNumber acc) (NilEmpty.string_of_uint u)
  = Some ([], LNumber (acc +:+ NilEmpty.string_of_uint u)).
Proof.
  induction u as [|u IH|u IH|u IH|u IH|u IH|u IH|u IH|u IH|u IH|u IH]; intros acc;
    [simpl; by rewrite append_nil_r|..];
    cbn [NilEmpty.string_of_uint];
    rewrite lex_chars_cons, lex_step_digit by done;
    rewrite IH, append_assoc; done.
Qed.

Lemma to_uint_normal n : N.to_uint n = Decimal.unorm (N.to_uint n).
Proof. rewrite <- (Unsigned.to_of (N.to_uint n)). by rewrite Unsigned.of_to. Qed.

Lemma to_uint_not_nil n : N.to_uint n ≠ Decimal.Nil.
Proof. rewrite to_uint_normal. apply unorm_nonnil. Qed.

Lemma to_uint_no_leading_zero n u : N.to_uint n = Decimal.D0 u → u = Decimal.Nil.
Proof.
  intros H. pose proof (to_uint_normal n) as Hn. rewrite H in Hn.
  unfold Decimal.unorm in Hn.
  destruct (Decimal.nzhead (Decimal.D0 u)) eqn:E;
    try (injection Hn as ->; done); try discriminate Hn.
  exfalso. injection Hn as ->. by apply nzhead_nonzero in E.
Qed.

Lemma number_token_printed n :
  number_token (NilEmpty.string_of_uint (N.to_uint n)) = Some (TNum n).
Proof.
  unfold number_token.
  assert (NilEmpty.uint_of_string (NilEmpty.string_of_uint (N.to_uint n)) = Some (N.to_uint n))
    as Hu by apply NilEmpty.usu.
  rewrite Hu, Unsigned.of_to.
  destruct (N.to_uint n) as [|u|u|u|u|u|u|u|u|u|u] eqn:E; try done.
  apply to_uint_no_leading_zero in E as ->. done.
Qed.

Lemma number_toString_nonneg k :
  0 ≤ k → number_toString (Int k) = NilEmpty.string_of_uint (N.to_uint (Z.to_N k)).
Proof. intros H. by destruct k. Qed.

Lemma lex_start_digit c :
  is_digit c = true → lex_step LStart c = Some (LNumber (String c ""), []).
Proof.
  intros H. apply is_digit_cases in H.
  repeat (apply elem_of_cons in H as [->|H]; [done|]).
  by apply elem_of_nil in H.
Qed.

Lemma lex_start_digit_string u :
  u ≠ Decimal.Nil →
  lex_chars LStart (NilEmpty.string_of_uint u)
  = Some ([], LNumber (NilEmpty.string_of_uint u)).
Proof.
  intros Hu. destruct u; [done|..];
    cbn [NilEmpty.string_of_uint];
    rewrite lex_chars_cons, lex_start_digit by done;
    by rewrite lex_digits.
Qed.

Lemma lex_close_bracket acc :
  lex_step (LNumber acc) "]" =
  match number_token acc with
  | Some t => Some (LStart, [t; TRBrack])
  | None => None
  end.
Proof. cbn. by destruct (number_token acc). Qed.

(** The printed offset, followed by the closing bracket. *)
Lemma lex_offset k :
  -1 ≤ k →
  lex_chars LStart (number_toString (Int k) +:+ "]") = Some (key_tokens k ++ [TRBrack], LStart).
Proof.
  intros Hk. destruct (decide (k = -1)) as [->|Hne]; [by vm_compute|].
  rewrite number_toString_nonneg by lia.
  rewrite lex_chars_app, lex_start_digit_string by apply to_uint_not_nil.
  cbn [lex_chars]. rewrite lex_close_bracket, number_token_printed.
  unfold key_tokens. replace (k <? 0) with false by (symmetry; apply Z.ltb_ge; lia).
  done.
Qed.

Lemma lex_register_head ls b :
  lex_ready ls →
  lex_chars ls ("this.#" +:+ bank_letter b +:+ "[") =
  Some (owed ls ++ [TThis; TDot; TPriv b; TLBrack], LStart).
Proof. intros [-> | [-> | ->]]; destruct b; by vm_compute. Qed.

Lemma regex_shape instr :
  validOperandsRegex instr = true →
  ∃ b ds n, instr = bank_letter b +:+ ds ∧ parseInt ds = Int (Z.of_N n) ∧
            operand_target instr = Some (b, Z.of_N n - 1) ∧
            first_char_text instr = bank_letter b ∧ slice1 instr = ds.
Proof.
  unfold validOperandsRegex. destruct instr as [|c ds]; [done|].
  intros H. apply andb_prop in H as [H Hd]. apply andb_prop in H as [Hc Hne].
  destruct (all_digits_uint ds Hd) as [Hl [u Hu]].
  assert (parseInt ds = Int (Z.of_N (N.of_uint u))) as Hp.
  { unfold parseInt. rewrite Hl. destruct ds; [done|]. by rewrite Hu. }
  assert (∃ b, String c "" = bank_letter b ∧ bank_of_letter c = Some b) as (b & Hb & Hb').
  { unfold includes, validOperands in Hc. simpl in Hc.
    destruct (Ascii.eqb_spec c "A") as [->|_]; [by exists BA|].
    destruct (Ascii.eqb_spec c "E") as [->|_]; [by exists BE|].
    destruct (Ascii.eqb_spec c "M") as [->|_]; [by exists BM|].
    done. }
  exists b, ds, (N.of_uint u). repeat split; try done.
  - change (String c ds) with (String c "" +:+ ds). by rewrite Hb.
  - unfold operand_target. by rewrite Hb', Hp.
Qed.

(** A register reference is read back as the tokens of its bank and offset. *)
Lemma lex_register ls instr :
  lex_ready ls → validOperandsRegex instr = true →
  ∃ b k, operand_target instr = Some (b, k) ∧ -1 ≤ k ∧
    lex_chars ls (register_text instr) = Some (owed ls ++ register_tokens b k, LStart).
Proof.
  intros Hls Hre. destruct (regex_shape _ Hre) as (b & ds & n & -> & Hp & Ht & Hf & Hs).
  exists b, (Z.of_N n - 1). split; [done|]. split; [lia|].
  unfold register_text. rewrite Hf, Hs, Hp. cbn [num_sub].
  replace ("this.#" +:+ bank_letter b +:+ "[" +:+ number_toString (Int (Z.of_N n - 1)) +:+ "]")
    with (("this.#" +:+ bank_letter b +:+ "[") +:+ (number_toString (Int (Z.of_N n - 1)) +:+ "]"))
    by (by rewrite !append_assoc).
  rewrite lex_chars_app, lex_register_head by done.
  rewrite lex_offset by lia.
  unfold register_tokens. by rewrite <- !app_assoc.
Qed.

Lemma uint_of_digits ds :
  string_forall is_digit ds = true →
  ∃ u, NilEmpty.uint_of_string ds = Some u ∧
       (∀ acc, Z.pos (Pos.of_uint_acc u acc) = decimal_value_from (Z.pos acc) ds) ∧
       Z.of_N (Pos.of_uint u) = decimal_value_from 0 ds.
Proof.
  induction ds as [|c ds IH]; [by exists Decimal.Nil|].
  cbn [string_forall]. intros H. apply andb_prop in H as [Hc Hds].
  destruct (IH Hds) as (u & Hu & Ha & Hb).
  cbn [NilEmpty.uint_of_string decimal_value_from]. rewrite Hu.
  apply is_digit_cases in Hc.
  repeat (apply elem_of_cons in Hc as [->|Hc]);
    [..|by apply elem_of_nil in Hc];
    match goal with |- context [digit_value ?c] =>
      let v := eval vm_compute in (digit_value c) in change (digit_value c) with v end;
    (eexists; split; [reflexivity|]; split;
      [intros acc; cbn [Pos.of_uint_acc]; rewrite Ha; f_equal; lia
      |cbn [Pos.of_uint Z.of_N]; rewrite ?Ha, ?Hb; reflexivity]).
Qed.

Lemma parseInt_digits ds :
  ds ≠ "" → string_forall is_digit ds = true → parseInt ds = Int (decimal_value ds).
Proof.
  intros Hne Hd. destruct (all_digits_uint ds Hd) as [Hl _].
  destruct (uint_of_digits ds Hd) as (u & Hu & _ & Hb).
  unfold parseInt. rewrite Hl. destruct ds; [done|]. rewrite Hu.
  unfold decimal_value. by rewrite <- Hb.
Qed.

Lemma decimal_value_from_nonneg ds : ∀ acc,
  string_forall is_digit ds = true → 0 ≤ acc → 0 ≤ decimal_value_from acc ds.
Proof.
  induction ds as [|c ds IH]; intros acc H Hacc; [done|].
  cbn [string_forall] in H. apply andb_prop in H as [Hc Hds].
  cbn [decimal_value_from]. apply IH; [done|].
  apply is_digit_cases in Hc.
  repeat (apply elem_of_cons in Hc as [->|Hc]); [..|by apply elem_of_nil in Hc];
    match goal with |- context [digit_value ?c] =>
      let v := eval vm_compute in (digit_value c) in change (digit_value c) with v end;
    lia.
Qed.

(** An operand is a bank letter and the digits of its index. *)
Lemma operand_shape part :
  validOperandsRegex part = true →
  ∃ b, part = bank_letter b +:+ slice1 part ∧
       slice1 part ≠ "" ∧ string_forall is_digit (slice1 part) = true ∧
       0 ≤ operand_index part ∧
       parseInt (slice1 part) = Int (operand_index part) ∧
       operand_target part = Some (b, operand_index part - 1).
Proof.
  intros H. destruct (regex_shape _ H) as (b & ds & n & E & Hp & Ht & _ & Hs).
  unfold validOperandsRegex in H. destruct part as [|c r]; [done|].
  apply andb_prop in H as [H Hd]. apply andb_prop in H as [_ Hne].
  cbn [slice1] in *. subst ds.
  assert (r ≠ "") as Hr by (intros ->; done).
  pose proof (parseInt_digits r Hr Hd) as Hp'. rewrite Hp in Hp'. injection Hp' as Hn.
  exists b. unfold operand_index. cbn [slice1]. rewrite <- Hn.
  repeat split; try done; lia.
Qed.

(** *** The compiler emits tokens *)

Lemma classify_part_commands st p :
  Forall (λ c, lexer_command c = true) (commandArray st) →
  Forall (λ c, lexer_command c = true) (commandArray (classify_part st p)).
Proof.
  intros H. unfold classify_part.
  destruct (includes validlogicalOperations p) eqn:E1;
    [apply Forall_app; split; [done|by repeat constructor]|].
  destruct (includes validInstructions p) eqn:E2;
    [apply Forall_app; split; [done|by repeat constructor]|].
  destruct (validOperandsRegex p) eqn:E3;
    [apply Forall_app; split; [done|by repeat constructor]|].
  destruct (includes validBrackets p) eqn:E4;
    [apply Forall_app; split; [done|by repeat constructor]|].
  done.
Qed.

Lemma generateCodeStructure_commands text cmds errs :
  generateCodeStructure text = (Some cmds, errs) →
  Forall (λ c, lexer_command c = true) cmds.
Proof.
  unfold generateCodeStructure.
  assert (G : ∀ parts st, Forall (λ c, lexer_command c = true) (commandArray st) →
    Forall (λ c, lexer_command c = true) (commandArray (fold_left classify_part parts st))).
  { induction parts as [|p parts IH]; intros st H; simpl; [done|].
    apply IH. by apply classify_part_commands. }
  specialize (G (codeParts text) (LexerState [] 0 false []) ltac:(constructor)).
  fold (classify_all (codeParts text)) in G.
  set (st := classify_all (codeParts text)) in *.
  assert (commandArray (check_brackets st) = commandArray st) as Hc
    by (unfold check_brackets; by destruct (negb _)).
  destruct (invalidCommand (check_brackets st)); [done|].
  intros [= <- _]. rewrite Hc. apply Forall_app. split; [done|by repeat constructor].
Qed.

Lemma append_nil_l (s : string) : "" +:+ s = s.
Proof. reflexivity. Qed.

Lemma gen_command_core st c :
  JSCode (gen_command st c) = JSCode st +:+ JSCode (gen_command (core st) c) ∧
  core (gen_command st c) = core (gen_command (core st) c).
Proof.
  destruct st as [code last new open errs].
  unfold gen_command, core, emit, gen_error, set_last, set_isNewBlock, set_openIfBlock.
  cbn [JSCode lastInstruction isNewBlock openIfBlock gen_errors].
  repeat case_match; cbn [JSCode lastInstruction isNewBlock openIfBlock gen_errors];
    rewrite ?append_nil_r, ?append_nil_l; done.
Qed.

Lemma gen_run_core cmds : ∀ st,
  JSCode (gen_run st cmds) = JSCode st +:+ JSCode (gen_run (core st) cmds) ∧
  core (gen_run st cmds) = core (gen_run (core st) cmds).
Proof.
  induction cmds as [|c cmds IH]; intros st.
  - simpl. by rewrite append_nil_r.
  - change (gen_run st (c :: cmds)) with (gen_run (gen_command st c) cmds).
    change (gen_run (core st) (c :: cmds)) with (gen_run (gen_command (core st) c) cmds).
    destruct (gen_command_core st c) as [E1 E2].
    destruct (IH (gen_command st c)) as [I1 I2].
    destruct (IH (gen_command (core st) c)) as [J1 J2].
    rewrite I1, I2, J1, J2, E1, E2, append_assoc. done.
Qed.

Lemma gen_run_app st c1 c2 : gen_run st (c1 ++ c2) = gen_run (gen_run st c1) c2.
Proof. apply fold_left_app. Qed.

Lemma includes_elem l s : includes l s = true → s ∈ l.
Proof.
  unfold includes. induction l as [|a l IH]; simpl; [done|].
  destruct (String.eqb_spec s a) as [->|_]; simpl; [left|right; auto].
Qed.

(** A register reference between two fixed pieces of text. *)
Lemma lex_wrapped ls instr b k pre post tp tq ls' :
  lex_ready ls → validOperandsRegex instr = true → operand_target instr = Some (b, k) →
  lex_chars ls pre = Some (owed ls ++ tp, LStart) →
  lex_chars LStart post = Some (tq, ls') →
  lex_chars ls (pre +:+ register_text instr +:+ post)
  = Some (owed ls ++ tp ++ register_tokens b k ++ tq, ls').
Proof.
  intros Hls Hre Ht Hpre Hpost.
  destruct (lex_register LStart instr (or_introl eq_refl) Hre) as (b' & k' & Ht' & _ & Hreg).
  rewrite Ht in Ht'. injection Ht' as <- <-.
  rewrite lex_chars_app, Hpre, lex_chars_app, Hreg, Hpost. simpl.
  by rewrite <- !app_assoc.
Qed.

Lemma lex_closing ls ins tgt bn b k errs :
  lex_ready ls → ins ∈ validInstructions →
  validOperandsRegex tgt = true → operand_target tgt = Some (b, k) →
  ∃ txt, gen_command (GenState "" ins false true errs) (Command 3 tgt bn)
         = GenState txt "" true false errs ∧
         lex_chars ls txt = Some (owed ls ++ closing_tokens ins b k, LStart).
Proof.
  intros Hls Hins Hre Ht.
  assert (H1 : lex_chars ls ") { " = Some (owed ls ++ [TRParen; TLBrace], LStart))
    by (destruct Hls as [-> | [-> | ->]]; by vm_compute).
  repeat (apply elem_of_cons in Hins as [->|Hins]); [| | |by apply elem_of_nil in Hins].
  - (* = *)
    eexists. split; [reflexivity|]. cbn [instruction]. rewrite append_nil_l.
    replace (") { " +:+ register_text tgt +:+ " = true; } else { " +:+ register_text tgt +:+ " = false; }
")
      with ((") { " +:+ register_text tgt +:+ " = true; } else { ") +:+ register_text tgt +:+ " = false; }
") by (by rewrite !append_assoc).
    rewrite (lex_wrapped ls tgt b k _ _ ([TRParen; TLBrace] ++ set_tokens b k TTrue ++ [TRBrace; TElse; TLBrace]) [TEq; TFalse; TSemi; TRBrace] LStart Hls Hre Ht); [| |by vm_compute].
    + unfold closing_tokens, set_tokens. simpl. by rewrite <- !app_assoc.
    + rewrite (lex_wrapped ls tgt b k _ _ [TRParen; TLBrace] [TEq; TTrue; TSemi; TRBrace; TElse; TLBrace] LStart Hls Hre Ht H1); [|by vm_compute].
      unfold set_tokens. simpl. by rewrite <- !app_assoc.
  - (* S *)
    eexists. split; [reflexivity|]. cbn [instruction]. rewrite append_nil_l.
    rewrite (lex_wrapped ls tgt b k _ _ [TRParen; TLBrace] [TEq; TTrue; TSemi; TRBrace] LStart Hls Hre Ht H1); [|by vm_compute].
    unfold closing_tokens, set_tokens. simpl. by rewrite <- !app_assoc.
  - (* R *)
    eexists. split; [reflexivity|]. cbn [instruction]. rewrite append_nil_l.
    rewrite (lex_wrapped ls tgt b k _ _ [TRParen; TLBrace] [TEq; TFalse; TSemi; TRBrace] LStart Hls Hre Ht H1); [|by vm_compute].
    unfold closing_tokens, set_tokens. simpl. by rewrite <- !app_assoc.
Qed.

Lemma lex_end_of_network ls :
  lex_ready ls →
  lex_chars ls "; // End of Network
" = Some (owed ls ++ [TSemi], LStart).
Proof. intros [-> | [-> | ->]]; by vm_compute. Qed.

(** Closes a goal about a fixed piece of text by running the tokenizer. *)
Ltac lex_fixed Hls :=
  destruct Hls as [-> | [-> | ->]]; vm_compute; eexists _, _; (split; [reflexivity|]);
  (split; [first [by left | by (right; left) | by (right; right)]|]);
  first [by left | by intros ?].

(** Closes a goal about a command that emits nothing. *)
Ltac lex_nothing Hls ls :=
  exists (@nil jstok), ls; (split; [reflexivity|]); (split; [exact Hls|]);
  intros Hn; vm_compute in Hn; first [discriminate Hn | by right].

(** Whatever one lexer command makes the compiler emit, the tokenizer reads
    it, and is between tokens or just behind a [!] or [!==] afterwards.  When
    the compiler is between statements afterwards, the tokenizer is between
    tokens, or the command emitted nothing from between statements. *)
Lemma fragment_lexes st c ls :
  lexer_command c = true → lex_ready ls →
  ∃ ts ls', lex_chars ls (JSCode (gen_command (core st) c)) = Some (ts, ls') ∧
    lex_ready ls' ∧
    (isNewBlock (gen_command (core st) c) = true →
     ls' = LStart ∨ (isNewBlock st = true ∧ ls' = ls)).
Proof.
  intros Hc Hls. destruct st as [code last new open errs], c as [ty ins bn].
  unfold lexer_command, core in *. cbn [type instruction lastInstruction isNewBlock openIfBlock] in *.
  destruct ty as [|[|[|[|[|[|[|ty]]]]]]]; try done.
  - (* logical operation *)
    apply includes_elem in Hc.
    repeat (apply elem_of_cons in Hc as [->|Hc]); [..|by apply elem_of_nil in Hc];
      destruct new; lex_fixed Hls.
  - (* instruction *)
    apply includes_elem in Hc.
    repeat (apply elem_of_cons in Hc as [->|Hc]); [..|by apply elem_of_nil in Hc];
      destruct new; lex_nothing Hls ls.
  - (* operand *)
    destruct (lex_register ls ins Hls Hc) as (b & k & Ht & Hk & Hreg).
    unfold gen_command.
    cbn [type instruction lastInstruction isNewBlock openIfBlock Nat.eqb].
    destruct new; [lex_nothing Hls ls|].
    assert (H1 : lex_chars ls ") { " = Some (owed ls ++ [TRParen; TLBrace], LStart))
      by (destruct Hls as [-> | [-> | ->]]; by vm_compute).
    destruct open.
    + destruct (String.eqb last "S"); [|destruct (String.eqb last "R");
        [|destruct (String.eqb last "=")]];
        cbn [JSCode emit set_isNewBlock set_openIfBlock set_last lastInstruction isNewBlock
             openIfBlock gen_errors]; rewrite append_nil_l.
      * erewrite (lex_wrapped ls ins b k _ _ _ _ LStart Hls Hc Ht H1); [|by vm_compute].
        eexists _, _. split; [done|]. split; by left.
      * erewrite (lex_wrapped ls ins b k _ _ _ _ LStart Hls Hc Ht H1); [|by vm_compute].
        eexists _, _. split; [done|]. split; by left.
      * replace (") { " +:+ register_text ins +:+ " = true; } else { " +:+ register_text ins +:+ " = false; }
")
          with ((") { " +:+ register_text ins +:+ " = true; } else { ") +:+ register_text ins +:+ " = false; }
") by (by rewrite !append_assoc).
        erewrite (lex_wrapped ls ins b k _ _ _ _ LStart Hls Hc Ht); [| |by vm_compute].
        -- eexists _, _. split; [done|]. split; by left.
        -- erewrite (lex_wrapped ls ins b k _ _ _ _ LStart Hls Hc Ht H1); [|by vm_compute].
           done.
      * rewrite Hreg. eexists _, _. split; [done|]. split; by left.
    + destruct (String.eqb last "S"); [|destruct (String.eqb last "R")];
        cbn [JSCode emit gen_error set_isNewBlock set_openIfBlock set_last lastInstruction
             isNewBlock openIfBlock gen_errors]; rewrite ?append_nil_l.
      * rewrite lex_chars_app, Hreg.
        assert (lex_chars LStart " = true; " = Some ([TEq; TTrue; TSemi], LStart)) as ->
          by (by vm_compute).
        eexists _, _. split; [done|]. split; by left.
      * rewrite lex_chars_app, Hreg.
        assert (lex_chars LStart " = false; " = Some ([TEq; TFalse; TSemi], LStart)) as ->
          by (by vm_compute).
        eexists _, _. split; [done|]. split; by left.
      * exists [], ls. split; [done|]. split; [done|]. by intros ?.
  - (* bracket *)
    apply includes_elem in Hc.
    repeat (apply elem_of_cons in Hc as [->|Hc]); [..|by apply elem_of_nil in Hc];
      destruct new, open; first [lex_nothing Hls ls | lex_fixed Hls].
  - (* end of network *)
    exists (owed ls ++ [TSemi]), LStart. split; [by apply lex_end_of_network|]. split; by left.
Qed.

(** The text compiled from lexer commands is within the tokenizer's
    vocabulary; and where the compiler ends between statements, the
    tokenizer ends between tokens. *)
Lemma generated_lexes cmds : ∀ st ls,
  Forall (λ c, lexer_command c = true) cmds → lex_ready ls →
  ∃ ts ls', lex_chars ls (JSCode (gen_run (core st) cmds)) = Some (ts, ls') ∧
    lex_ready ls' ∧
    ((isNewBlock st = true → ls = LStart) →
     isNewBlock (gen_run (core st) cmds) = true → ls' = LStart).
Proof.
  induction cmds as [|c cmds IH]; intros st ls Hc Hls.
  - exists [], ls. split; [done|]. split; [done|]. intros H Hn. by apply H.
  - apply Forall_cons in Hc as [Hc Hcs].
    change (gen_run (core st) (c :: cmds)) with (gen_run (gen_command (core st) c) cmds).
    destruct (gen_run_core cmds (gen_command (core st) c)) as [-> Hcore].
    destruct (fragment_lexes st c ls Hc Hls) as (t1 & ls1 & E1 & R1 & N1).
    destruct (IH (gen_command (core st) c) ls1 Hcs R1) as (t2 & ls2 & E2 & R2 & N2).
    rewrite lex_chars_app, E1, E2. eexists _, _. split; [done|]. split; [done|].
    intros Hst Hn. apply N2.
    + intros Hn1. destruct (N1 Hn1) as [->|[Hs ->]]; [done|by apply Hst].
    + apply (f_equal isNewBlock) in Hcore. cbn [core isNewBlock] in Hcore.
      by rewrite <- Hcore.
Qed.

Lemma lex_end_ready ls : lex_ready ls → lex_end ls = Some (owed ls).
Proof. by intros [-> | [-> | ->]]. Qed.

Lemma tokenize_generated cmds :
  Forall (λ c, lexer_command c = true) cmds →
  ∃ ts, tokenize (generateJSCode cmds).1 = Some ts.
Proof.
  intros Hc. unfold tokenize, generateJSCode. cbn [fst].
  destruct (generated_lexes cmds gen_init LStart Hc (or_introl eq_refl)) as (ts & ls & E & R & _).
  change (core gen_init) with gen_init in E. rewrite E, (lex_end_ready _ R). eauto.
Qed.

(** *** The statement that closes a condition *)

Lemma register_tokens_head b k :
  register_tokens b k = TThis :: TDot :: TPriv b :: TLBrack :: key_tokens k ++ [TRBrack].
Proof. reflexivity. Qed.

Lemma parse_register_tokens b k :
  parse_expression (register_tokens b k) = Some (EReg b k, []).
Proof.
  unfold register_tokens, key_tokens. destruct (k <? 0) eqn:E.
  - apply Z.ltb_lt in E. cbn. do 3 f_equal. lia.
  - apply Z.ltb_ge in E. cbn. do 3 f_equal. lia.
Qed.

Lemma parse_stmt_register f b k Z :
  parse_stmt (S f) (register_tokens b k ++ Z)
  = parse_expression_statement (register_tokens b k ++ Z).
Proof. reflexivity. Qed.

Lemma parse_block_items_register ps n b k Z :
  parse_block_items ps (S n) (register_tokens b k ++ Z) =
  match ps (register_tokens b k ++ Z) with
  | Some (s, r) =>
      match parse_block_items ps n r with
      | Some (ss, r') => Some (s :: ss, r')
      | None => None
      end
  | None => None
  end.
Proof. reflexivity. Qed.

Lemma parse_set_statement f b k t v Y :
  bool_of_token t = Some v →
  parse_stmt (S f) (set_tokens b k t ++ Y) = Some (SAssign b k (EBool v), Y).
Proof.
  intros Ht. unfold set_tokens. rewrite <- app_assoc. cbn [app].
  rewrite parse_stmt_register. unfold parse_expression_statement.
  rewrite (parse_expression_extends _ _ _ (TEq :: t :: TSemi :: Y) (parse_register_tokens b k))
    by done.
  cbn [app].
  destruct t; try done; injection Ht as <-.
  - change (TTrue :: TSemi :: Y) with ([TTrue] ++ TSemi :: Y).
    by rewrite (parse_expression_extends [TTrue] (EBool true) [] (TSemi :: Y)).
  - change (TFalse :: TSemi :: Y) with ([TFalse] ++ TSemi :: Y).
    by rewrite (parse_expression_extends [TFalse] (EBool false) [] (TSemi :: Y)).
Qed.

Lemma parse_set_block f b k t v Y :
  bool_of_token t = Some v →
  parse_stmt (S (S f)) (TLBrace :: set_tokens b k t ++ TRBrace :: Y)
  = Some (SBlock [SAssign b k (EBool v)], Y).
Proof.
  intros Ht.
  change (parse_stmt (S (S f)) (TLBrace :: set_tokens b k t ++ TRBrace :: Y))
    with (match parse_block_items (parse_stmt (S f)) (S f) (set_tokens b k t ++ TRBrace :: Y) with
          | Some (ss, r') => Some (SBlock ss, r')
          | None => None
          end).
  assert (parse_block_items (parse_stmt (S f)) (S f) (set_tokens b k t ++ TRBrace :: Y)
          = Some ([SAssign b k (EBool v)], Y)) as ->; [|done].
  pose proof (parse_set_statement f b k t v (TRBrace :: Y) Ht) as Hs.
  unfold set_tokens in *. rewrite <- app_assoc in *.
  rewrite parse_block_items_register, Hs. by destruct f.
Qed.

Lemma parse_closed_statement f cts c ins b k Y :
  parse_expression cts = Some (c, []) → no_else Y →
  parse_stmt (S (S (S f))) (TIf :: TLParen :: cts ++ closing_tokens ins b k ++ Y)
  = Some (closed_statement ins c b k, Y).
Proof.
  intros Hc HY.
  change (parse_stmt (S (S (S f))) (TIf :: TLParen :: cts ++ closing_tokens ins b k ++ Y))
    with (match parse_expression (cts ++ closing_tokens ins b k ++ Y) with
          | Some (c, TRParen :: r1) =>
              match parse_stmt (S (S f)) r1 with
              | Some (s1, TElse :: r2) =>
                  match parse_stmt (S (S f)) r2 with
                  | Some (s2, r3) => Some (SIf c s1 (Some s2), r3)
                  | None => None
                  end
              | Some (s1, r2) => Some (SIf c s1 None, r2)
              | None => None
              end
          | _ => None
          end).
  assert (∃ rest, closing_tokens ins b k = TRParen :: rest) as [rest Hrest].
  { unfold closing_tokens. repeat case_match; eauto. }
  rewrite (parse_expression_extends _ _ _ _ Hc); [|by rewrite Hrest].
  unfold closing_tokens, closed_statement in *. cbn [app] in *.
  destruct (String.eqb ins "S"); [|destruct (String.eqb ins "R")]; cbn [app].
  - rewrite <- !app_assoc. cbn [app].
    rewrite (parse_set_block f b k TTrue true Y eq_refl).
    by destruct Y as [|[] Y].
  - rewrite <- !app_assoc. cbn [app].
    rewrite (parse_set_block f b k TFalse false Y eq_refl).
    by destruct Y as [|[] Y].
  - rewrite <- !app_assoc. cbn [app].
    rewrite (parse_set_block f b k TTrue true _ eq_refl). cbv beta iota.
    rewrite <- !app_assoc. cbn [app].
    by rewrite (parse_set_block f b k TFalse false Y eq_refl).
Qed.

Lemma parse_closed_program cts c ins b k :
  parse_expression cts = Some (c, []) →
  parse_program ((TIf :: TLParen :: cts) ++ closing_tokens ins b k)
  = Some [closed_statement ins c b k].
Proof.
  intros Hc. unfold parse_program.
  assert (∃ rest, closing_tokens ins b k = TRParen :: TLBrace :: rest) as [rest Hrest].
  { unfold closing_tokens. repeat case_match; eauto. }
  apply (parse_stmts_refines (parse_stmt 3) _ 1).
  - apply parse_stmt_refines. rewrite Hrest, length_app. simpl. lia.
  - rewrite Hrest, length_app. simpl. lia.
  - cbn [app parse_stmts].
    rewrite <- (app_nil_r (closing_tokens ins b k)).
    by rewrite (parse_closed_statement 0 cts c ins b k [] Hc).
Qed.

Lemma exec_closed_statement ins c b k r v :
  ins ∈ validInstructions → eval_expr c r = inl v →
  exec_stmt (closed_statement ins c b k) r =
  Done (if String.eqb ins "=" then write_reg b k (VBool (truthy v)) r
        else if truthy v then write_reg b k (VBool (String.eqb ins "S")) r
        else r).
Proof.
  intros Hins Hv.
  repeat (apply elem_of_cons in Hins as [->|Hins]); [| | |by apply elem_of_nil in Hins];
    cbn; rewrite Hv; by destruct (truthy v).
Qed.

(** *** From commands to the parsed statement *)

Lemma condition_command_lexer c : condition_command c = true → lexer_command c = true.
Proof. unfold condition_command. by intros [? _]%andb_prop. Qed.

Lemma condition_keeps_open st c :
  core st = in_condition → condition_command c = true →
  core (gen_command st c) = in_condition.
Proof.
  intros Hst Hc. destruct (gen_command_core st c) as [_ ->]. rewrite Hst.
  destruct c as [ty ins bn]. unfold condition_command in Hc.
  apply andb_prop in Hc as [_ Hc]. cbn [type instruction] in Hc.
  destruct ty as [|[|[|[|[|ty]]]]]; try done;
    unfold gen_command, in_condition; cbn; repeat case_match; done.
Qed.

Lemma open_condition op cond :
  type op = 1%nat → Forall (λ c, condition_command c = true) cond →
  core (gen_run gen_init (op :: cond)) = in_condition.
Proof.
  intros Hop Hcond.
  change (gen_run gen_init (op :: cond)) with (gen_run (gen_command gen_init op) cond).
  assert (core (gen_command gen_init op) = in_condition) as H0.
  { destruct op as [ty ins bn]. cbn in Hop. subst ty.
    unfold gen_command, gen_init. cbn. by case_match. }
  revert H0. generalize (gen_command gen_init op).
  induction Hcond as [|c cond Hc _ IH]; intros st Hst; [done|].
  apply (IH (gen_command st c)). by apply condition_keeps_open.
Qed.

(** The text of a statement: its condition so far and the closing text for
    the instruction and target; the compiler is between statements
    afterwards. *)
Lemma statement_code op cond ins tgt n1 n2 b k :
  type op = 1%nat → Forall (λ c, condition_command c = true) cond →
  ins ∈ validInstructions →
  validOperandsRegex tgt = true → operand_target tgt = Some (b, k) →
  closed (statement_commands op cond ins n1 tgt n2) ∧
  ∃ txt,
    (generateJSCode (statement_commands op cond ins n1 tgt n2)).1
    = (generateJSCode (op :: cond)).1 +:+ txt ∧
    ∀ ls, lex_ready ls → lex_chars ls txt = Some (owed ls ++ closing_tokens ins b k, LStart).
Proof.
  intros Hop Hcond Hins Hre Ht.
  unfold closed, statement_commands, generateJSCode. cbn [fst].
  rewrite app_comm_cons, gen_run_app.
  destruct (gen_run_core [Command 2 ins n1; Command 3 tgt n2]
              (gen_run gen_init (op :: cond))) as [-> ->].
  rewrite (open_condition op cond Hop Hcond).
  assert (gen_command in_condition (Command 2 ins n1) = GenState "" ins false true []) as E1.
  { repeat (apply elem_of_cons in Hins as [->|Hins]); [done..|by apply elem_of_nil in Hins]. }
  destruct (lex_closing LStart ins tgt n2 b k [] (or_introl eq_refl) Hins Hre Ht)
    as (txt & E2 & _).
  cbn [gen_run fold_left]. rewrite E1, E2. split; [done|].
  exists txt. split; [done|].
  intros ls Hls.
  destruct (lex_closing ls ins tgt n2 b k [] Hls Hins Hre Ht) as (txt' & E2' & Hlex).
  rewrite E2 in E2'. by injection E2' as <-.
Qed.

Lemma statement_lexer_commands op cond ins tgt n1 n2 :
  lexer_command op = true → Forall (λ c, condition_command c = true) cond →
  ins ∈ validInstructions → validOperandsRegex tgt = true →
  Forall (λ c, lexer_command c = true) (statement_commands op cond ins n1 tgt n2).
Proof.
  intros Hop Hcond Hins Hre. unfold statement_commands.
  constructor; [done|]. apply Forall_app. split.
  - eapply Forall_impl; [exact Hcond|]. apply condition_command_lexer.
  - constructor; [|by repeat constructor].
    unfold lexer_command. cbn.
    repeat (apply elem_of_cons in Hins as [->|Hins]); [done..|by apply elem_of_nil in Hins].
Qed.

Lemma tokenize_statement op cond ins tgt n1 n2 b k ts :
  type op = 1%nat → lexer_command op = true →
  Forall (λ c, condition_command c = true) cond →
  ins ∈ validInstructions →
  validOperandsRegex tgt = true → operand_target tgt = Some (b, k) →
  tokenize (generateJSCode (op :: cond)).1 = Some ts →
  tokenize (generateJSCode (statement_commands op cond ins n1 tgt n2)).1
  = Some (ts ++ closing_tokens ins b k).
Proof.
  intros Hop Hlop Hcond Hins Hre Ht Htok.
  destruct (statement_code op cond ins tgt n1 n2 b k Hop Hcond Hins Hre Ht)
    as (_ & txt & -> & Hlex).
  assert (Forall (λ c, lexer_command c = true) (op :: cond)) as Hall.
  { constructor; [done|]. eapply Forall_impl; [exact Hcond|]. apply condition_command_lexer. }
  destruct (generated_lexes (op :: cond) gen_init LStart Hall (or_introl eq_refl))
    as (t1 & ls1 & E1 & R1 & _).
  change (core gen_init) with gen_init in E1.
  unfold tokenize, generateJSCode in *. cbn [fst] in *.
  rewrite E1, (lex_end_ready _ R1) in Htok. injection Htok as <-.
  rewrite lex_chars_app, E1, (Hlex _ R1). cbn [lex_end].
  by rewrite app_nil_r, <- !app_assoc.
Qed.

Lemma closed_networks_code c1 c2 :
  closed c1 →
  (generateJSCode (c1 ++ c2)).1 = (generateJSCode c1).1 +:+ (generateJSCode c2).1 ∧
  core (gen_run gen_init (c1 ++ c2)) = core (gen_run gen_init c2).
Proof.
  intros H. unfold generateJSCode. cbn [fst]. rewrite gen_run_app.
  destruct (gen_run_core c2 (gen_run gen_init c1)) as [-> ->]. by rewrite H.
Qed.

(** Text compiled from between statements back to between statements leaves
    the tokenizer between tokens. *)
Lemma closed_code_lexes cmds ts :
  Forall (λ c, lexer_command c = true) cmds → closed cmds →
  tokenize (generateJSCode cmds).1 = Some ts →
  lex_chars LStart (generateJSCode cmds).1 = Some (ts, LStart).
Proof.
  intros Hall Hclosed Htok.
  destruct (generated_lexes cmds gen_init LStart Hall (or_introl eq_refl))
    as (t1 & ls1 & E1 & _ & N1).
  change (core gen_init) with gen_init in E1, N1.
  assert (ls1 = LStart) as ->.
  { apply N1; [done|]. apply (f_equal isNewBlock) in Hclosed. exact Hclosed. }
  unfold tokenize, generateJSCode in *. cbn [fst] in *.
  rewrite E1 in Htok |- *. cbn in Htok. injection Htok as <-. by rewrite app_nil_r.
Qed.

(** Two pieces of a program, the first one complete: the text, the tokens
    and the statements of the whole are those of the pieces, in order. *)
Lemma segments_compose c1 c2 p1 p2 :
  closed c1 → segment_compiles c1 p1 → segment_compiles c2 p2 →
  segment_compiles (c1 ++ c2) (p1 ++ p2) ∧ (closed c2 → closed (c1 ++ c2)).
Proof.
  intros Hclosed (Hl1 & Hx1 & ts1 & Htok1 & Hp1) (Hl2 & Hx2 & ts2 & Htok2 & Hp2).
  destruct (closed_networks_code c1 c2 Hclosed) as [Hcode Hcore].
  split; [|unfold closed; by rewrite Hcore].
  split; [by apply Forall_app|]. split; [by apply Forall_app|].
  exists (ts1 ++ ts2). split; [|by apply parse_program_app].
  rewrite Hcode. pose proof (closed_code_lexes c1 ts1 Hl1 Hclosed Htok1) as Hlex.
  unfold tokenize in *. rewrite lex_chars_app, Hlex.
  destruct (lex_chars LStart (generateJSCode c2).1) as [[t2 ls2]|]; [|done].
  destruct (lex_end ls2) as [last|]; [|done]. injection Htok2 as <-.
  by rewrite app_assoc.
Qed.

Lemma segment_runs cmds prog r :
  segment_compiles cmds prog → eval_code (generateJSCode cmds).1 r = exec_stmts prog r.
Proof. intros (_ & _ & ts & Htok & Hp). unfold eval_code. by rewrite Htok, Hp. Qed.

(** *** Networks one after the other *)

Lemma generateCodeStructure_end text cmds errs :
  generateCodeStructure text = (Some cmds, errs) →
  ∃ body n, cmds = body ++ [Command 6 ";" n].
Proof.
  unfold generateCodeStructure. case_match; [done|]. intros [= <- _]. eauto.
Qed.

(** The text of a whole network leaves the tokenizer between tokens. *)
Lemma network_code_lexes text cmds errs :
  generateCodeStructure text = (Some cmds, errs) →
  ∃ ts, lex_chars LStart (generateJSCode cmds).1 = Some (ts, LStart).
Proof.
  intros H. pose proof (generateCodeStructure_commands _ _ _ H) as Hall.
  destruct (generateCodeStructure_end _ _ _ H) as (body & n & ->).
  apply Forall_app in Hall as [Hbody _].
  destruct (generated_lexes body gen_init LStart Hbody (or_introl eq_refl))
    as (t1 & ls1 & E1 & R1 & _).
  change (core gen_init) with gen_init in E1.
  unfold generateJSCode. cbn [fst]. rewrite gen_run_app.
  cbn [gen_run fold_left]. rewrite end_of_network_reports_nothing. cbn [JSCode].
  rewrite lex_chars_app, E1, (lex_end_of_network _ R1). eauto.
Qed.

Lemma networks_compose texts progs :
  Forall2 compiles_to texts progs →
  ∃ cmds ts,
    compile_networks texts = (cmds, false, []) ∧
    core (gen_run gen_init cmds) = gen_init ∧
    tokenize (generateJSCode cmds).1 = Some ts ∧
    parse_program ts = Some (concat progs) ∧
    (texts ≠ [] → cmds ≠ []).
Proof.
  induction 1 as [|t p texts progs (c1 & ts1 & _ & Hgen & _ & Hcore & Htok & Hparse) _ IH].
  - exists [], []. done.
  - destruct IH as (cmds & ts & Hcomp & Hcore' & Htok' & Hparse' & _).
    destruct (network_code_lexes _ _ _ Hgen) as (t1 & Hlex).
    destruct (closed_networks_code c1 cmds Hcore) as [Hcode Hcore2].
    exists (c1 ++ cmds), (ts1 ++ ts). repeat split.
    + cbn [compile_networks]. by rewrite Hcomp, Hgen.
    + by rewrite Hcore2.
    + rewrite Hcode. unfold tokenize in *. rewrite lex_chars_app, Hlex.
      rewrite Hlex in Htok. cbn in Htok. injection Htok as <-.
      destruct (lex_chars LStart (generateJSCode cmds).1) as [[t2 ls2]|]; [|done].
      destruct (lex_end ls2) as [last|]; [|done]. injection Htok' as <-.
      by rewrite !app_nil_r, app_assoc.
    + cbn [concat]. by apply parse_program_app.
    + intros _ Hnil. apply app_eq_nil in Hnil as [-> _].
      by destruct (generateCodeStructure_end _ _ _ Hgen) as ([|??] & ? & ?).
Qed.

Lemma exec_networks_in_order progs : ∀ o,
  and_then o (exec_stmts (concat progs)) =
  fold_left (λ acc p, and_then acc (exec_stmts p)) progs o.
Proof.
  induction progs as [|p progs IH]; intros o; cbn [concat fold_left].
  - by destruct o.
  - rewrite <- IH. destruct o as [r|x r]; cbn [and_then]; [|done].
    apply exec_stmts_app.
Qed.

(** *** The controller over any history of calls *)

Lemma start_never_arms i o f history :
  let w := (start (after i o f history)).2 in
  intervals (env w) = [] ∧ timer_tick w = w.
Proof.
  intros w.
  assert (dormant w) as (_ & H & _).
  { change w with (perform (after i o f history) CallStart).
    apply perform_dormant, after_dormant. }
  split; [done|]. unfold timer_tick. by rewrite H.
Qed.

Lemma start_transition w :
  (state (sps w) = 1 → start w = (-1, w)) ∧
  (state (sps w) ≠ 1 →
     (start w).1 = 0 ∧ state (sps (start w).2) = 1 ∧
     registers (sps (start w).2) = registers (sps w)).
Proof.
  unfold start. split; intros H.
  - by rewrite H.
  - destruct (state (sps w) =? 1) eqn:E; [by apply Z.eqb_eq in E|].
    cbn. unfold changeSPSState. cbn.
    destruct (runtimeTimer (sps w)) as [t|]; [|done].
    by destruct (negb (t =? 0)).
Qed.

Lemma dataAvailable_always_false i o f history :
  dataAvailable (after i o f history) = false.
Proof. by destruct (after_dormant i o f history) as (_ & _ & H & _). Qed.

Lemma setFlags_always_throws i o f history flags :
  let w := after i o f history in setFlags flags w = (Thrown ReferenceError, w).
Proof.
  intros w. destruct (after_dormant i o f history) as (_ & _ & _ & H).
  unfold setFlags. fold w in H. by rewrite H.
Qed.

(** *** Loads that succeed; statements without a condition *)

Lemma compile_networks_accepts texts :
  (∀ t, t ∈ texts → ¬ (invalid_token t ∨ unbalanced_brackets t)) →
  ∃ cmds, compile_networks texts = (cmds, false, []) ∧ (texts ≠ [] → cmds ≠ []).
Proof.
  induction texts as [|t texts IH]; intros H; [by exists []|].
  destruct IH as (cmds & E & _); [intros t' Ht'; apply H; by right|].
  destruct (generateCodeStructure_accepts t) as (c & Hc); [apply H; by left|].
  cbn [compile_networks]. rewrite E, Hc. eexists. split; [done|].
  intros _ Hnil. apply app_eq_nil in Hnil as [Hnil _]. by destruct c.
Qed.

(** With no lexical error in any network, and at least one network, the
    load succeeds whatever the statement compiler reports. *)
Lemma loadCode_accepts i w :
  ¬ has_lexical_error i → texts_of i ≠ [] → (loadCode i w).1.1 = 0.
Proof.
  intros Hok Hne. unfold loadCode, load_front. destruct i as [text|texts].
  - destruct (generateCodeStructure_accepts text) as (c & ->).
    { intros Hbad. apply Hok. exists text. split; [by left|done]. }
    rewrite length_app, Nat.add_1_r. cbn [Nat.ltb Nat.leb andb negb].
    by destruct (generateJSCode _).
  - destruct (compile_networks_accepts texts) as (cmds & -> & Hcmds).
    { intros t Ht Hbad. apply Hok. by exists t. }
    destruct cmds as [|c cmds]; [by destruct (Hcmds Hne)|].
    cbn [length Nat.ltb Nat.leb andb negb]. by destruct (generateJSCode _).
Qed.

(** A set or reset that opens a statement has no condition: the register is
    written on every scan. *)
Lemma bare_set_is_unconditional ins tgt n1 n2 n3 b k r :
  ins = "S" ∨ ins = "R" →
  validOperandsRegex tgt = true → operand_target tgt = Some (b, k) →
  eval_code (generateJSCode [Command 2 ins n1; Command 3 tgt n2; Command 6 ";" n3]).1 r
  = Done (write_reg b k (VBool (String.eqb ins "S")) r).
Proof.
  intros Hins Hre Ht.
  destruct (lex_register LStart tgt (or_introl eq_refl) Hre) as (b' & k' & Ht' & _ & Hlex).
  rewrite Ht in Ht'. injection Ht' as <- <-.
  change (owed LStart) with (@nil jstok) in Hlex. cbn [app] in Hlex.
  assert (∃ t, bool_of_token t = Some (String.eqb ins "S") ∧
      tokenize (generateJSCode [Command 2 ins n1; Command 3 tgt n2; Command 6 ";" n3]).1
      = Some (set_tokens b k t ++ [TSemi])) as (t & Hb & Htok).
  { destruct Hins as [-> | ->]; [exists TTrue|exists TFalse]; (split; [done|]);
      unfold tokenize, generateJSCode; cbn [fst].
    - change (JSCode (gen_run gen_init [Command 2 "S" n1; Command 3 tgt n2; Command 6 ";" n3]))
        with ((register_text tgt +:+ " = true; ") +:+ "; // End of Network
").
      rewrite append_assoc, lex_chars_app, Hlex.
      assert (lex_chars LStart (" = true; " +:+ "; // End of Network
") = Some ([TEq; TTrue; TSemi; TSemi], LStart)) as -> by (by vm_compute).
      cbn [lex_end]. unfold set_tokens. by rewrite app_nil_r, <- !app_assoc.
    - change (JSCode (gen_run gen_init [Command 2 "R" n1; Command 3 tgt n2; Command 6 ";" n3]))
        with ((register_text tgt +:+ " = false; ") +:+ "; // End of Network
").
      rewrite append_assoc, lex_chars_app, Hlex.
      assert (lex_chars LStart (" = false; " +:+ "; // End of Network
") = Some ([TEq; TFalse; TSemi; TSemi], LStart)) as -> by (by vm_compute).
      cbn [lex_end]. unfold set_tokens. by rewrite app_nil_r, <- !app_assoc. }
  unfold eval_code. rewrite Htok. unfold parse_program.
  assert (parse_stmts (parse_stmt (S (length (set_tokens b k t ++ [TSemi]))))
            (length (set_tokens b k t ++ [TSemi])) (set_tokens b k t ++ [TSemi])
          = Some [SAssign b k (EBool (String.eqb ins "S")); SEmpty]) as ->.
  { apply (parse_stmts_refines (parse_stmt 1) _ 2).
    - apply parse_stmt_refines. lia.
    - unfold set_tokens. rewrite !length_app. simpl. lia.
    - unfold set_tokens at 1. rewrite register_tokens_head. cbn [app parse_stmts].
      pose proof (parse_set_statement 0 b k t _ [TSemi] Hb) as Hs.
      unfold set_tokens in Hs. rewrite register_tokens_head in Hs. cbn [app] in Hs.
      by rewrite Hs. }
  done.
Qed.

(** *** Round brackets in what parses *)

Lemma paren_net_app a b : paren_net (a ++ b) = paren_net a + paren_net b.
Proof.
  unfold paren_net. induction a as [|t a IH]; [done|]. destruct t; cbn in *; lia.
Qed.

Ltac parens := unfold paren_net in *; cbn in *; lia.

Lemma parse_register_parens : keeps_parens parse_register.
Proof.
  intros ts a r. unfold parse_register.
  repeat (case_match; try done); intros [= <- <-]; subst; reflexivity.
Qed.

Lemma parse_primary_parens pe : keeps_parens pe → keeps_parens (parse_primary pe).
Proof.
  intros Hpe ts a r. unfold parse_primary.
  destruct ts as [|t ts]; [done|].
  destruct t; try done.
  - apply parse_register_parens.
  - by intros [= <- <-].
  - by intros [= <- <-].
  - destruct (pe ts) as [[e [|[] r']]|] eqn:E; try done.
    intros [= <- <-]. apply Hpe in E. parens.
Qed.

Lemma parse_call_rest_parens pe : keeps_parens pe →
  ∀ n f ts a r, parse_call_rest pe n f ts = Some (a, r) → paren_net ts = paren_net r.
Proof.
  intros Hpe. induction n as [|n IH]; intros f ts a r.
  - destruct ts as [|[] ts]; cbn; try done; by intros [= <- <-].
  - destruct ts as [|t ts]; [by intros [= <- <-]|].
    destruct t; cbn [parse_call_rest]; try (by intros [= <- <-]).
    destruct ts as [|t' ts'].
    + destruct (pe []) as [[e [|[] r']]|] eqn:E; try done.
      intros H. apply IH in H. apply Hpe in E. parens.
    + destruct t'; try (destruct (pe _) as [[e [|[] r']]|] eqn:E; try done;
        intros H; apply IH in H; apply Hpe in E; parens).
      intros H. apply IH in H. parens.
Qed.

Lemma parse_call_parens pe n : keeps_parens pe → keeps_parens (parse_call pe n).
Proof.
  intros Hpe ts a r. unfold parse_call.
  destruct (parse_primary pe ts) as [[f r0]|] eqn:E; [|done].
  intros H. apply (parse_primary_parens pe Hpe) in E.
  apply (parse_call_rest_parens pe Hpe) in H. lia.
Qed.

Lemma parse_unary_parens p : keeps_parens p → keeps_parens (parse_unary p).
Proof.
  intros Hp ts. induction ts as [|t ts IH]; intros a r.
  - cbn. apply Hp.
  - destruct t; cbn [parse_unary]; try apply Hp.
    destruct (parse_unary p ts) as [[e r']|] eqn:E; [|done].
    intros [= <- <-]. specialize (IH _ _ eq_refl). parens.
Qed.

Lemma parse_chain_rest_parens p op mk :
  keeps_parens p → op ≠ TLParen → op ≠ TRParen →
  ∀ n lhs ts a r, parse_chain_rest p op mk n lhs ts = Some (a, r) →
    paren_net ts = paren_net r.
Proof.
  intros Hp H1 H2. induction n as [|n IH]; intros lhs ts a r.
  - destruct ts as [|t ts]; cbn; [by intros [= <- <-]|].
    destruct (decide (t = op)); [done|]. by intros [= <- <-].
  - destruct ts as [|t ts]; cbn [parse_chain_rest]; [by intros [= <- <-]|].
    destruct (decide (t = op)) as [->|_]; [|by intros [= <- <-]].
    destruct (p ts) as [[rhs r']|] eqn:E; [|done].
    intros H. apply IH in H. apply Hp in E.
    unfold paren_net in *. destruct op; cbn in *; congruence.
Qed.

Lemma parse_chain_parens p op mk n :
  keeps_parens p → op ≠ TLParen → op ≠ TRParen → keeps_parens (parse_chain p op mk n).
Proof.
  intros Hp H1 H2 ts a r. unfold parse_chain.
  destruct (p ts) as [[lhs r0]|] eqn:E; [|done].
  intros H. apply Hp in E. apply (parse_chain_rest_parens p op mk Hp H1 H2) in H. lia.
Qed.

Lemma parse_expr_parens fuel : keeps_parens (parse_expr fuel).
Proof.
  induction fuel as [|f IH]; [done|].
  cbn [parse_expr].
  repeat (apply parse_chain_parens; [|done|done]).
  apply parse_unary_parens, parse_call_parens, IH.
Qed.

Lemma parse_expression_parens : keeps_parens parse_expression.
Proof. intros ts a r. apply parse_expr_parens. Qed.

Lemma parse_block_items_parens ps : keeps_parens ps →
  ∀ n ts a r, parse_block_items ps n ts = Some (a, r) → paren_net ts = paren_net r.
Proof.
  intros Hps. induction n as [|n IH]; intros ts a r.
  - destruct ts as [|[] ts]; cbn; try done; by intros [= <- <-].
  - assert (G : match ps ts with
                | Some (s, r0) =>
                    match parse_block_items ps n r0 with
                    | Some (ss, r') => Some (s :: ss, r')
                    | None => None
                    end
                | None => None
                end = Some (a, r) → paren_net ts = paren_net r).
    { destruct (ps ts) as [[s r0]|] eqn:E; [|done].
      destruct (parse_block_items ps n r0) as [[ss r']|] eqn:E'; [|done].
      intros [= <- <-]. apply Hps in E. apply IH in E'. lia. }
    destruct ts as [|t ts]; [exact G|].
    destruct t; try exact G. cbn. by intros [= <- <-].
Qed.

Lemma parse_expression_statement_parens : keeps_parens parse_expression_statement.
Proof.
  intros ts a r. unfold parse_expression_statement.
  destruct (parse_expression ts) as [[e r0]|] eqn:E; [|done].
  apply parse_expression_parens in E.
  destruct r0 as [|t r0]; [by destruct e|].
  destruct t; try (by destruct e).
  - destruct e; intros [= <- <-]; parens.
  - destruct e; try done.
    destruct (parse_expression r0) as [[v [|[] r']]|] eqn:E'; try done.
    intros [= <- <-]. apply parse_expression_parens in E'. parens.
Qed.

Lemma parse_stmt_parens fuel : keeps_parens (parse_stmt fuel).
Proof.
  induction fuel as [|f IH]; [done|].
  intros ts a r.
  destruct ts as [|t ts]; [apply parse_expression_statement_parens|].
  destruct t; try apply parse_expression_statement_parens.
  - (* if *)
    cbn [parse_stmt]. destruct ts as [|t ts]; [done|]. destruct t; try done.
    destruct (parse_expression ts) as [[c [|[] r1]]|] eqn:E; try done.
    apply parse_expression_parens in E.
    destruct (parse_stmt f r1) as [[s1 r2]|] eqn:E1; [|done].
    apply IH in E1.
    assert (G : Some (SIf c s1 None, r2) = Some (a, r) → paren_net (TIf :: TLParen :: ts) = paren_net r).
    { intros [= <- <-]. parens. }
    destruct r2 as [|t2 r2]; [exact G|]. destruct t2; try exact G.
    destruct (parse_stmt f r2) as [[s2 r3]|] eqn:E2; [|done].
    apply IH in E2. intros [= <- <-]. parens.
  - (* block *)
    cbn [parse_stmt].
    destruct (parse_block_items (parse_stmt f) f ts) as [[ss r']|] eqn:E; [|done].
    intros [= <- <-]. apply (parse_block_items_parens _ IH) in E. parens.
  - (* empty statement *)
    cbn. by intros [= <- <-].
Qed.

Lemma parse_stmts_parens ps : keeps_parens ps →
  ∀ n ts ss, parse_stmts ps n ts = Some ss → paren_net ts = 0.
Proof.
  intros Hps. induction n as [|n IH]; intros ts ss.
  - by destruct ts.
  - destruct ts as [|t ts]; [done|].
    cbn [parse_stmts]. destruct (ps (t :: ts)) as [[s r]|] eqn:E; [|done].
    destruct (parse_stmts ps n r) as [ss'|] eqn:E'; [|done].
    intros _. apply Hps in E. apply IH in E'. lia.
Qed.

(** A token list that parses as a program has as many [(] as [)]. *)
Lemma parse_program_parens ts prog : parse_program ts = Some prog → paren_net ts = 0.
Proof. apply parse_stmts_parens, parse_stmt_parens. Qed.

Lemma owed_parens ls : lex_ready ls → paren_net (owed ls) = 0.
Proof. by intros [-> | [-> | ->]]. Qed.

Lemma register_tokens_parens b k : paren_net (register_tokens b k) = 0.
Proof. unfold register_tokens, key_tokens. by destruct (k <? 0). Qed.

(** The tokens of what one command emits inside a condition. *)
Lemma condition_fragment_parens c ls :
  condition_command c = true → lex_ready ls →
  ∃ ts ls', lex_chars ls (JSCode (gen_command in_condition c)) = Some (ts, ls') ∧
    lex_ready ls' ∧ paren_net ts = bracket_net c.
Proof.
  intros Hc Hls. destruct c as [ty ins bn].
  unfold condition_command, lexer_command, bracket_net in *.
  cbn [type instruction] in *. apply andb_prop in Hc as [Hl Hc].
  destruct ty as [|[|[|[|[|ty]]]]]; try done.
  - apply includes_elem in Hl.
    repeat (apply elem_of_cons in Hl as [->|Hl]); [..|by apply elem_of_nil in Hl];
      destruct Hls as [-> | [-> | ->]]; vm_compute; eexists _, _;
      (split; [reflexivity|]); (split; [|reflexivity]);
      first [by left | by (right; left) | by (right; right)].
  - destruct (lex_register ls ins Hls Hl) as (b & k & Ht & Hk & Hreg).
    change (JSCode (gen_command in_condition (Command 3 ins bn))) with (register_text ins).
    rewrite Hreg. eexists _, _. split; [done|]. split; [by left|].
    by rewrite paren_net_app, owed_parens, register_tokens_parens.
  - apply includes_elem in Hl.
    repeat (apply elem_of_cons in Hl as [->|Hl]); [..|by apply elem_of_nil in Hl];
      destruct Hls as [-> | [-> | ->]]; vm_compute; eexists _, _;
      (split; [reflexivity|]); (split; [|reflexivity]); by left.
Qed.

(** The tokens of a whole condition. *)
Lemma condition_parens cond : ∀ st ls,
  core st = in_condition →
  Forall (λ c, condition_command c = true) cond → lex_ready ls →
  ∃ ts ls', lex_chars ls (JSCode (gen_run (core st) cond)) = Some (ts, ls') ∧
    lex_ready ls' ∧ paren_net ts = foldr (λ c n, bracket_net c + n) 0 cond.
Proof.
  induction cond as [|c cond IH]; intros st ls Hst Hc Hls.
  - exists [], ls. rewrite Hst. by split.
  - apply Forall_cons in Hc as [Hc Hcs].
    change (gen_run (core st) (c :: cond)) with (gen_run (gen_command (core st) c) cond).
    destruct (gen_run_core cond (gen_command (core st) c)) as [-> _].
    rewrite Hst.
    destruct (condition_fragment_parens c ls Hc Hls) as (t1 & ls1 & E1 & R1 & N1).
    destruct (IH (gen_command in_condition c) ls1
                (condition_keeps_open in_condition c eq_refl Hc) Hcs R1)
      as (t2 & ls2 & E2 & R2 & N2).
    rewrite lex_chars_app, E1, E2. eexists _, _. split; [done|]. split; [done|].
    rewrite paren_net_app, N1, N2. done.
Qed.

(** For commands of a condition, the open brackets are counted by the
    instructions. *)
Lemma bracket_net_count cond :
  Forall (λ c, condition_command c = true) cond →
  foldr (λ c n, bracket_net c + n) 0 cond
  = Z.of_nat (length (filter (λ p, p = "(") (map instruction cond)))
    - Z.of_nat (length (filter (λ p, p = ")") (map instruction cond))).
Proof.
  induction 1 as [|c cond Hc _ IH]; [done|].
  cbn [foldr map]. rewrite IH, !filter_cons.
  destruct c as [ty ins bn]. unfold condition_command, lexer_command, bracket_net in *.
  cbn [type instruction] in *. apply andb_prop in Hc as [Hl Hc].
  destruct ty as [|[|[|[|[|ty]]]]]; try done.
  - apply includes_elem in Hl.
    repeat (apply elem_of_cons in Hl as [->|Hl]); [..|by apply elem_of_nil in Hl];
      repeat case_decide; try done; cbn; lia.
  - assert (ins ≠ "(" ∧ ins ≠ ")") as [N1 N2] by (split; intros ->; done).
    rewrite !decide_False by done. cbn. lia.
  - apply includes_elem in Hl.
    repeat (apply elem_of_cons in Hl as [->|Hl]); [..|by apply elem_of_nil in Hl];
      repeat case_decide; try done; cbn [Nat.eqb String.eqb Ascii.eqb Bool.eqb length]; lia.
Qed.

(** The tokens of a network that ends inside its condition: the bracket of
    the [if] stays open beside those of the condition. *)
Lemma open_statement_parens op cond n ts :
  type op = 1%nat → lexer_command op = true →
  Forall (λ x, condition_command x = true) cond →
  tokenize (generateJSCode (op :: cond ++ [Command 6 ";" n])).1 = Some ts →
  paren_net ts = 1 + foldr (λ c n, bracket_net c + n) 0 cond.
Proof.
  intros Hop Hlop Hcond. unfold tokenize, generateJSCode. cbn [fst].
  change (gen_run gen_init (op :: cond ++ [Command 6 ";" n]))
    with (gen_run (gen_command gen_init op) (cond ++ [Command 6 ";" n])).
  assert (core (gen_command gen_init op) = in_condition ∧
          ∃ t0 ls0, lex_chars LStart (JSCode (gen_command gen_init op)) = Some (t0, ls0) ∧
            lex_ready ls0 ∧ paren_net t0 = 1) as (Hcore & t0 & ls0 & E0 & R0 & N0).
  { destruct op as [ty ins bn]. cbn in Hop. subst ty.
    unfold lexer_command in Hlop. cbn [type instruction] in Hlop.
    apply includes_elem in Hlop.
    repeat (apply elem_of_cons in Hlop as [->|Hlop]); [..|by apply elem_of_nil in Hlop];
      (split; [reflexivity|]); vm_compute; eexists _, _;
      (split; [reflexivity|]); (split; [|reflexivity]);
      first [by left | by (right; left) | by (right; right)]. }
  destruct (gen_run_core (cond ++ [Command 6 ";" n]) (gen_command gen_init op)) as [-> _].
  rewrite gen_run_app.
  change (gen_run (gen_run (core (gen_command gen_init op)) cond) [Command 6 ";" n])
    with (gen_command (gen_run (core (gen_command gen_init op)) cond) (Command 6 ";" n)).
  destruct (condition_parens cond (gen_command gen_init op) ls0 Hcore Hcond R0)
    as (t1 & ls1 & E1 & R1 & N1).
  change (JSCode (gen_command (gen_run (core (gen_command gen_init op)) cond)
                    (Command 6 ";" n)))
    with (JSCode (gen_run (core (gen_command gen_init op)) cond) +:+ "; // End of Network
").
  rewrite lex_chars_app, E0, lex_chars_app, E1, (lex_end_of_network _ R1). cbn [lex_end].
  intros [= <-].
  rewrite ?app_nil_r, !paren_net_app, N0, N1, (owed_parens _ R1).
  change (paren_net [TSemi]) with 0. lia.
Qed.

(** One scan, in terms of what [eval] makes of the installed text. *)
Lemma SPSRuntime_scan w code :
  SPSCode (sps w) = Some code →
  registers (sps (SPSRuntime w).2) = outcome_banks (eval_code code (registers (sps w))) ∧
  getRuntimeCounter (SPSRuntime w).2 = getRuntimeCounter w + 1 ∧
  ((SPSRuntime w).1 = Returned tt ↔ ∃ r', eval_code code (registers (sps w)) = Done r') ∧
  (∀ x, (SPSRuntime w).1 = Thrown x ↔ ∃ r', eval_code code (registers (sps w)) = Raised x r').
Proof.
  intros Hcode. unfold SPSRuntime, getRuntimeCounter. cbn. rewrite Hcode.
  destruct (eval_code code (registers (sps w))) as [r'|x r']; cbn.
  - split; [done|]. split; [done|]. split; [split; eauto|].
    intros x. split; [done|]. by intros [? ?].
  - split; [done|]. split; [done|]. split; [split; [done|by intros [? ?]]|].
    intros y. split; [intros [= ->]; eauto|]. by intros [? [= -> _]].
Qed.

(** *** Scans and the size of the banks; the run state *)

Lemma banks_grow_refl r : banks_grow r r.
Proof. by intros b. Qed.

Lemma banks_grow_trans r1 r2 r3 : banks_grow r1 r2 → banks_grow r2 r3 → banks_grow r1 r3.
Proof. intros H1 H2 b. specialize (H1 b). specialize (H2 b). lia. Qed.

Lemma array_set_grows a k v : (array_length a ≤ array_length (array_set a k v))%nat.
Proof.
  unfold array_set, array_length.
  destruct ((0 <=? k) && (k <? max_array_index)); [|done].
  destruct (Z.to_nat k <? length (elems a))%nat; simpl.
  - by rewrite length_insert.
  - rewrite length_app. lia.
Qed.

Lemma write_reg_grows b k v r : banks_grow r (write_reg b k v r).
Proof.
  intros b'. unfold write_reg. pose proof (array_set_grows (bank_of b r) k v).
  destruct b, b', r; simpl in *; lia.
Qed.

(** Induction over statements that reaches into blocks and [else] parts. *)
Fixpoint jstmt_nested_ind (P : jstmt → Prop)
    (HEmpty : P SEmpty) (HExpr : ∀ e, P (SExpr e))
    (HAssign : ∀ b k rhs, P (SAssign b k rhs))
    (HIf : ∀ c s1 s2, P s1 → from_option P True s2 → P (SIf c s1 s2))
    (HBlock : ∀ body, Forall P body → P (SBlock body))
    (s : jstmt) : P s :=
  match s with
  | SEmpty => HEmpty
  | SExpr e => HExpr e
  | SAssign b k rhs => HAssign b k rhs
  | SIf c s1 s2 =>
      HIf c s1 s2 (jstmt_nested_ind P HEmpty HExpr HAssign HIf HBlock s1)
        (match s2 as o return from_option P True o with
         | Some s' => jstmt_nested_ind P HEmpty HExpr HAssign HIf HBlock s'
         | None => I
         end)
  | SBlock body =>
      HBlock body
        ((fix go (l : list jstmt) : Forall P l :=
            match l with
            | [] => @List.Forall_nil _ P
            | x :: l' =>
                @List.Forall_cons _ P x l' (jstmt_nested_ind P HEmpty HExpr HAssign HIf HBlock x) (go l')
            end) body)
  end.

Lemma exec_stmt_grows (s : jstmt) : ∀ r, banks_grow r (outcome_banks (exec_stmt s r)).
Proof.
  induction s as [| e | b k rhs | c s1 s2 IH1 IH2 | body IH] using jstmt_nested_ind;
    intros r; cbn [exec_stmt].
  - apply banks_grow_refl.
  - destruct (eval_expr e r); apply banks_grow_refl.
  - destruct (eval_expr rhs r); [apply write_reg_grows|apply banks_grow_refl].
  - destruct (eval_expr c r) as [v|x]; [|apply banks_grow_refl].
    destruct (truthy v); [apply IH1|].
    destruct s2 as [s|]; [apply IH2|apply banks_grow_refl].
  - revert r. induction IH as [|s l Hs _ IHl]; intros r; [apply banks_grow_refl|].
    pose proof (Hs r) as H1. destruct (exec_stmt s r) as [r1|x r1]; cbn [and_then outcome_banks] in *.
    + eapply banks_grow_trans; [exact H1|apply IHl].
    + exact H1.
Qed.

Lemma exec_stmts_grows prog : ∀ r, banks_grow r (outcome_banks (exec_stmts prog r)).
Proof.
  induction prog as [|s l IH]; intros r; cbn [exec_stmts]; [apply banks_grow_refl|].
  pose proof (exec_stmt_grows s r) as H1.
  destruct (exec_stmt s r) as [r1|x r1]; cbn [and_then outcome_banks] in *.
  - eapply banks_grow_trans; [exact H1|apply IH].
  - exact H1.
Qed.

Lemma eval_code_grows code r : banks_grow r (outcome_banks (eval_code code r)).
Proof.
  unfold eval_code. destruct (tokenize code) as [ts|]; [|apply banks_grow_refl].
  destruct (parse_program ts) as [prog|]; [apply exec_stmts_grows|apply banks_grow_refl].
Qed.

Lemma SPSRuntime_registers w :
  banks_grow (registers (sps w)) (registers (sps (SPSRuntime w).2)).
Proof.
  unfold SPSRuntime. cbn. destruct (SPSCode (sps w)) as [code|]; [|apply banks_grow_refl].
  pose proof (eval_code_grows code (registers (sps w))) as H.
  by destruct (eval_code code (registers (sps w))).
Qed.

Lemma copy_into_grows a source : (array_length a ≤ array_length (copy_into a source))%nat.
Proof.
  unfold copy_into. generalize (seq 0 (array_length a)). intros l.
  assert (G : ∀ acc, (array_length a ≤ array_length acc)%nat →
    (array_length a ≤ array_length
       (fold_left (λ acc i, array_set acc (Z.of_nat i) (default VUndef (source !! i))) l acc))%nat).
  { induction l as [|i l IH]; intros acc H; simpl; [done|].
    apply IH. pose proof (array_set_grows acc (Z.of_nat i) (default VUndef (source !! i))). lia. }
  by apply G.
Qed.

(** What [#changeSPSState] leaves alone. *)
Lemma changeSPSState_fields n w :
  let w' := changeSPSState n w in
  state (sps w') = state (sps w) ∧ registers (sps w') = registers (sps w) ∧
  SPSCode (sps w') = SPSCode (sps w) ∧ SPSCycleTime (sps w') = SPSCycleTime (sps w) ∧
  dataReady_private (sps w') = dataReady_private (sps w) ∧
  RuntimeCounter (sps w') = (if n =? 0 then 0 else RuntimeCounter (sps w)).
Proof.
  unfold changeSPSState.
  destruct (n =? 0) eqn:E0.
  { by destruct (runtimeTimer (sps w)). }
  destruct (n =? 1) eqn:E1.
  { destruct (runtimeTimer (sps w)) as [t|]; [|done]. by destruct (negb (t =? 0)). }
  destruct (n =? 2); [|done]. by destruct (runtimeTimer (sps w)).
Qed.

Lemma perform_registers w c :
  banks_grow (registers (sps w)) (registers (sps (perform w c))).
Proof.
  destruct c; cbn [perform]; try apply banks_grow_refl.
  - destruct (loadCode_fields i w) as (_ & _ & _ & _ & -> & _). apply banks_grow_refl.
  - rewrite setCycleTime_always_succeeds. apply banks_grow_refl.
  - unfold setFlags. destruct (global_dataReady (env w)); [|apply banks_grow_refl].
    intros b. simpl. generalize (copy_into_grows (regM (registers (sps w))) flags).
    destruct b, (registers (sps w)); simpl; lia.
  - intros b. simpl. generalize (copy_into_grows (regE (registers (sps w))) inputs).
    destruct b, (registers (sps w)); simpl; lia.
  - unfold getOutputs. destruct (negb _ && _); [|apply banks_grow_refl].
    pose proof (SPSRuntime_registers w) as H.
    by destruct (SPSRuntime w) as [[u|x] w'].
  - unfold start. destruct (state (sps w) =? 1); [apply banks_grow_refl|]. cbn [snd].
    destruct (changeSPSState_fields (state (sps (on_sps (with_state 1) w)))
                (on_sps (with_state 1) w)) as (_ & -> & _).
    apply banks_grow_refl.
  - unfold stop. destruct (state (sps w) =? 0); [apply banks_grow_refl|]. cbn [snd].
    match goal with |- context [changeSPSState ?n ?x] =>
      destruct (changeSPSState_fields n x) as (_ & -> & _) end.
    intros b. simpl. destruct b, (registers (sps w)) as [[] [] []];
      unfold array_length, array_fill; simpl; by rewrite length_replicate.
  - unfold pause. destruct (state (sps w) =? 2); [apply banks_grow_refl|]. cbn [snd].
    destruct (changeSPSState_fields (state (sps (on_sps (with_state 2) w)))
                (on_sps (with_state 2) w)) as (_ & -> & _).
    apply banks_grow_refl.
  - unfold timer_tick. generalize (intervals (env w)). intros l. revert w.
    induction l as [|x l IH]; intros w; simpl; [apply banks_grow_refl|].
    eapply banks_grow_trans; [apply SPSRuntime_registers|apply IH].
Qed.

Lemma perform_run_state w c : dormant w → run_state_ok w → run_state_ok (perform w c).
Proof.
  intros Hd (Hs & Hc & H0). unfold run_state_ok, getState, getRuntimeCounter in *.
  destruct c; cbn [perform]; try done.
  - destruct (loadCode_fields i w) as (_ & _ & _ & _ & _ & -> & -> & _). done.
  - by rewrite setCycleTime_always_succeeds.
  - unfold setFlags. by destruct (global_dataReady (env w)).
  - unfold getOutputs. destruct (negb _ && (state (sps w) =? 1)) eqn:E; [|done].
    apply andb_prop in E as [_ E]. apply Z.eqb_eq in E.
    destruct (SPSRuntime_fields w) as (_ & _ & _ & E1 & E2).
    destruct (SPSRuntime w) as [[u|x] w']; cbn [snd] in *; rewrite E1, E2; lia.
  - unfold start. destruct (state (sps w) =? 1) eqn:E; [done|]. cbn [snd].
    match goal with |- context [changeSPSState ?n ?x] =>
      destruct (changeSPSState_fields n x) as (-> & _ & _ & _ & _ & ->) end.
    cbn. lia.
  - unfold stop. destruct (state (sps w) =? 0) eqn:E; [done|]. cbn [snd].
    match goal with |- context [changeSPSState ?n ?x] =>
      destruct (changeSPSState_fields n x) as (-> & _ & _ & _ & _ & ->) end.
    cbn. lia.
  - unfold pause. destruct (state (sps w) =? 2) eqn:E; [done|]. cbn [snd].
    match goal with |- context [changeSPSState ?n ?x] =>
      destruct (changeSPSState_fields n x) as (-> & _ & _ & _ & _ & ->) end.
    cbn. apply Z.eqb_neq in E. lia.
  - destruct Hd as (_ & Hi & _). unfold timer_tick. by rewrite Hi.
Qed.

Lemma after_snoc i o f history c :
  after i o f (history ++ [c]) = perform (after i o f history) c.
Proof. unfold after. by rewrite fold_left_app. Qed.

Lemma after_app i o f h1 h2 :
  after i o f (h1 ++ h2) = fold_left perform h2 (after i o f h1).
Proof. unfold after. by rewrite fold_left_app. Qed.

Lemma after_run_state i o f history : run_state_ok (after i o f history).
Proof.
  induction history as [|c h IH] using rev_ind.
  - split; [by left|done].
  - rewrite after_snoc. apply perform_run_state; [apply after_dormant|done].
Qed.

(** While running, with the private flag unset, [getOutputs] scans once. *)
Lemma getOutputs_counts w :
  dormant w →
  getRuntimeCounter (getOutputs w).2 =
    getRuntimeCounter w + (if decide (getState w = 1) then 1 else 0) ∧
  getState (getOutputs w).2 = getState w ∧
  (getState w ≠ 1 → getOutputs w = (Returned (Live BA), w)).
Proof.
  intros (_ & _ & Hp & _). unfold getOutputs, getState, getRuntimeCounter. rewrite Hp.
  cbn [negb andb]. destruct (state (sps w) =? 1) eqn:E.
  - apply Z.eqb_eq in E. destruct (SPSRuntime_fields w) as (_ & _ & _ & E1 & E2).
    destruct (SPSRuntime w) as [[u|x] w']; cbn [snd] in *; rewrite E1, E2;
      (destruct (decide _) as [_|Hn]; [|by destruct Hn]); by repeat split.
  - apply Z.eqb_neq in E. destruct (decide _); [done|]. cbn [snd]. split; [lia|done].
Qed.

Lemma getOutputs_repeated n : ∀ w,
  dormant w → getState w = 1 →
  let w' := fold_left perform (replicate n CallGetOutputs) w in
  getRuntimeCounter w' = getRuntimeCounter w + Z.of_nat n ∧ getState w' = 1.
Proof.
  induction n as [|n IH]; intros w Hd Hs; [cbn; lia|].
  cbn [replicate fold_left perform].
  destruct (getOutputs_counts w Hd) as (Hc & Hs' & _).
  destruct (IH (getOutputs w).2) as [IH1 IH2].
  { change (getOutputs w).2 with (perform w CallGetOutputs). by apply perform_dormant. }
  { by rewrite Hs'. }
  cbn zeta in *. rewrite IH1, Hc, IH2. destruct (decide _); [|done]. lia.
Qed.

(** *** The copying loops in full *)

(** The loop of [getInputs]/[getFlags] after [n] rounds, for any [n]: past
    the end of the source it stores [undefined]. *)
Lemma copy_first_any source n :
  Z.of_nat n ≤ max_array_index →
  copy_first n source =
  JSArray (map (λ i, default VUndef (elems source !! i)) (seq 0 n)) ∅.
Proof.
  intros Hm. unfold copy_first. induction n as [|n IH]; [done|].
  rewrite seq_S, fold_left_app, IH by lia. cbn [fold_left Nat.add].
  unfold array_set.
  replace (0 <=? Z.of_nat n) with true by (symmetry; apply Z.leb_le; lia).
  replace (Z.of_nat n <? max_array_index) with true by (symmetry; apply Z.ltb_lt; lia).
  cbn [andb elems props]. rewrite Nat2Z.id, length_map, length_seq.
  replace (n <? n)%nat with false by (symmetry; apply Nat.ltb_ge; lia).
  rewrite Nat.sub_diag. cbn [replicate app].
  rewrite array_get_inside by lia. by rewrite map_app.
Qed.

(** *** The lexer in full *)

#[global] Instance brackets_balanced_dec parts : Decision (brackets_balanced parts).
Proof. unfold brackets_balanced. apply _. Defined.

(** *** Upper case *)

Lemma upper_char_idem c : upper_char (upper_char c) = upper_char c.
Proof. by destruct c as [[] [] [] [] [] [] [] []]. Qed.

Lemma toUpperCase_idem s : toUpperCase (toUpperCase s) = toUpperCase s.
Proof. induction s as [|c s IH]; [done|]. cbn. by rewrite upper_char_idem, IH. Qed.

Lemma toUpperCase_app a b : toUpperCase (a +:+ b) = toUpperCase a +:+ toUpperCase b.
Proof. induction a as [|c a IH]; [done|]. rewrite append_cons. cbn. by rewrite IH. Qed.

(** *** The fold of the lexer over the parts *)

Lemma bracket_is_known p : includes validBrackets p = true → known_part p = true.
Proof.
  intros H. apply includes_elem in H.
  repeat (apply elem_of_cons in H as [->|H]); [done..|by apply elem_of_nil in H].
Qed.

Lemma classify_part_bracket_count st p :
  BracketCount (classify_part st p) =
  BracketCount st + (if decide (p = "(") then 1 else 0) - (if decide (p = ")") then 1 else 0).
Proof.
  unfold classify_part.
  destruct (includes validlogicalOperations p) eqn:E1.
  { apply includes_elem in E1.
    repeat (apply elem_of_cons in E1 as [->|E1]); [..|by apply elem_of_nil in E1];
      cbn [BracketCount push_command]; repeat case_decide; try done; lia. }
  destruct (includes validInstructions p) eqn:E2.
  { apply includes_elem in E2.
    repeat (apply elem_of_cons in E2 as [->|E2]); [..|by apply elem_of_nil in E2];
      cbn [BracketCount push_command]; repeat case_decide; try done; lia. }
  destruct (validOperandsRegex p) eqn:E3.
  { cbn [BracketCount push_command]. repeat case_decide; subst; try done; lia. }
  destruct (includes validBrackets p) eqn:E4.
  { apply includes_elem in E4.
    repeat (apply elem_of_cons in E4 as [->|E4]); [..|by apply elem_of_nil in E4];
      cbn; repeat case_decide; try done; lia. }
  cbn [BracketCount]. repeat case_decide; subst; try done; lia.
Qed.

Lemma classify_fold_bracket_count parts : ∀ st,
  BracketCount (fold_left classify_part parts st) =
  BracketCount st + Z.of_nat (count_bracket "(" parts) - Z.of_nat (count_bracket ")" parts).
Proof.
  unfold count_bracket.
  induction parts as [|p parts IH]; intros st; cbn [fold_left]; [cbn; lia|].
  rewrite IH, classify_part_bracket_count, !filter_cons.
  repeat case_decide; subst; try done; cbn [length]; lia.
Qed.

Lemma classify_fold_errors parts : ∀ st,
  lexer_errors (fold_left classify_part parts st) =
  lexer_errors st ++ map unknown_message (filter (λ p, known_part p = false) parts).
Proof.
  induction parts as [|p parts IH]; intros st; cbn [fold_left].
  - by rewrite app_nil_r.
  - rewrite IH, filter_cons. destruct (known_part p) eqn:K.
    + destruct (classify_part_known st p K) as [_ ->].
      by rewrite decide_False by done.
    + destruct (classify_part_unknown st p K) as [_ ->].
      rewrite decide_True by done. by rewrite <- app_assoc.
Qed.

Lemma classify_fold_invalid parts : ∀ st,
  invalidCommand (fold_left classify_part parts st) = true ↔
  invalidCommand st = true ∨ ¬ Forall (λ p, known_part p = true) parts.
Proof.
  induction parts as [|p parts IH]; intros st; cbn [fold_left].
  - split; [by left|]. intros [H|H]; [done|]. by destruct H.
  - rewrite IH. destruct (known_part p) eqn:K.
    + destruct (classify_part_known st p K) as [-> _]. split.
      * intros [H|H]; [by left|]. right. intros X. apply H. by inversion X.
      * intros [H|H]; [by left|]. right. intros X. apply H. by constructor.
    + destruct (classify_part_unknown st p K) as [-> _]. split; [|by left].
      intros _. right. intros X. inversion X; congruence.
Qed.

Lemma numbered_snoc l ty p : numbered l → numbered (l ++ [Command ty p (length l)]).
Proof.
  intros H i c Hi. apply lookup_app_Some in Hi as [Hi|[Hlen Hi]]; [by apply H|].
  apply list_lookup_singleton_Some in Hi as [Hi <-]. cbn. lia.
Qed.

Lemma classify_part_shape st p :
  known_part p = true →
  ∃ ty, commandArray (classify_part st p) =
          commandArray st ++ [Command ty p (length (commandArray st))] ∧
        ty ≠ 6%nat.
Proof.
  unfold known_part, classify_part. intros K.
  destruct (includes validlogicalOperations p); [by exists 1%nat|].
  destruct (includes validInstructions p); [by exists 2%nat|].
  destruct (validOperandsRegex p); [by exists 3%nat|].
  destruct (includes validBrackets p); [by exists 4%nat|]. done.
Qed.

Lemma classify_fold_shape parts : ∀ st,
  Forall (λ p, known_part p = true) parts →
  numbered (commandArray st) → Forall (λ c, type c ≠ 6%nat) (commandArray st) →
  let l := commandArray (fold_left classify_part parts st) in
  map instruction l = map instruction (commandArray st) ++ parts ∧
  numbered l ∧ Forall (λ c, type c ≠ 6%nat) l.
Proof.
  induction parts as [|p parts IH]; intros st Hk Hn Ht; cbn [fold_left].
  - by rewrite app_nil_r.
  - inversion Hk as [|? ? Kp Kr]; subst.
    destruct (classify_part_shape st p Kp) as (ty & E & Hty).
    destruct (IH (classify_part st p) Kr) as (I1 & I2 & I3).
    { rewrite E. by apply numbered_snoc. }
    { rewrite E. apply Forall_app. split; [done|]. by constructor. }
    cbn zeta. rewrite I1, E, map_app. cbn. by rewrite <- app_assoc.
Qed.

(** The lexer's result in full: what it returns and what it reports. *)
Lemma generateCodeStructure_result text :
  let parts := codeParts text in
  (generateCodeStructure text).2 =
    map unknown_message (filter (λ p, known_part p = false) parts) ++
    (if decide (brackets_balanced parts) then []
     else ["generateCodeStructure >> Invalid bracket number"]) ∧
  ((generateCodeStructure text).1 ≠ None ↔
     Forall (λ p, known_part p = true) parts ∧ brackets_balanced parts).
Proof.
  intros parts. unfold generateCodeStructure. fold parts.
  pose proof (classify_fold_bracket_count parts (LexerState [] 0 false [])) as HB.
  pose proof (classify_fold_errors parts (LexerState [] 0 false [])) as HE.
  pose proof (classify_fold_invalid parts (LexerState [] 0 false [])) as HI.
  fold (classify_all parts) in HB, HE, HI. cbn [BracketCount lexer_errors invalidCommand app] in *.
  assert (Hbal : BracketCount (classify_all parts) = 0 ↔ brackets_balanced parts)
    by (unfold brackets_balanced; lia).
  unfold check_brackets.
  destruct (BracketCount (classify_all parts) =? 0) eqn:B; cbn [negb].
  - apply Z.eqb_eq in B. rewrite decide_True by (by apply Hbal). rewrite app_nil_r.
    destruct (invalidCommand (classify_all parts)) eqn:I; cbn [fst snd].
    + split; [done|]. split; [done|]. intros [Hk _].
      destruct HI as [HI _]. destruct (HI eq_refl) as [?|?]; done.
    + split; [done|]. split; [|done]. intros _. split; [|by apply Hbal].
      destruct (decide (Forall (λ p, known_part p = true) parts)) as [?|Hn]; [done|].
      destruct HI as [_ HI]. discriminate (HI (or_intror Hn)).
  - apply Z.eqb_neq in B. rewrite decide_False by (by rewrite <- Hbal).
    cbn [invalidCommand lexer_errors fst snd]. rewrite HE. split; [done|].
    split; [done|]. intros [_ Hb]. by apply Hbal in Hb.
Qed.

(** *** Comments *)

Lemma removeComments_skip c rest :
  string_exists is_line_terminator c = false →
  removeComments_from true (c +:+ rest) = removeComments_from true rest.
Proof.
  induction c as [|x c IH]; intros H; [done|].
  cbn in H. apply orb_false_elim in H as [Hx Hc].
  rewrite append_cons. cbn [removeComments_from]. rewrite Hx. by apply IH.
Qed.

Lemma removeComments_line_end rest :
  at_line_end rest = true →
  removeComments_from true rest = removeComments_from false rest.
Proof.
  destruct rest as [|t r]; [done|]. cbn [at_line_end removeComments_from]. intros Ht.
  rewrite Ht. destruct r as [|c' r']; [done|].
  replace (Ascii.eqb t "/") with false; [done|].
  symmetry. apply Ascii.eqb_neq. intros ->. by vm_compute in Ht.
Qed.

Lemma removeComments_two x y r :
  removeComments_from false (String x (String y r)) =
  if Ascii.eqb x "/" && Ascii.eqb y "/" then removeComments_from true r
  else String x (removeComments_from false (String y r)).
Proof. done. Qed.

Lemma removeComments_comment n : ∀ a b c rest,
  (String.length a ≤ n)%nat →
  ends_with_slash a = false → string_exists is_line_terminator c = false →
  at_line_end rest = true →
  removeComments_from b (a +:+ "//" +:+ c +:+ rest) = removeComments_from b (a +:+ rest).
Proof.
  assert (Base : ∀ b c rest,
    string_exists is_line_terminator c = false → at_line_end rest = true →
    removeComments_from b ("//" +:+ c +:+ rest) = removeComments_from b rest).
  { intros b c rest Hc Hr.
    change ("//" +:+ c +:+ rest) with (String "/" (String "/" (c +:+ rest))).
    destruct b.
    - cbn [removeComments_from]. change (is_line_terminator "/") with false. cbn iota.
      by rewrite removeComments_skip.
    - rewrite removeComments_two. cbn [Ascii.eqb Bool.eqb andb].
      rewrite removeComments_skip by done. by apply removeComments_line_end. }
  induction n as [|n IH]; intros a b c rest Hlen Ha Hc Hr.
  - destruct a; [|cbn in Hlen; lia]. rewrite !append_nil_l. by apply Base.
  - destruct a as [|x a]; [rewrite !append_nil_l; by apply Base|].
    cbn in Hlen.
    rewrite (append_cons x a ("//" +:+ c +:+ rest)), (append_cons x a rest).
    destruct b.
    + cbn [removeComments_from].
      assert (ends_with_slash a = false) as Ha'.
      { destruct a; [done|]. exact Ha. }
      destruct (is_line_terminator x); [f_equal|]; apply IH; (lia || done).
    + destruct a as [|y a].
      * rewrite !append_nil_l. cbn in Ha. apply Ascii.eqb_neq in Ha.
        assert (Ascii.eqb x "/" = false) as Hx by (by apply Ascii.eqb_neq).
        change ("//" +:+ c +:+ rest) with (String "/" (String "/" (c +:+ rest))).
        rewrite removeComments_two, Hx. cbn [andb].
        rewrite removeComments_two. cbn [Ascii.eqb Bool.eqb andb].
        rewrite removeComments_skip by done.
        rewrite (removeComments_line_end rest Hr).
        destruct rest as [|t r]; [done|].
        rewrite removeComments_two, Hx. done.
      * rewrite (append_cons y a ("//" +:+ c +:+ rest)), (append_cons y a rest).
        rewrite (removeComments_two x y (a +:+ "//" +:+ c +:+ rest)),
          (removeComments_two x y (a +:+ rest)).
        destruct (Ascii.eqb x "/" && Ascii.eqb y "/") eqn:E.
        -- assert (ends_with_slash a = false) as Ha'.
           { destruct a as [|z a]; [|exact Ha].
             cbn in Ha. apply andb_prop in E as [_ E]. congruence. }
           apply IH; [cbn in Hlen; lia|done..].
        -- f_equal.
           rewrite <- (append_cons y a ("//" +:+ c +:+ rest)), <- (append_cons y a rest).
           apply IH; [cbn in Hlen |- *; lia|done..].
Qed.

Lemma upper_line_terminator c : is_line_terminator (upper_char c) = is_line_terminator c.
Proof. by destruct c as [[] [] [] [] [] [] [] []]. Qed.

Lemma upper_slash c : Ascii.eqb (upper_char c) "/" = Ascii.eqb c "/".
Proof. by destruct c as [[] [] [] [] [] [] [] []]. Qed.

Lemma toUpperCase_terminators s :
  string_exists is_line_terminator (toUpperCase s) = string_exists is_line_terminator s.
Proof. induction s as [|c s IH]; [done|]. cbn. by rewrite upper_line_terminator, IH. Qed.

Lemma toUpperCase_ends_with_slash s : ends_with_slash (toUpperCase s) = ends_with_slash s.
Proof.
  induction s as [|c s IH]; [done|]. cbn [toUpperCase ends_with_slash].
  destruct s as [|d s]; [apply upper_slash|]. exact IH.
Qed.

Lemma toUpperCase_at_line_end s : at_line_end (toUpperCase s) = at_line_end s.
Proof. destruct s as [|c s]; [done|]. apply upper_line_terminator. Qed.

(** *** Splitting *)

Lemma toUpperCase_fixed s :
  string_forall (λ c, negb (is_lower c)) s = true → toUpperCase s = s.
Proof.
  induction s as [|c s IH]; [done|]. cbn. intros H. apply andb_prop in H as [Hc Hs].
  unfold upper_char. apply negb_true_iff in Hc. rewrite Hc. by rewrite IH.
Qed.

Lemma removeComments_fixed s :
  string_forall (λ c, negb (Ascii.eqb c "/")) s = true →
  removeComments_from false s = s.
Proof.
  induction s as [|c s IH]; intros H; [done|].
  cbn in H. apply andb_prop in H as [Hc Hs]. apply negb_true_iff in Hc.
  destruct s as [|d s]; [done|].
  rewrite removeComments_two, Hc. cbn [andb]. by rewrite IH.
Qed.

Lemma string_forall_app p a b :
  string_forall p (a +:+ b) = string_forall p a && string_forall p b.
Proof.
  induction a as [|c a IH]; [done|]. rewrite append_cons. cbn. by rewrite IH, andb_assoc.
Qed.

Lemma string_forall_impl (p q : ascii → bool) s :
  (∀ c, p c = true → q c = true) → string_forall p s = true → string_forall q s = true.
Proof.
  intros Hpq. induction s as [|c s IH]; [done|]. cbn. intros H.
  apply andb_prop in H as [Hc Hs]. by rewrite (Hpq c Hc), IH.
Qed.

Lemma string_forall_rev_app p a : ∀ b,
  string_forall p (String.rev_app a b) = string_forall p a && string_forall p b.
Proof.
  induction a as [|c a IH]; intros b; [done|]. cbn. rewrite IH. cbn.
  destruct (p c), (string_forall p a), (string_forall p b); done.
Qed.

Lemma length_rev_app a : ∀ b,
  String.length (String.rev_app a b) = (String.length a + String.length b)%nat.
Proof. induction a as [|c a IH]; intros b; [done|]. cbn. rewrite IH. cbn. lia. Qed.

Lemma drop_whitespace_none s :
  string_forall (λ c, negb (is_whitespace c)) s = true → drop_whitespace s = s.
Proof.
  destruct s as [|c s]; [done|]. cbn. intros H. apply andb_prop in H as [Hc _].
  apply negb_true_iff in Hc. by rewrite Hc.
Qed.

Lemma trim_no_whitespace s :
  string_forall (λ c, negb (is_whitespace c)) s = true →
  String.length (trim s) = String.length s.
Proof.
  intros H. unfold trim, String.rev. rewrite (drop_whitespace_none s H).
  rewrite drop_whitespace_none by (by rewrite string_forall_rev_app, H).
  rewrite !length_rev_app. cbn. lia.
Qed.

Lemma plain_not_whitespace c : plain_char c = true → negb (is_whitespace c) = true.
Proof. by destruct c as [[] [] [] [] [] [] [] []]. Qed.

Lemma plain_not_separator c : plain_char c = true → is_separator c = false.
Proof. by destruct c as [[] [] [] [] [] [] [] []]. Qed.

Lemma bracket_is_separator c : is_bracket_char c = true → is_separator c = true.
Proof. by destruct c as [[] [] [] [] [] [] [] []]. Qed.

Lemma whitespace_facts c :
  is_whitespace c = true →
  is_separator c = true ∧ is_bracket_char c = false ∧ is_lower c = false ∧
  Ascii.eqb c "/" = false.
Proof. by destruct c as [[] [] [] [] [] [] [] []]. Qed.

Lemma bracket_facts c :
  is_bracket_char c = true → is_lower c = false ∧ Ascii.eqb c "/" = false.
Proof. by destruct c as [[] [] [] [] [] [] [] []]. Qed.

Lemma split_from_plain w : ∀ cur rest,
  string_forall plain_char w = true →
  split_from cur (w +:+ rest) = split_from (cur +:+ w) rest.
Proof.
  induction w as [|c w IH]; intros cur rest H.
  - by rewrite append_nil_l, append_nil_r.
  - cbn in H. apply andb_prop in H as [Hc Hw]. rewrite append_cons.
    cbn [split_from]. rewrite (plain_not_separator c Hc), IH by done.
    by rewrite append_assoc.
Qed.

Lemma keep_part_plain w :
  w ≠ "" → string_forall plain_char w = true → keep_part w = true.
Proof.
  intros Hne H. unfold keep_part.
  rewrite trim_no_whitespace
    by (eapply string_forall_impl; [apply plain_not_whitespace|done]).
  destruct w; [done|]. done.
Qed.

Lemma keep_part_whitespace c : is_whitespace c = true → keep_part (String c "") = false.
Proof.
  intros H. destruct (whitespace_facts c H) as (_ & Hb & _).
  unfold keep_part.
  assert (trim (String c "") = "") as ->
    by (unfold trim; cbn [drop_whitespace]; by rewrite H).
  cbn [string_exists]. by rewrite Hb.
Qed.

Lemma keep_part_bracket c : is_bracket_char c = true → keep_part (String c "") = true.
Proof. intros H. unfold keep_part. cbn [string_exists]. rewrite H. by rewrite orb_true_r. Qed.

(** What the split and the filter make of one part and the text behind it,
    when that text is empty or begins with a blank. *)
Lemma split_part p rest :
  is_part p = true →
  filter (λ q, keep_part q = true) (split_from "" (p +:+ rest)) =
  p :: match rest with
       | "" => []
       | String c r =>
           if is_separator c
           then filter (λ q, keep_part q = true) (String c "" :: split_from "" r)
           else []
       end ∨
  ∃ c r, rest = String c r ∧ is_separator c = false.
Proof.
  intros Hp. destruct rest as [|c r].
  - left. rewrite append_nil_r.
    assert (∀ x, is_bracket_char x = true →
      filter (λ q, keep_part q = true) (split_from "" (String x "")) = [String x ""]) as HB.
    { intros x Hx. cbn [split_from]. rewrite (bracket_is_separator x Hx).
      rewrite !filter_cons, filter_nil.
      rewrite (decide_False (P := keep_part "" = true)) by done.
      by rewrite decide_True by (by apply keep_part_bracket). }
    assert (∀ w, w ≠ "" → string_forall plain_char w = true →
      filter (λ q, keep_part q = true) (split_from "" w) = [w]) as HW.
    { intros w Hne Hw. rewrite <- (append_nil_r w) at 1.
      rewrite split_from_plain by done. rewrite append_nil_l. cbn [split_from].
      rewrite filter_cons, filter_nil. by rewrite decide_True by (by apply keep_part_plain). }
    destruct p as [|x [|y p]]; [done| |by apply HW].
    cbn [is_part] in Hp. apply orb_prop in Hp as [Hx|Hx]; [by apply HB|].
    apply HW; [done|]. cbn. by rewrite Hx.
  - destruct (is_separator c) eqn:Hc; [left|right; eauto].
    assert (∀ x, is_bracket_char x = true →
      filter (λ q, keep_part q = true) (split_from "" (String x "" +:+ String c r))
      = String x "" :: filter (λ q, keep_part q = true) (String c "" :: split_from "" r)) as HB.
    { intros x Hx. rewrite append_cons, append_nil_l. cbn [split_from].
      rewrite (bracket_is_separator x Hx), Hc.
      rewrite (filter_cons _ ""), (decide_False (P := keep_part "" = true)) by done.
      rewrite (filter_cons _ (String x "")), decide_True by (by apply keep_part_bracket).
      reflexivity. }
    assert (∀ w, w ≠ "" → string_forall plain_char w = true →
      filter (λ q, keep_part q = true) (split_from "" (w +:+ String c r))
      = w :: filter (λ q, keep_part q = true) (String c "" :: split_from "" r)) as HW.
    { intros w Hne Hw. rewrite split_from_plain by done. rewrite append_nil_l.
      cbn [split_from]. rewrite Hc.
      by rewrite (filter_cons _ w), decide_True by (by apply keep_part_plain). }
    destruct p as [|x [|y p]]; [done| |by apply HW].
    cbn [is_part] in Hp. apply orb_prop in Hp as [Hx|Hx]; [by apply HB|].
    apply HW; [done|]. cbn. by rewrite Hx.
Qed.

Lemma is_part_chars p :
  is_part p = true →
  string_forall (λ c, negb (is_lower c)) p = true ∧
  string_forall (λ c, negb (Ascii.eqb c "/")) p = true.
Proof.
  assert (∀ w, string_forall plain_char w = true →
    string_forall (λ c, negb (is_lower c)) w = true ∧
    string_forall (λ c, negb (Ascii.eqb c "/")) w = true) as HW.
  { intros w Hw. split; (eapply string_forall_impl; [|exact Hw]); intros c Hc;
      unfold plain_char in Hc; apply andb_prop in Hc as [Hc H3];
      apply andb_prop in Hc as [Hc H2]; apply andb_prop in Hc as [H0 H1]; done. }
  intros Hp. destruct p as [|x [|y p]]; [done| |by apply HW].
  cbn [is_part] in Hp. apply orb_prop in Hp as [Hx|Hx].
  - destruct (bracket_facts x Hx) as [H1 H2]. cbn. by rewrite H1, H2.
  - apply HW. cbn. by rewrite Hx.
Qed.

Lemma is_part_seven_bit p : is_part p = true → seven_bit p = true.
Proof.
  assert (∀ w, string_forall plain_char w = true → seven_bit w = true) as HW.
  { intros w Hw. unfold seven_bit. eapply string_forall_impl; [|exact Hw].
    intros c Hc. unfold plain_char in Hc. apply andb_prop in Hc as [Hc _].
    apply andb_prop in Hc as [Hc _]. by apply andb_prop in Hc as [Hc _]. }
  intros Hp. destruct p as [|x [|y p]]; [done| |by apply HW].
  cbn [is_part] in Hp. apply orb_prop in Hp as [Hx|Hx].
  - by destruct x as [[] [] [] [] [] [] [] []].
  - apply HW. cbn. by rewrite Hx.
Qed.

Lemma join_seven_bit ws :
  Forall (λ p, is_part p = true) ws → seven_bit (String.concat " " ws) = true.
Proof.
  induction 1 as [|p ws Hp Hws IH]; [done|].
  destruct ws as [|q ws]; [by apply is_part_seven_bit|].
  change (String.concat " " (p :: q :: ws)) with (p +:+ " " +:+ String.concat " " (q :: ws)).
  apply is_part_seven_bit in Hp.
  unfold seven_bit in *. rewrite !string_forall_app, Hp, IH. done.
Qed.

(** Joining parts with single blanks and splitting again. *)
Lemma codeParts_join ws :
  Forall (λ p, is_part p = true) ws → codeParts (String.concat " " ws) = ws.
Proof.
  intros Hws. unfold codeParts.
  assert (string_forall (λ c, negb (is_lower c)) (String.concat " " ws) = true ∧
          string_forall (λ c, negb (Ascii.eqb c "/")) (String.concat " " ws) = true)
    as [HU HC].
  { induction Hws as [|p l Hp Hl IH]; [done|].
    destruct (is_part_chars p Hp) as [P1 P2]. destruct IH as [I1 I2].
    destruct l as [|q l]; [done|].
    change (String.concat " " (p :: q :: l))
      with (p +:+ " " +:+ String.concat " " (q :: l)).
    rewrite !string_forall_app, P1, P2, I1, I2. done. }
  rewrite (toUpperCase_fixed _ HU). unfold removeComments.
  rewrite (removeComments_fixed _ HC). unfold split_separators.
  induction Hws as [|p l Hp Hl IH]; [done|].
  destruct l as [|q l].
  - cbn [String.concat]. destruct (split_part p "" Hp) as [H|(c & r & H & _)]; [|done].
    by rewrite append_nil_r in H.
  - change (String.concat " " (p :: q :: l))
      with (p +:+ " " +:+ String.concat " " (q :: l)) in *.
    rewrite !string_forall_app in HU, HC.
    apply andb_prop in HU as [_ HU]. apply andb_prop in HU as [_ HU].
    apply andb_prop in HC as [_ HC]. apply andb_prop in HC as [_ HC].
    specialize (IH HU HC).
    destruct (split_part p (" " +:+ String.concat " " (q :: l)) Hp) as [H|(c & r & H & Hc)].
    + rewrite H. change (" " +:+ String.concat " " (q :: l))
        with (String " " (String.concat " " (q :: l))).
      change (is_separator " ") with true. cbn iota.
      rewrite filter_cons, decide_False by done. by rewrite IH.
    + change (" " +:+ String.concat " " (q :: l))
        with (String " " (String.concat " " (q :: l))) in H.
      injection H as <- _. done.
Qed.

Lemma codeParts_blank text :
  string_forall is_whitespace text = true → codeParts text = [].
Proof.
  intros H. unfold codeParts.
  assert (string_forall (λ c, negb (is_lower c)) text = true) as HU.
  { eapply string_forall_impl; [|exact H]. intros c Hc.
    destruct (whitespace_facts c Hc) as (_ & _ & -> & _). done. }
  assert (string_forall (λ c, negb (Ascii.eqb c "/")) text = true) as HC.
  { eapply string_forall_impl; [|exact H]. intros c Hc.
    destruct (whitespace_facts c Hc) as (_ & _ & _ & ->). done. }
  rewrite (toUpperCase_fixed _ HU). unfold removeComments.
  rewrite (removeComments_fixed _ HC). unfold split_separators. clear HU HC.
  induction text as [|c text IH]; [done|].
  cbn in H. apply andb_prop in H as [Hc Ht].
  cbn [split_from]. destruct (whitespace_facts c Hc) as (-> & _).
  rewrite (filter_cons _ ""), (decide_False (P := keep_part "" = true)) by done.
  rewrite filter_cons, decide_False by (by rewrite keep_part_whitespace).
  by apply IH.
Qed.

(** *** The statement compiler in full *)

(** *** Reports of the statement compiler *)

Lemma gen_command_errors st c :
  gen_errors (gen_command st c) = gen_errors st ++ gen_errors (gen_command (core st) c).
Proof.
  destruct st as [code last new open errs].
  unfold gen_command, core, emit, gen_error, set_last, set_isNewBlock, set_openIfBlock.
  cbn [JSCode lastInstruction isNewBlock openIfBlock gen_errors].
  repeat case_match; cbn [JSCode lastInstruction isNewBlock openIfBlock gen_errors];
    rewrite ?app_nil_r; done.
Qed.

Lemma gen_run_errors cmds : ∀ st,
  gen_errors (gen_run st cmds) = gen_errors st ++ gen_errors (gen_run (core st) cmds).
Proof.
  induction cmds as [|c cmds IH]; intros st.
  - cbn. by rewrite app_nil_r.
  - change (gen_run st (c :: cmds)) with (gen_run (gen_command st c) cmds).
    change (gen_run (core st) (c :: cmds)) with (gen_run (gen_command (core st) c) cmds).
    rewrite (IH (gen_command st c)), (IH (gen_command (core st) c)).
    destruct (gen_command_core st c) as [_ ->].
    rewrite gen_command_errors, <- app_assoc. done.
Qed.

(** A command that is reported changes nothing but the list of reports. *)
Lemma gen_command_reported st c :
  gen_errors (gen_command st c) ≠ gen_errors st →
  ∃ msg, gen_command st c = gen_error msg st.
Proof.
  destruct st as [code last new open errs].
  unfold gen_command, emit, gen_error, set_last, set_isNewBlock, set_openIfBlock.
  cbn [JSCode lastInstruction isNewBlock openIfBlock gen_errors].
  repeat case_match; cbn [JSCode lastInstruction isNewBlock openIfBlock gen_errors];
    intros Hneq; try done; eauto.
Qed.

(** *** The text that is installed *)

Lemma compile_networks_commands texts :
  Forall (λ c, lexer_command c = true) (compile_networks texts).1.1.
Proof.
  induction texts as [|t texts IH]; [constructor|].
  cbn [compile_networks]. destruct (compile_networks texts) as [[cmds invalid] errs].
  destruct (generateCodeStructure t) as [[c|] e] eqn:E; cbn [fst] in *; [|done].
  apply Forall_app. split; [|done]. by apply (generateCodeStructure_commands t c e).
Qed.

(** *** A statement that is never closed *)

Lemma condition_reports_nothing st c :
  core st = in_condition → condition_command c = true →
  gen_errors (gen_command st c) = gen_errors st.
Proof.
  intros Hst Hc. rewrite gen_command_errors, Hst.
  destruct c as [ty ins bn]. unfold condition_command in Hc.
  apply andb_prop in Hc as [Hl Hc]. cbn [type instruction] in Hc.
  unfold lexer_command in Hl. cbn [type instruction] in Hl.
  destruct ty as [|[|[|[|[|ty]]]]]; try done.
  - apply includes_elem in Hl.
    repeat (apply elem_of_cons in Hl as [->|Hl]); [..|by apply elem_of_nil in Hl];
      by rewrite app_nil_r.
  - by rewrite app_nil_r.
  - unfold gen_command, in_condition. cbn. case_match; by rewrite app_nil_r.
Qed.

Lemma open_condition_reports_nothing op cond :
  type op = 1%nat → Forall (λ c, condition_command c = true) cond →
  gen_errors (gen_run gen_init (op :: cond)) = [].
Proof.
  intros Hop Hcond.
  change (gen_run gen_init (op :: cond)) with (gen_run (gen_command gen_init op) cond).
  assert (core (gen_command gen_init op) = in_condition ∧
          gen_errors (gen_command gen_init op) = []) as [H0 H1].
  { destruct op as [ty ins bn]. cbn in Hop. subst ty.
    unfold gen_command, gen_init. cbn. by case_match. }
  revert H0 H1. generalize (gen_command gen_init op).
  induction Hcond as [|c cond Hc _ IH]; intros st Hst He; [done|].
  apply (IH (gen_command st c)).
  - by apply condition_keeps_open.
  - by rewrite condition_reports_nothing.
Qed.

(** *** A set or reset that opens a statement *)

Lemma bare_set_segment ins tgt n1 n2 b k :
  ins = "S" ∨ ins = "R" →
  validOperandsRegex tgt = true → operand_target tgt = Some (b, k) →
  k < max_safe_integer →
  closed [Command 2 ins n1; Command 3 tgt n2] ∧
  segment_compiles [Command 2 ins n1; Command 3 tgt n2]
    [SAssign b k (EBool (String.eqb ins "S"))].
Proof.
  intros Hins Hre Ht Hk.
  destruct (lex_register LStart tgt (or_introl eq_refl) Hre) as (b' & k' & Ht' & _ & Hlex).
  rewrite Ht in Ht'. injection Ht' as <- <-.
  change (owed LStart) with (@nil jstok) in Hlex. cbn [app] in Hlex.
  split; [by destruct Hins as [-> | ->]|].
  split.
  { constructor; [by destruct Hins as [-> | ->]|]. constructor; [|done].
    unfold lexer_command. by cbn. }
  split.
  { constructor; [done|]. constructor; [|done].
    unfold index_exact. cbn [type instruction]. rewrite Ht. by apply Z.ltb_lt. }
  assert (∃ t, bool_of_token t = Some (String.eqb ins "S") ∧
      tokenize (generateJSCode [Command 2 ins n1; Command 3 tgt n2]).1
      = Some (set_tokens b k t)) as (t & Hb & Htok).
  { destruct Hins as [-> | ->]; [exists TTrue|exists TFalse]; (split; [done|]);
      unfold tokenize, generateJSCode; cbn [fst].
    - change (JSCode (gen_run gen_init [Command 2 "S" n1; Command 3 tgt n2]))
        with (register_text tgt +:+ " = true; ").
      rewrite lex_chars_app, Hlex.
      assert (lex_chars LStart " = true; " = Some ([TEq; TTrue; TSemi], LStart)) as ->
        by (by vm_compute).
      cbn [lex_end]. unfold set_tokens. by rewrite app_nil_r.
    - change (JSCode (gen_run gen_init [Command 2 "R" n1; Command 3 tgt n2]))
        with (register_text tgt +:+ " = false; ").
      rewrite lex_chars_app, Hlex.
      assert (lex_chars LStart " = false; " = Some ([TEq; TFalse; TSemi], LStart)) as ->
        by (by vm_compute).
      cbn [lex_end]. unfold set_tokens. by rewrite app_nil_r. }
  exists (set_tokens b k t). split; [done|].
  unfold parse_program.
  apply (parse_stmts_refines (parse_stmt 1) _ 1).
  - apply parse_stmt_refines. lia.
  - unfold set_tokens. rewrite !length_app. cbn. lia.
  - unfold set_tokens at 1. rewrite register_tokens_head. cbn [app parse_stmts].
    pose proof (parse_set_statement 0 b k t _ [] Hb) as Hs.
    rewrite app_nil_r in Hs.
    unfold set_tokens in Hs. rewrite register_tokens_head in Hs. cbn [app] in Hs.
    by rewrite Hs.
Qed.

(** *** Loads in full *)

(** *** The outcome of a load *)

Lemma generateCodeStructure_some text :
  lexer_accepts text ↔ ∃ cmds, generateCodeStructure text = (Some cmds, []) ∧ cmds ≠ [].
Proof.
  pose proof (generateCodeStructure_result text) as [HE HA]. cbn zeta in HE, HA.
  unfold lexer_accepts. rewrite <- HA. split.
  - intros H. destruct (generateCodeStructure text) as [[cmds|] errs] eqn:E; [|done].
    cbn [fst snd] in *. apply HA in H as [Hk Hb].
    exists cmds. split.
    + f_equal. rewrite HE, decide_True by done.
      clear -Hk. induction Hk as [|p l Hp _ IH]; [done|].
      rewrite filter_cons, decide_False by congruence. exact IH.
    + unfold generateCodeStructure in E. destruct (invalidCommand _); [done|].
      injection E as <- _. intros X. by apply app_eq_nil in X as [_ ?].
  - intros (cmds & -> & _). done.
Qed.

Lemma generateCodeStructure_none text :
  ¬ lexer_accepts text → (generateCodeStructure text).1 = None.
Proof.
  intros H. pose proof (generateCodeStructure_result text) as [_ HA]. cbn zeta in HA.
  destruct (generateCodeStructure text) as [[cmds|] errs]; [|done].
  exfalso. apply H. apply HA. done.
Qed.

Lemma compile_networks_result texts :
  (compile_networks texts).2 = concat (map (λ t, (generateCodeStructure t).2) texts) ∧
  ((compile_networks texts).1.2 = false ↔ ∀ t, t ∈ texts → lexer_accepts t) ∧
  ((compile_networks texts).1.2 = false → texts ≠ [] → (compile_networks texts).1.1 ≠ []).
Proof.
  induction texts as [|t texts (IH1 & IH2 & IH3)].
  - split; [done|]. split; [|done]. split; [|done]. intros _ t Ht. by apply elem_of_nil in Ht.
  - cbn [compile_networks map concat].
    destruct (compile_networks texts) as [[cmds invalid] errs]. cbn [fst snd] in *.
    destruct (decide (lexer_accepts t)) as [Ha|Hn].
    + pose proof Ha as Ha'. apply generateCodeStructure_some in Ha' as (c & E & Hc).
      rewrite E. cbn [fst snd]. split; [by rewrite IH1|]. split.
      * rewrite IH2. split.
        -- intros H t' Ht'. apply elem_of_cons in Ht' as [->|Ht']; [done|by apply H].
        -- intros H t' Ht'. apply H. by right.
      * intros _ _ X. by apply app_eq_nil in X as [? _].
    + pose proof (generateCodeStructure_none t Hn) as E.
      destruct (generateCodeStructure t) as [[c|] e]; [done|]. cbn [fst snd].
      split; [by rewrite IH1|]. split; [|done]. split; [done|].
      intros H. exfalso. apply Hn. apply H. by left.
Qed.

#[global] Instance lexer_accepts_dec text : Decision (lexer_accepts text).
Proof. unfold lexer_accepts. apply _. Defined.

(** *** From the text of a statement to its scan *)

Lemma classify_logical st p :
  p ∈ validlogicalOperations → classify_part st p = push_command 1 p (BracketCount st) st.
Proof.
  intros H. repeat (apply elem_of_cons in H as [->|H]); [done..|by apply elem_of_nil in H].
Qed.

Lemma classify_instruction st p :
  p ∈ validInstructions → classify_part st p = push_command 2 p (BracketCount st) st.
Proof.
  intros H. repeat (apply elem_of_cons in H as [->|H]); [done..|by apply elem_of_nil in H].
Qed.

Lemma operand_is_no_keyword p :
  validOperandsRegex p = true →
  includes validlogicalOperations p = false ∧ includes validInstructions p = false ∧
  p ≠ "(" ∧ p ≠ ")" ∧ is_part p = true.
Proof.
  unfold validOperandsRegex. destruct p as [|c ds]; [done|].
  intros H. apply andb_prop in H as [H Hd]. apply andb_prop in H as [Hc Hne].
  destruct ds as [|d ds]; [done|]. cbn in Hd. apply andb_prop in Hd as [Hd Hds].
  assert (c = "A" ∨ c = "E" ∨ c = "M")%char as Hc'.
  { unfold includes, validOperands in Hc. cbn in Hc.
    destruct (Ascii.eqb_spec c "A") as [->|_]; [by left|].
    destruct (Ascii.eqb_spec c "E") as [->|_]; [by right; left|].
    destruct (Ascii.eqb_spec c "M") as [->|_]; [by right; right|]. done. }
  assert (string_forall plain_char (String d ds) = true) as Hp.
  { apply (string_forall_impl is_digit); [|by cbn; rewrite Hd].
    intros x. by destruct x as [[] [] [] [] [] [] [] []]. }
  destruct Hc' as [-> | [-> | ->]]; (repeat split; [done..|]);
    cbn [is_part string_forall]; cbn [string_forall] in Hp; by rewrite Hp.
Qed.

Lemma classify_operand st p :
  validOperandsRegex p = true → classify_part st p = push_command 3 p (BracketCount st) st.
Proof.
  intros H. destruct (operand_is_no_keyword p H) as (H1 & H2 & _).
  unfold classify_part. by rewrite H1, H2, H.
Qed.

Lemma keyword_is_part p :
  p ∈ validlogicalOperations ∨ p ∈ validInstructions → is_part p = true.
Proof.
  intros [H|H]; repeat (apply elem_of_cons in H as [->|H]); try done;
    by apply elem_of_nil in H.
Qed.

(** The lexer on a statement written with single blanks. *)
Lemma generateCodeStructure_statement op src ins tgt :
  op ∈ validlogicalOperations → ins ∈ validInstructions →
  validOperandsRegex src = true → validOperandsRegex tgt = true →
  generateCodeStructure (String.concat " " [op; src; ins; tgt]) =
  (Some (statement_commands (Command 1 op 0) [Command 3 src 1] ins 2 tgt 3
         ++ [Command 6 ";" 4]), []).
Proof.
  intros Hop Hins Hsrc Htgt.
  destruct (operand_is_no_keyword src Hsrc) as (_ & _ & _ & _ & Ps).
  destruct (operand_is_no_keyword tgt Htgt) as (_ & _ & _ & _ & Pt).
  unfold generateCodeStructure. rewrite codeParts_join.
  2:{ constructor; [apply keyword_is_part; by left|]. constructor; [done|].
      constructor; [apply keyword_is_part; by right|]. constructor; [done|constructor]. }
  unfold classify_all. cbn [fold_left].
  rewrite (classify_logical _ op Hop). cbn [push_command commandArray BracketCount
    invalidCommand lexer_errors app length].
  rewrite (classify_operand _ src Hsrc). cbn [push_command commandArray BracketCount
    invalidCommand lexer_errors app length].
  rewrite (classify_instruction _ ins Hins). cbn [push_command commandArray BracketCount
    invalidCommand lexer_errors app length].
  rewrite (classify_operand _ tgt Htgt). cbn [push_command commandArray BracketCount
    invalidCommand lexer_errors app length].
  done.
Qed.

Lemma simple_condition_tokens op src n1 n2 b k :
  op ≠ "NOT" → validOperandsRegex src = true → operand_target src = Some (b, k) →
  tokenize (generateJSCode [Command 1 op n1; Command 3 src n2]).1
  = Some (TIf :: TLParen :: register_tokens b k).
Proof.
  intros Hop Hre Ht.
  destruct (lex_register LStart src (or_introl eq_refl) Hre) as (b' & k' & Ht' & _ & Hlex).
  rewrite Ht in Ht'. injection Ht' as <- <-.
  change (owed LStart) with (@nil jstok) in Hlex. cbn [app] in Hlex.
  assert ((generateJSCode [Command 1 op n1; Command 3 src n2]).1
          = "if( " +:+ register_text src) as ->.
  { unfold generateJSCode, gen_run. cbn [fold_left fst].
    unfold gen_command at 2. cbn [type instruction Nat.eqb isNewBlock gen_init].
    destruct (String.eqb_spec op "NOT") as [?|_]; [done|]. reflexivity. }
  unfold tokenize. rewrite lex_chars_app.
  assert (lex_chars LStart "if( " = Some ([TIf; TLParen], LStart)) as -> by (by vm_compute).
  rewrite Hlex. cbn [lex_end]. by rewrite app_nil_r.
Qed.

Lemma statement_scan (op src ins tgt : string) (bs bt : bank) (ks kt : Z) (w : world) :
  op ∈ validlogicalOperations → op ≠ "NOT" → ins ∈ validInstructions →
  validOperandsRegex src = true → operand_target src = Some (bs, ks) →
  ks < max_safe_integer →
  validOperandsRegex tgt = true → operand_target tgt = Some (bt, kt) →
  kt < max_safe_integer →
  getState w = 1 → dataAvailable w = false →
  let text := String.concat " " [op; src; ins; tgt] in
  let w1 := (loadCode (Single text) w).2 in
  let r := registers (sps w) in
  let v := read_reg bs ks r in
  (loadCode (Single text) w).1 = (0, []) ∧
  (getOutputs w1).1 = Returned (Live BA) ∧
  registers (sps (getOutputs w1).2) =
    (if String.eqb ins "=" then write_reg bt kt (VBool (truthy v)) r
     else if truthy v then write_reg bt kt (VBool (String.eqb ins "S")) r
     else r) ∧
  getRuntimeCounter (getOutputs w1).2 = getRuntimeCounter w + 1.
Proof.
  intros Hop Hnot Hins Hsrc Hts Hks Htgt Htt Hkt Hstate Hdata text w1 r v.
  set (cmds := statement_commands (Command 1 op 0) [Command 3 src 1] ins 2 tgt 3).
  assert (Hgen : generateCodeStructure text = (Some (cmds ++ [Command 6 ";" 4]), []))
    by (by apply generateCodeStructure_statement).
  assert (Hlop : lexer_command (Command 1 op 0) = true).
  { unfold lexer_command. cbn [type instruction].
    repeat (apply elem_of_cons in Hop as [->|Hop]); [done..|by apply elem_of_nil in Hop]. }
  assert (Hcond : Forall (λ x, condition_command x = true) [Command 3 src 1]).
  { constructor; [|done]. unfold condition_command, lexer_command. cbn [type instruction].
    by rewrite Hsrc. }
  assert (Htok : tokenize (generateJSCode [Command 1 op 0; Command 3 src 1]).1
                 = Some (TIf :: TLParen :: register_tokens bs ks))
    by (by apply simple_condition_tokens).
  destruct (statement_code (Command 1 op 0) [Command 3 src 1] ins tgt 2 3 bt kt
              eq_refl Hcond Hins Htgt Htt) as [Hcl _].
  assert (Hstmt : segment_compiles cmds [closed_statement ins (EReg bs ks) bt kt]).
  { split; [by apply statement_lexer_commands|]. split.
    - unfold cmds, statement_commands. repeat constructor; unfold index_exact;
        cbn [type instruction]; rewrite ?Hts, ?Htt; try done; by apply Z.ltb_lt.
    - eexists. split; [by apply tokenize_statement|].
      apply parse_closed_program, parse_register_tokens. }
  assert (Hend : segment_compiles [Command 6 ";" 4] [SEmpty]).
  { split; [by repeat constructor|]. split; [by repeat constructor|].
    exists [TSemi]. split; by vm_compute. }
  destruct (segments_compose _ _ _ _ Hcl Hstmt Hend) as [Hall _].
  assert (Hrun : ∀ r0, eval_code (generateJSCode (cmds ++ [Command 6 ";" 4])).1 r0 =
    Done (if String.eqb ins "=" then write_reg bt kt (VBool (truthy (read_reg bs ks r0))) r0
          else if truthy (read_reg bs ks r0)
               then write_reg bt kt (VBool (String.eqb ins "S")) r0
               else r0)).
  { intros r0. etransitivity; [apply (segment_runs _ _ r0 Hall)|]. cbn [app exec_stmts].
    rewrite (exec_closed_statement ins (EReg bs ks) bt kt r0 (read_reg bs ks r0) Hins eq_refl).
    done. }
  assert (Hpart : (generateJSCode (cmds ++ [Command 6 ";" 4])).2 = []).
  { unfold generateJSCode. cbn [snd].
    change (cmds ++ [Command 6 ";" 4])
      with ((Command 1 op 0 :: [Command 3 src 1]) ++
            [Command 2 ins 2; Command 3 tgt 3; Command 6 ";" 4]).
    rewrite gen_run_app, gen_run_errors.
    rewrite (open_condition_reports_nothing (Command 1 op 0) [Command 3 src 1] eq_refl Hcond).
    rewrite (open_condition (Command 1 op 0) [Command 3 src 1] eq_refl Hcond).
    clear -Hins.
    repeat (apply elem_of_cons in Hins as [->|Hins]); [reflexivity..|by apply elem_of_nil in Hins]. }
  unfold w1, loadCode, load_front. rewrite Hgen.
  assert ((0 <? length (cmds ++ [Command 6 ";" 4]))%nat && negb false = true) as ->
    by (by unfold cmds, statement_commands).
  specialize (Hrun r). revert Hrun Hpart.
  destruct (generateJSCode (cmds ++ [Command 6 ";" 4])) as [code errs']. cbn [fst snd].
  intros Hrun ->. split; [done|].
  unfold getState, dataAvailable, getRuntimeCounter in *.
  unfold getOutputs. cbn [sps on_sps with_SPSCode with_codeInput state dataReady_private].
  rewrite Hdata, Hstate. cbn [negb andb Z.eqb Pos.eqb].
  unfold SPSRuntime. cbn. fold r. rewrite Hrun. cbn. done.
Qed.

(** A network of one statement with one operand as its condition. *)
Lemma statement_network op src ins tgt bs ks bt kt :
  op ∈ validlogicalOperations → op ≠ "NOT" → ins ∈ validInstructions →
  validOperandsRegex src = true → operand_target src = Some (bs, ks) →
  ks < max_safe_integer →
  validOperandsRegex tgt = true → operand_target tgt = Some (bt, kt) →
  kt < max_safe_integer →
  compiles_to (String.concat " " [op; src; ins; tgt])
    [closed_statement ins (EReg bs ks) bt kt; SEmpty].
Proof.
  intros Hop Hnot Hins Hsrc Hts Hks Htgt Htt Hkt.
  set (cmds := statement_commands (Command 1 op 0) [Command 3 src 1] ins 2 tgt 3).
  assert (Hlop : lexer_command (Command 1 op 0) = true).
  { unfold lexer_command. cbn [type instruction]. clear -Hop.
    repeat (apply elem_of_cons in Hop as [->|Hop]); [done..|by apply elem_of_nil in Hop]. }
  assert (Hcond : Forall (λ x, condition_command x = true) [Command 3 src 1]).
  { constructor; [|done]. unfold condition_command, lexer_command. cbn [type instruction].
    by rewrite Hsrc. }
  assert (Htok : tokenize (generateJSCode [Command 1 op 0; Command 3 src 1]).1
                 = Some (TIf :: TLParen :: register_tokens bs ks))
    by (by apply simple_condition_tokens).
  destruct (statement_code (Command 1 op 0) [Command 3 src 1] ins tgt 2 3 bt kt
              eq_refl Hcond Hins Htgt Htt) as [Hcl _].
  assert (Hstmt : segment_compiles cmds [closed_statement ins (EReg bs ks) bt kt]).
  { split; [by apply statement_lexer_commands|]. split.
    - unfold cmds, statement_commands. repeat constructor; unfold index_exact;
        cbn [type instruction]; rewrite ?Hts, ?Htt; try done; by apply Z.ltb_lt.
    - eexists. split; [by apply tokenize_statement|].
      apply parse_closed_program, parse_register_tokens. }
  assert (Hend : segment_compiles [Command 6 ";" 4] [SEmpty]).
  { split; [by repeat constructor|]. split; [by repeat constructor|].
    exists [TSemi]. split; by vm_compute. }
  destruct (segments_compose _ _ _ _ Hcl Hstmt Hend) as [(_ & Hx & ts & Ht & Hp) Hclosed].
  destruct (operand_is_no_keyword src Hsrc) as (_ & _ & _ & _ & Ps).
  destruct (operand_is_no_keyword tgt Htgt) as (_ & _ & _ & _ & Pt).
  exists (cmds ++ [Command 6 ";" 4]), ts. split.
  { apply join_seven_bit.
    constructor; [apply keyword_is_part; by left|]. constructor; [done|].
    constructor; [apply keyword_is_part; by right|]. constructor; [done|constructor]. }
  split; [by apply generateCodeStructure_statement|].
  split; [done|]. split; [by apply Hclosed|]. done.
Qed.

(** *** Conditions of two operands *)

(** *** A condition that throws *)

Lemma eval_expr_error : ∀ c r x, eval_expr c r = inr x → x = TypeError.
Proof.
  fix IH 1. intros c r x. destruct c as [b k|v|e|a b|a b|a b|f arg]; cbn [eval_expr]; try done.
  - destruct (eval_expr e r) eqn:E; [done|]. intros [= <-]. by apply (IH e r).
  - destruct (eval_expr a r) eqn:Ea; [|intros [= <-]; by apply (IH a r)].
    destruct (eval_expr b r) eqn:Eb; [done|intros [= <-]; by apply (IH b r)].
  - destruct (eval_expr a r) as [va|] eqn:Ea; [|intros [= <-]; by apply (IH a r)].
    destruct (truthy va); [|done]. apply (IH b r).
  - destruct (eval_expr a r) as [va|] eqn:Ea; [|intros [= <-]; by apply (IH a r)].
    destruct (truthy va); [done|]. apply (IH b r).
  - destruct (eval_expr f r) eqn:Ef; [|intros [= <-]; by apply (IH f r)].
    destruct arg as [a|]; [|by intros [= <-]].
    destruct (eval_expr a r) eqn:Ea; [by intros [= <-]|].
    intros [= <-]. by apply (IH a r).
Qed.

Lemma exec_closed_statement_raises ins c b k r x :
  eval_expr c r = inr x → exec_stmt (closed_statement ins c b k) r = Raised x r.
Proof.
  intros H. unfold closed_statement. repeat case_match; cbn [exec_stmt]; by rewrite H.
Qed.

(** *** Conditions of two operands *)

Lemma key_tokens_cases k :
  (∃ n, k = Z.of_N n ∧ key_tokens k = [TNum n]) ∨
  (∃ n, k = - Z.of_N n ∧ key_tokens k = [TMinus; TNum n]).
Proof.
  unfold key_tokens. destruct (k <? 0) eqn:E.
  - apply Z.ltb_lt in E. right. exists (Z.to_N (- k)). split; [lia|done].
  - apply Z.ltb_ge in E. left. exists (Z.to_N k). split; [lia|done].
Qed.

Lemma parse_two_operands o b1 k1 b2 k2 :
  o ∈ validlogicalOperations → o ≠ "NOT" →
  parse_expression (register_tokens b1 k1 ++ operator_tokens o ++ register_tokens b2 k2)
  = Some (operator_expression o (EReg b1 k1) (EReg b2 k2), []).
Proof.
  intros Ho Hn.
  assert (o = "U" ∨ o = "O" ∨ o = "X" ∨ o = "UN" ∨ o = "ON") as Ho'.
  { repeat (apply elem_of_cons in Ho as [->|Ho]); try tauto. by apply elem_of_nil in Ho. }
  unfold register_tokens.
  destruct (key_tokens_cases k1) as [(m1 & -> & ->)|(m1 & -> & ->)];
    destruct (key_tokens_cases k2) as [(m2 & -> & ->)|(m2 & -> & ->)];
    destruct Ho' as [-> | [-> | [-> | [-> | ->]]]]; reflexivity.
Qed.

Lemma operator_value o e1 e2 r v1 v2 :
  o ∈ validlogicalOperations → o ≠ "NOT" →
  eval_expr e1 r = inl v1 → eval_expr e2 r = inl v2 →
  ∃ v, eval_expr (operator_expression o e1 e2) r = inl v ∧
       truthy v = operator_truth o v1 v2.
Proof.
  intros Ho Hn H1 H2.
  assert (o = "U" ∨ o = "O" ∨ o = "X" ∨ o = "UN" ∨ o = "ON") as Ho'.
  { repeat (apply elem_of_cons in Ho as [->|Ho]); try tauto. by apply elem_of_nil in Ho. }
  destruct Ho' as [-> | [-> | [-> | [-> | ->]]]];
    unfold operator_expression, operator_truth; cbn [String.eqb Ascii.eqb Bool.eqb];
    cbn [eval_expr]; rewrite H1, ?H2; destruct (truthy v1) eqn:T1; eauto;
    cbn [andb orb]; eauto.
Qed.

Lemma two_operand_tokens op s1 o s2 n0 n1 n2 n3 b1 k1 b2 k2 :
  op ≠ "NOT" → o ∈ validlogicalOperations → o ≠ "NOT" →
  validOperandsRegex s1 = true → operand_target s1 = Some (b1, k1) →
  validOperandsRegex s2 = true → operand_target s2 = Some (b2, k2) →
  tokenize (generateJSCode
              [Command 1 op n0; Command 3 s1 n1; Command 1 o n2; Command 3 s2 n3]).1
  = Some (TIf :: TLParen ::
            register_tokens b1 k1 ++ operator_tokens o ++ register_tokens b2 k2).
Proof.
  intros Hop Ho Hn Hs1 Ht1 Hs2 Ht2.
  assert (o = "U" ∨ o = "O" ∨ o = "X" ∨ o = "UN" ∨ o = "ON") as Ho'.
  { repeat (apply elem_of_cons in Ho as [->|Ho]); try tauto. by apply elem_of_nil in Ho. }
  destruct (lex_register LStart s1 (or_introl eq_refl) Hs1) as (b' & k' & Ht' & _ & Hlex1).
  rewrite Ht1 in Ht'. injection Ht' as <- <-.
  change (owed LStart) with (@nil jstok) in Hlex1. cbn [app] in Hlex1.
  assert (∃ mid emitted ls,
    (generateJSCode [Command 1 op n0; Command 3 s1 n1; Command 1 o n2; Command 3 s2 n3]).1
      = "if( " +:+ register_text s1 +:+ mid +:+ register_text s2 ∧
    lex_chars LStart mid = Some (emitted, ls) ∧ lex_ready ls ∧
    emitted ++ owed ls = operator_tokens o) as (mid & emitted & ls & -> & Hmid & Hls & Hto).
  { assert (∀ m, (m = " && " ∨ m = " || " ∨ m = " !==" ∨ m = " && !" ∨ m = " || !") →
      gen_command (gen_run gen_init [Command 1 op n0; Command 3 s1 n1]) (Command 1 o n2)
        = emit m (gen_run gen_init [Command 1 op n0; Command 3 s1 n1]) →
      (generateJSCode [Command 1 op n0; Command 3 s1 n1; Command 1 o n2; Command 3 s2 n3]).1
        = "if( " +:+ register_text s1 +:+ m +:+ register_text s2) as G.
    { intros m Hm E. unfold generateJSCode. cbn [fst].
      change [Command 1 op n0; Command 3 s1 n1; Command 1 o n2; Command 3 s2 n3]
        with ([Command 1 op n0; Command 3 s1 n1] ++ [Command 1 o n2] ++ [Command 3 s2 n3]).
      rewrite !gen_run_app.
      change (gen_run (gen_run gen_init [Command 1 op n0; Command 3 s1 n1]) [Command 1 o n2])
        with (gen_command (gen_run gen_init [Command 1 op n0; Command 3 s1 n1])
                (Command 1 o n2)).
      rewrite E.
      assert (gen_run gen_init [Command 1 op n0; Command 3 s1 n1]
              = GenState ("if( " +:+ register_text s1) "" false true []) as ->.
      { unfold gen_run. cbn [fold_left]. unfold gen_command at 2.
        cbn [type instruction Nat.eqb isNewBlock gen_init].
        destruct (String.eqb_spec op "NOT") as [?|_]; [done|]. reflexivity. }
      cbn. by rewrite !append_assoc. }
    assert (gen_run gen_init [Command 1 op n0; Command 3 s1 n1]
            = GenState ("if( " +:+ register_text s1) "" false true []) as E0.
    { unfold gen_run. cbn [fold_left]. unfold gen_command at 2.
      cbn [type instruction Nat.eqb isNewBlock gen_init].
      destruct (String.eqb_spec op "NOT") as [?|_]; [done|]. reflexivity. }
    destruct Ho' as [-> | [-> | [-> | [-> | ->]]]].
    - exists " && ", [TAnd], LStart. split; [apply G; [tauto|by rewrite E0]|].
      split; [by vm_compute|]. split; [by left|done].
    - exists " || ", [TOr], LStart. split; [apply G; [tauto|by rewrite E0]|].
      split; [by vm_compute|]. split; [by left|done].
    - exists " !==", [], (LPunct "!=="). split; [apply G; [tauto|by rewrite E0]|].
      split; [by vm_compute|]. split; [by right; right|done].
    - exists " && !", [TAnd], (LPunct "!"). split; [apply G; [tauto|by rewrite E0]|].
      split; [by vm_compute|]. split; [by right; left|done].
    - exists " || !", [TOr], (LPunct "!"). split; [apply G; [tauto|by rewrite E0]|].
      split; [by vm_compute|]. split; [by right; left|done]. }
  destruct (lex_register ls s2 Hls Hs2) as (b' & k' & Ht' & _ & Hlex2).
  rewrite Ht2 in Ht'. injection Ht' as <- <-.
  unfold tokenize. rewrite lex_chars_app.
  assert (lex_chars LStart "if( " = Some ([TIf; TLParen], LStart)) as -> by (by vm_compute).
  rewrite lex_chars_app, Hlex1, lex_chars_app, Hmid, Hlex2. cbn [lex_end].
  rewrite app_nil_r, <- Hto. cbn [app]. by rewrite <- !app_assoc.
Qed.

Lemma two_operand_scan
    (op s1 o s2 ins tgt : string) (b1 b2 bt : bank) (k1 k2 kt : Z) (r : banks) :
  op ∈ validlogicalOperations → op ≠ "NOT" →
  o ∈ validlogicalOperations → o ≠ "NOT" → ins ∈ validInstructions →
  validOperandsRegex s1 = true → operand_target s1 = Some (b1, k1) → k1 < max_safe_integer →
  validOperandsRegex s2 = true → operand_target s2 = Some (b2, k2) → k2 < max_safe_integer →
  validOperandsRegex tgt = true → operand_target tgt = Some (bt, kt) → kt < max_safe_integer →
  let cmds := statement_commands (Command 1 op 0)
                [Command 3 s1 1; Command 1 o 2; Command 3 s2 3] ins 4 tgt 5
              ++ [Command 6 ";" 6] in
  let t := operator_truth o (read_reg b1 k1 r) (read_reg b2 k2 r) in
  (generateJSCode cmds).2 = [] ∧
  eval_code (generateJSCode cmds).1 r =
    Done (if String.eqb ins "=" then write_reg bt kt (VBool t) r
          else if t then write_reg bt kt (VBool (String.eqb ins "S")) r
          else r).
Proof.
  intros Hop Hnot Ho Hon Hins Hs1 Ht1 Hk1 Hs2 Ht2 Hk2 Htgt Htt Hkt cmds t.
  set (opc := Command 1 op 0).
  set (cond := [Command 3 s1 1; Command 1 o 2; Command 3 s2 3]).
  assert (Hlop : lexer_command opc = true).
  { unfold lexer_command. cbn [type instruction opc].
    clear -Hop. repeat (apply elem_of_cons in Hop as [->|Hop]); [done..|by apply elem_of_nil in Hop]. }
  assert (Hlo : lexer_command (Command 1 o 2) = true).
  { unfold lexer_command. cbn [type instruction].
    clear -Ho. repeat (apply elem_of_cons in Ho as [->|Ho]); [done..|by apply elem_of_nil in Ho]. }
  assert (Hcond : Forall (λ x, condition_command x = true) cond).
  { unfold cond. constructor; [|constructor; [|constructor; [|done]]];
      unfold condition_command; rewrite ?Hlo; unfold lexer_command; cbn [type instruction];
      by rewrite ?Hs1, ?Hs2. }
  assert (Htok : tokenize (generateJSCode (opc :: cond)).1
                 = Some (TIf :: TLParen ::
                           register_tokens b1 k1 ++ operator_tokens o ++ register_tokens b2 k2))
    by (by apply two_operand_tokens).
  pose proof (parse_two_operands o b1 k1 b2 k2 Ho Hon) as Hparse.
  destruct (operator_value o (EReg b1 k1) (EReg b2 k2) r _ _ Ho Hon eq_refl eq_refl)
    as (v & Hv & Htruth).
  fold t in Htruth.
  destruct (statement_code opc cond ins tgt 4 5 bt kt eq_refl Hcond Hins Htgt Htt) as [Hcl _].
  assert (Hstmt : segment_compiles (statement_commands opc cond ins 4 tgt 5)
            [closed_statement ins (operator_expression o (EReg b1 k1) (EReg b2 k2)) bt kt]).
  { split; [by apply statement_lexer_commands|]. split.
    - unfold statement_commands, cond, opc. repeat constructor; unfold index_exact;
        cbn [type instruction]; rewrite ?Ht1, ?Ht2, ?Htt; try done; by apply Z.ltb_lt.
    - eexists. split; [by apply tokenize_statement|].
      by apply parse_closed_program. }
  assert (Hend : segment_compiles [Command 6 ";" 6] [SEmpty]).
  { split; [by repeat constructor|]. split; [by repeat constructor|].
    exists [TSemi]. split; by vm_compute. }
  destruct (segments_compose _ _ _ _ Hcl Hstmt Hend) as [Hall _].
  split.
  - unfold generateJSCode. cbn [snd].
    change cmds with ((opc :: cond) ++ [Command 2 ins 4; Command 3 tgt 5; Command 6 ";" 6]).
    rewrite gen_run_app, gen_run_errors.
    rewrite (open_condition_reports_nothing opc cond eq_refl Hcond).
    rewrite (open_condition opc cond eq_refl Hcond).
    clear -Hins.
    repeat (apply elem_of_cons in Hins as [->|Hins]); [reflexivity..|by apply elem_of_nil in Hins].
  - etransitivity; [apply (segment_runs _ _ r Hall)|]. cbn [app exec_stmts].
    rewrite (exec_closed_statement ins _ bt kt r v Hins Hv). cbn [and_then exec_stmt].
    by rewrite Htruth.
Qed.

(** *** Scans of loaded networks *)

(** The text an opening set emits for its target, run on its own. *)
Lemma set_text_stores part b k r :
  validOperandsRegex part = true → operand_target part = Some (b, k) →
  k < max_safe_integer →
  ∃ r2, eval_code (register_text part +:+ " = true; ") r = Done r2 ∧
        stored b k (VBool true) r r2.
Proof.
  intros Hre Ht Hk.
  destruct (bare_set_segment "S" part 0 1 b k (or_introl eq_refl) Hre Ht Hk) as [_ Hseg].
  pose proof (segment_runs _ _ r Hseg) as Hrun.
  change (generateJSCode [Command 2 "S" 0; Command 3 part 1]).1
    with (register_text part +:+ " = true; ") in Hrun.
  exists (write_reg b k (VBool true) r). split; [by rewrite Hrun|apply write_reg_stored].
Qed.

(** What a load of networks that compile installs, and the scan it gives. *)
Lemma networks_scan texts progs w :
  texts ≠ [] → Forall2 compiles_to texts progs →
  (loadCode (Networks texts) w).1.1 = 0 ∧
  registers (sps (loadCode (Networks texts) w).2) = registers (sps w) ∧
  getRuntimeCounter (loadCode (Networks texts) w).2 = getRuntimeCounter w ∧
  ∃ code, SPSCode (sps (loadCode (Networks texts) w).2) = Some code ∧
    ∀ r, eval_code code r = exec_stmts (concat progs) r.
Proof.
  intros Hne Hall.
  destruct (networks_compose texts progs Hall) as (cmds & ts & Hcomp & _ & Htok & Hparse & Hcmds).
  unfold loadCode, load_front. rewrite Hcomp.
  destruct cmds as [|c cmds]; [by destruct (Hcmds Hne)|].
  cbn [length Nat.ltb Nat.leb andb negb].
  destruct (generateJSCode (c :: cmds)) as [code errs] eqn:E. cbn [fst] in Htok.
  split; [done|]. split; [done|]. split; [done|]. exists code. split; [done|]. intros r.
  unfold eval_code. by rewrite Htok, Hparse.
Qed.

Lemma exec_stmts_raised sa sb r x ra :
  exec_stmts sa r = Raised x ra → exec_stmts (sa ++ sb) r = Raised x ra.
Proof. intros H. by rewrite exec_stmts_app, H. Qed.

(** A set in one network and a read of its target in the next. *)
Lemma set_then_read opa a opb m t ba ka bm km bt kt w0 :
  opa ∈ validlogicalOperations → opa ≠ "NOT" →
  opb ∈ validlogicalOperations → opb ≠ "NOT" →
  validOperandsRegex a = true → operand_target a = Some (ba, ka) → ka < max_safe_integer →
  validOperandsRegex m = true → operand_target m = Some (bm, km) → km < max_safe_integer →
  validOperandsRegex t = true → operand_target t = Some (bt, kt) → kt < max_safe_integer →
  truthy (read_reg ba ka (registers (sps w0))) = true →
  let w2 := (loadCode (Networks [String.concat " " [opa; a; "S"; m];
                                 String.concat " " [opb; m; "="; t]]) w0).2 in
  (SPSRuntime w2).1 = Returned tt ∧
  read_reg bm km (registers (sps (SPSRuntime w2).2)) = VBool true ∧
  read_reg bt kt (registers (sps (SPSRuntime w2).2)) = VBool true.
Proof.
  intros Hopa Hnota Hopb Hnotb Ha Hta Hka Hm Htm Hkm Ht Htt Hkt Htrue w2.
  assert (HS : "S" ∈ validInstructions) by (right; left).
  assert (HE : "=" ∈ validInstructions) by left.
  pose proof (statement_network opa a "S" m ba ka bm km Hopa Hnota HS Ha Hta Hka Hm Htm Hkm)
    as C1.
  pose proof (statement_network opb m "=" t bm km bt kt Hopb Hnotb HE Hm Htm Hkm Ht Htt Hkt)
    as C2.
  assert (Hne : [String.concat " " [opa; a; "S"; m]; String.concat " " [opb; m; "="; t]] ≠ [])
    by discriminate.
  destruct (networks_scan _ _ w0 Hne
              (List.Forall2_cons _ _ C1 (List.Forall2_cons _ _ C2 (List.Forall2_nil _))))
    as (_ & Hreg & _ & code & Hcode & Hrun).
  fold w2 in Hreg, Hcode.
  destruct (SPSRuntime_scan w2 code Hcode) as (Hbanks & _ & Hret & _).
  rewrite Hrun, Hreg in Hbanks, Hret.
  set (r := registers (sps w0)) in *.
  set (r1 := write_reg bm km (VBool true) r).
  set (r2 := write_reg bt kt (VBool true) r1).
  assert (Hm1 : read_reg bm km r1 = VBool true) by apply write_reg_stored.
  assert (Hscan : exec_stmts
            (concat [[closed_statement "S" (EReg ba ka) bm km; SEmpty];
                     [closed_statement "=" (EReg bm km) bt kt; SEmpty]]) r = Done r2).
  { cbn [concat app exec_stmts].
    rewrite (exec_closed_statement "S" (EReg ba ka) bm km r (read_reg ba ka r) HS eq_refl).
    rewrite Htrue. cbn [String.eqb Ascii.eqb Bool.eqb and_then exec_stmt]. fold r1.
    rewrite (exec_closed_statement "=" (EReg bm km) bt kt r1 (read_reg bm km r1) HE eq_refl).
    rewrite Hm1. done. }
  rewrite Hscan in Hbanks, Hret. cbn [outcome_banks] in Hbanks. rewrite Hbanks.
  split; [apply Hret; eauto|].
  destruct (write_reg_stored bt kt (VBool true) r1) as [Ht2 Hother].
  fold r2 in Ht2, Hother. split; [|done].
  destruct (decide ((bm, km) = (bt, kt))) as [E|Hneq].
  - injection E as -> ->. exact Ht2.
  - rewrite (Hother bm km Hneq). exact Hm1.
Qed.

(* ===================================================================== *)
(** ** The properties of the specification *)
(* ===================================================================== *)

(** Claim C1 fails as stated.  For the text [= A1] the statement compiler
    reports a missing condition (and an operand that cannot open a
    statement) through the error callback, yet [loadCode] returns 0 and
    installs the text it generated.  For [U E1], a statement still open at
    the end of the network, nothing is reported at all and the load also
    returns 0. *)
Lemma loadCode_succeeds_despite_reported_errors :
  (let '(ret, errs, w') := loadCode (Single "= A1") (new_world 2 2 2) in
   ret = 0 ∧
   errs = ["generateJSCode >> Missing logical Operand before =: =";
           "generateJSCode >> Not valid as first command: A1"] ∧
   SPSCode (sps w') = Some "; // End of Network
") ∧
  (let '(ret, errs, w') := loadCode (Single "U E1") (new_world 2 2 2) in
   ret = 0 ∧ errs = [] ∧
   SPSCode (sps w') = Some "if( this.#E[0]; // End of Network
").
Proof. split; by vm_compute. Qed.

(** Claim C1, as amended.  For input in 7-bit text: whenever some network
    of the input holds an invalid token or has an unbalanced bracket count,
    [loadCode] hands at
    least one message to the error callback, returns -1 and leaves the empty
    program installed; so it returns 0 only when no network has such an
    error.  The end-of-network command never reports anything: a statement
    left open at the end of a network is not an error of the compiler. *)

Theorem loadCode_fails_on_lexical_errors (i : code_input) (w : world) :
  (∀ t, t ∈ texts_of i → seven_bit t = true) →
  has_lexical_error i →
  (let '(ret, errs, w') := loadCode i w in
   ret = -1 ∧ errs ≠ [] ∧ SPSCode (sps w') = Some "") ∧
  (∀ st n, gen_errors (gen_command st (Command 6 ";" n)) = gen_errors st).
Proof.
  intros _ H. split; [by apply loadCode_lexical_error|]. intros st n.
  by rewrite end_of_network_reports_nothing.
Qed.

(** The amended claim C1 at a two-network input whose second network has
    an unknown token and an unclosed bracket. *)
Lemma loadCode_fails_on_lexical_errors_witness :
  let '(ret, errs, w') := loadCode (Networks ["U E1 = A1"; "U ( E1 FOO"]) (new_world 2 2 2) in
  ret = -1 ∧ errs ≠ [] ∧ SPSCode (sps w') = Some "".
Proof.
  apply (loadCode_fails_on_lexical_errors (Networks ["U E1 = A1"; "U ( E1 FOO"])
           (new_world 2 2 2)).
  - intros t Ht. apply elem_of_cons in Ht as [->|Ht]; [reflexivity|].
    apply elem_of_cons in Ht as [->|Ht]; [reflexivity|]. by apply elem_of_nil in Ht.
  - exists "U ( E1 FOO". split.
    + right. left.
    + left. exists "FOO". split; [|reflexivity].
      vm_compute. right. right. right. left.
Defined.

(** Claim C2 fails as stated.  After [U E1 = A1] was loaded, loading the
    unbalanced [U ( E1] returns -1 and the installed program is the empty
    string, no longer the program of the first load. *)
Lemma failed_load_clears_previous_program :
  let w1 := (loadCode (Single "U E1 = A1") (new_world 2 2 2)).2 in
  let '(ret, errs, w2) := loadCode (Single "U ( E1") w1 in
  ret = -1 ∧
  SPSCode (sps w1) =
    Some "if( this.#E[0]) { this.#A[0] = true; } else { this.#A[0] = false; }
; // End of Network
" ∧
  SPSCode (sps w2) = Some "" ∧
  SPSCode (sps w2) ≠ SPSCode (sps w1).
Proof. by vm_compute. Qed.

(** Claim C2, as amended.  A call of [loadCode] that returns -1 replaces the
    installed program by the empty text, whatever was installed before; the
    register banks and the run state are as before, and a scan of the empty
    program changes no register. *)
Theorem failed_load_installs_empty_program (i : code_input) (w : world) :
  (loadCode i w).1.1 = -1 →
  let w' := (loadCode i w).2 in
  SPSCode (sps w') = Some "" ∧
  registers (sps w') = registers (sps w) ∧
  state (sps w') = state (sps w) ∧
  ∀ r, eval_code "" r = Done r.
Proof.
  intros H. destruct (loadCode_fields i w) as (_ & _ & _ & _ & Hr & Hs & _).
  split; [|done].
  unfold loadCode in *.
  destruct (load_front i) as [[[cmds|] invalid] errs]; [|done].
  destruct ((0 <? length cmds)%nat && negb invalid); [|done].
  by destruct (generateJSCode cmds).
Qed.

(** The amended claim C2 for a failing load after a successful one. *)
Lemma failed_load_installs_empty_program_witness :
  let w := (loadCode (Single "U E1 = A1") (new_world 2 2 2)).2 in
  let w' := (loadCode (Single "U E1 FOO") w).2 in
  SPSCode (sps w') = Some "" ∧
  registers (sps w') = registers (sps w) ∧
  state (sps w') = state (sps w) ∧
  ∀ r, eval_code "" r = Done r.
Proof.
  intros w.
  apply (failed_load_installs_empty_program (Single "U E1 FOO") w).
  vm_compute. reflexivity.
Defined.

(** Claim C3 at a new instance.  [start()] returns 0 and the state becomes
    1 (Running), but [#changeSPSState] calls [setInterval] only when
    [#runtimeTimer] already holds a timer, which nothing ever assigned: no
    interval is armed, and a period of the host's timers runs no scan. *)
Theorem start_arms_no_scheduler :
  let '(ret, w) := start (new_world 64 64 64) in
  ret = 0 ∧ getState w = 1 ∧
  runtimeTimer (sps w) = None ∧ intervals (env w) = [] ∧
  timer_tick w = w ∧ getRuntimeCounter (timer_tick w) = 0.
Proof. by vm_compute. Qed.



(** Claim C5 fails as stated.  The networks [U E1 ( E2 ) = A1] and
    [U E1 = A2] each compile to statements and load with 0 and no message.
    With both inputs on, the scan that [getOutputs()] triggers throws a
    [TypeError] in the condition of the first network, which calls the
    value of [E1]; the banks are as before the scan and [A2] still reads
    [0], though the second network loaded alone sets it: not every
    statement has run. *)
Lemma networks_stop_at_throwing_condition :
  let texts := ["U E1 ( E2 ) = A1"; "U E1 = A2"] in
  let progs :=
    [[SIf (ECall (EReg BE 0) (Some (EReg BE 1))) (SBlock [SAssign BA 0 (EBool true)])
        (Some (SBlock [SAssign BA 0 (EBool false)])); SEmpty];
     [SIf (EReg BE 0) (SBlock [SAssign BA 1 (EBool true)])
        (Some (SBlock [SAssign BA 1 (EBool false)])); SEmpty]] in
  let w := after 2 2 2 [CallSetInputs [VNum 1; VNum 1]; CallStart] in
  let w1 := (loadCode (Networks texts) w).2 in
  Forall2 compiles_to texts progs ∧
  (loadCode (Networks texts) w).1 = (0, []) ∧
  (getOutputs w1).1 = Thrown TypeError ∧
  getRuntimeCounter (getOutputs w1).2 = getRuntimeCounter w + 1 ∧
  registers (sps (getOutputs w1).2) = registers (sps w) ∧
  read_reg BA 1 (registers (sps (getOutputs w1).2)) = VNum 0 ∧
  read_reg BA 1 (registers (sps (getOutputs (loadCode (Single "U E1 = A2") w).2).2))
  = VBool true.
Proof.
  split.
  { apply List.Forall2_cons; [|apply List.Forall2_cons; [|apply List.Forall2_nil]].
    - eexists _, _. split; [vm_compute; reflexivity|]. split; [vm_compute; reflexivity|].
      split; [repeat first [apply List.Forall_nil
                           |apply List.Forall_cons; [vm_compute; reflexivity|]]|].
      split; [vm_compute; reflexivity|].
      split; [vm_compute; reflexivity|vm_compute; reflexivity].
    - eexists _, _. split; [vm_compute; reflexivity|]. split; [vm_compute; reflexivity|].
      split; [repeat first [apply List.Forall_nil
                           |apply List.Forall_cons; [vm_compute; reflexivity|]]|].
      split; [vm_compute; reflexivity|].
      split; [vm_compute; reflexivity|vm_compute; reflexivity]. }
  split; [vm_compute; reflexivity|]. split; [vm_compute; reflexivity|].
  split; [vm_compute; reflexivity|]. split; [vm_compute; reflexivity|].
  split; vm_compute; reflexivity.
Qed.

(** Claim C5, as amended.  When every network of a sequence is 7-bit text
    that compiles, on its own, to a list of statements, loading the
    sequence returns 0, and the scan [#SPSRuntime] of the installed program
    runs the statements of all networks as one list in the order the
    networks were supplied, on the banks of the instance: network by
    network, each statement starting from the banks its predecessor left.
    The scan counts once, leaves the banks the list ends with, returns
    normally exactly when no statement throws, and otherwise throws the
    error of the first statement that does.  Once the statements before
    any place of the list have run, the scan is the run of the remaining
    statements from the banks those left; once they have thrown, the scan
    ends with that error and those banks, and the remaining statements do
    not run.  In particular, for a network [<op> a S m] followed by
    [<op'> m = t] with [a] truthy, the scan returns normally and both [m]
    and [t] read [true] afterwards: the second network sees the write of
    the first within the same scan. *)
Theorem networks_run_in_load_order (texts : list string) (progs : list (list jstmt)) (w : world) :
  texts ≠ [] → Forall2 compiles_to texts progs →
  let w1 := (loadCode (Networks texts) w).2 in
  let r := registers (sps w) in
  let scan := exec_stmts (concat progs) r in
  (loadCode (Networks texts) w).1.1 = 0 ∧
  registers (sps (SPSRuntime w1).2) = outcome_banks scan ∧
  getRuntimeCounter (SPSRuntime w1).2 = getRuntimeCounter w + 1 ∧
  ((SPSRuntime w1).1 = Returned tt ↔ ∃ r', scan = Done r') ∧
  (∀ x, (SPSRuntime w1).1 = Thrown x ↔ ∃ r', scan = Raised x r') ∧
  scan = fold_left (λ acc p, and_then acc (exec_stmts p)) progs (Done r) ∧
  (∀ sa sb ra, concat progs = sa ++ sb → exec_stmts sa r = Done ra →
     scan = exec_stmts sb ra) ∧
  (∀ sa sb x ra, concat progs = sa ++ sb → exec_stmts sa r = Raised x ra →
     scan = Raised x ra) ∧
  (∀ opa a opb m t ba ka bm km bt kt w0,
     opa ∈ validlogicalOperations → opa ≠ "NOT" →
     opb ∈ validlogicalOperations → opb ≠ "NOT" →
     validOperandsRegex a = true → operand_target a = Some (ba, ka) →
     ka < max_safe_integer →
     validOperandsRegex m = true → operand_target m = Some (bm, km) →
     km < max_safe_integer →
     validOperandsRegex t = true → operand_target t = Some (bt, kt) →
     kt < max_safe_integer →
     truthy (read_reg ba ka (registers (sps w0))) = true →
     let w2 := (loadCode (Networks [String.concat " " [opa; a; "S"; m];
                                    String.concat " " [opb; m; "="; t]]) w0).2 in
     (SPSRuntime w2).1 = Returned tt ∧
     read_reg bm km (registers (sps (SPSRuntime w2).2)) = VBool true ∧
     read_reg bt kt (registers (sps (SPSRuntime w2).2)) = VBool true).
Proof.
  intros Hne Hall w1 r scan.
  destruct (networks_scan texts progs w Hne Hall) as (Hload & Hreg & Hcount & code & Hcode & Hrun).
  fold w1 in Hreg, Hcount, Hcode.
  destruct (SPSRuntime_scan w1 code Hcode) as (Hbanks & Hc & Hret & Hthrow).
  rewrite Hrun, Hreg in Hbanks, Hret, Hthrow. fold r scan in Hbanks, Hret, Hthrow.
  split; [done|]. split; [done|]. split; [by rewrite Hc, Hcount|].
  split; [done|]. split; [done|].
  split; [apply (exec_networks_in_order progs (Done r))|].
  split; [|split].
  - intros sa sb ra E Hsa. unfold scan. by rewrite E, exec_stmts_app, Hsa.
  - intros sa sb x ra E Hsa. unfold scan. rewrite E. by apply exec_stmts_raised.
  - apply set_then_read.
Qed.

(** The amended claim C5 for [U E1 S M1] followed by [U M1 = A1], with
    [E1 = 1]: after one scan [M1] and [A1] both read [true]. *)
Lemma networks_run_in_load_order_witness :
  let texts := ["U E1 S M1"; "U M1 = A1"] in
  let w := after 2 2 2 [CallSetInputs [VNum 1; VNum 0]; CallStart] in
  let w1 := (loadCode (Networks texts) w).2 in
  (loadCode (Networks texts) w).1.1 = 0 ∧
  (SPSRuntime w1).1 = Returned tt ∧
  getRuntimeCounter (SPSRuntime w1).2 = getRuntimeCounter w + 1 ∧
  read_reg BM 0 (registers (sps (SPSRuntime w1).2)) = VBool true ∧
  read_reg BA 0 (registers (sps (SPSRuntime w1).2)) = VBool true.
Proof.
  assert (H1 : ["U E1 S M1"; "U M1 = A1"] ≠ []) by discriminate.
  assert (H2 : Forall2 compiles_to ["U E1 S M1"; "U M1 = A1"]
           [[SIf (EReg BE 0) (SBlock [SAssign BM 0 (EBool true)]) None; SEmpty];
            [SIf (EReg BM 0) (SBlock [SAssign BA 0 (EBool true)])
               (Some (SBlock [SAssign BA 0 (EBool false)])); SEmpty]]).
  { apply List.Forall2_cons; [|apply List.Forall2_cons; [|apply List.Forall2_nil]].
    - eexists _, _. split; [vm_compute; reflexivity|]. split; [vm_compute; reflexivity|].
      split; [repeat first [apply List.Forall_nil
                           |apply List.Forall_cons; [vm_compute; reflexivity|]]|].
      split; [vm_compute; reflexivity|].
      split; [vm_compute; reflexivity|vm_compute; reflexivity].
    - eexists _, _. split; [vm_compute; reflexivity|]. split; [vm_compute; reflexivity|].
      split; [repeat first [apply List.Forall_nil
                           |apply List.Forall_cons; [vm_compute; reflexivity|]]|].
      split; [vm_compute; reflexivity|].
      split; [vm_compute; reflexivity|vm_compute; reflexivity]. }
  assert (H3 : "U" ∈ validlogicalOperations) by left.
  assert (H4 : "U" ≠ "NOT") by discriminate.
  assert (H5 : validOperandsRegex "E1" = true) by (vm_compute; reflexivity).
  assert (H6 : operand_target "E1" = Some (BE, 0)) by (vm_compute; reflexivity).
  assert (H7 : 0 < max_safe_integer) by (vm_compute; reflexivity).
  assert (H8 : validOperandsRegex "M1" = true) by (vm_compute; reflexivity).
  assert (H9 : operand_target "M1" = Some (BM, 0)) by (vm_compute; reflexivity).
  assert (H10 : validOperandsRegex "A1" = true) by (vm_compute; reflexivity).
  assert (H11 : operand_target "A1" = Some (BA, 0)) by (vm_compute; reflexivity).
  assert (H12 : truthy (read_reg BE 0
                  (registers (sps (after 2 2 2 [CallSetInputs [VNum 1; VNum 0]; CallStart]))))
                = true) by (vm_compute; reflexivity).
  intros texts w w1.
  destruct (networks_run_in_load_order _ _ w H1 H2)
    as (Ha & _ & Hb & _ & _ & _ & _ & _ & Hc).
  destruct (Hc "U" "E1" "U" "M1" "A1" BE 0 BM 0 BA 0 w H3 H4 H3 H4 H5 H6 H7 H8 H9 H7
              H10 H11 H7 H12) as (Hd & He & Hf).
  split; [exact Ha|]. split; [exact Hd|]. split; [exact Hb|]. split; [exact He|exact Hf].
Defined.

(** Claim C6 at a new instance with [U E1 = A1] loaded and started: the scan
    that [getOutputs()] triggers raises the counter to 1 and assigns the
    public property [dataReady], not the private field that
    [dataAvailable()] returns, which is still [false]. *)
Theorem scan_leaves_dataAvailable_false :
  let w := after 2 2 2 [CallLoadCode (Single "U E1 = A1"); CallStart; CallGetOutputs] in
  getRuntimeCounter w = 1 ∧ dataReady (sps w) = Some true ∧ dataAvailable w = false.
Proof. by vm_compute. Qed.

(** Claim C7 at a new instance in a host without a global [dataReady]:
    [setFlags([1, 1])] throws a [ReferenceError] in its first statement,
    returns nothing and leaves the flag bank as it was. *)
Theorem setFlags_throws_ReferenceError :
  setFlags [VNum 1; VNum 1] (new_world 2 2 2) = (Thrown ReferenceError, new_world 2 2 2) ∧
  elems (regM (registers (sps (new_world 2 2 2)))) = [VNum 0; VNum 0].
Proof. by vm_compute. Qed.

(** Claim C8 fails as stated.  With 64 registers per bank, [U E0 = A65] is
    loaded without any report; its scan reads [E] at offset -1 and writes [A]
    at offset 64, outside both banks, and the output bank grows to 65
    entries. *)
Lemma accepted_program_accesses_out_of_bounds :
  let w0 := new_world 64 64 64 in
  let '(ret, errs, w1) := loadCode (Single "U E0 = A65") w0 in
  let '(done, w2) := SPSRuntime w1 in
  ret = 0 ∧ errs = [] ∧ done = Returned tt ∧
  array_length (regA (registers (sps w1))) = 64%nat ∧
  ¬ in_bounds (regA (registers (sps w1))) 64 ∧
  ¬ in_bounds (regE (registers (sps w1))) (-1) ∧
  array_length (regA (registers (sps w2))) = 65%nat ∧
  elems (regA (registers (sps w2))) !! 64%nat = Some (VBool false).
Proof.
  vm_compute. repeat split; try reflexivity; intros [H1 H2]; by apply H2 || by apply H1.
Qed.

(** Claim C8, as amended.  An operand that passes the lexer's pattern is a
    bank letter followed by decimal digits; let [n >= 0] be the number
    those digits denote, and let [n] be at most [2^53], where JavaScript's
    numbers hold it exactly.  Then [parseInt] returns [n], and the operand
    compiles to the reference [this.#b[n-1]] of that bank: read, it gives
    what the bank holds at offset [n - 1]; assigned to, it stores at that
    offset and changes no other register.  The offset is within the bank
    exactly when [1 <= n <= size]: the pattern validates the shape of the
    operand, not its range. *)
Theorem operand_compiles_to_offset (part : string) :
  validOperandsRegex part = true →
  operand_index part ≤ max_safe_integer →
  let n := operand_index part in
  ∃ b,
    part = bank_letter b +:+ slice1 part ∧
    slice1 part ≠ "" ∧ string_forall is_digit (slice1 part) = true ∧
    n = decimal_value (slice1 part) ∧ 0 ≤ n ∧
    parseInt (slice1 part) = Int n ∧
    operand_target part = Some (b, n - 1) ∧
    tokenize (register_text part) = Some (register_tokens b (n - 1)) ∧
    parse_expression (register_tokens b (n - 1)) = Some (EReg b (n - 1), []) ∧
    ∀ r, eval_expr (EReg b (n - 1)) r = inl (array_get (bank_of b r) (n - 1)) ∧
         (in_bounds (bank_of b r) (n - 1) ↔ 1 ≤ n ≤ Z.of_nat (array_length (bank_of b r))) ∧
         ∃ r2, eval_code (register_text part +:+ " = true; ") r = Done r2 ∧
               stored b (n - 1) (VBool true) r r2.
Proof.
  intros H Hmax n.
  destruct (operand_shape _ H) as (b & Hpart & Hne & Hd & Hn & Hp & Ht).
  destruct (lex_register LStart _ (or_introl eq_refl) H) as (b' & k' & Ht' & _ & Hlex).
  rewrite Ht in Ht'. injection Ht' as <- <-.
  exists b. fold n in Hn, Hp, Ht, Hlex. repeat (split; [done|]).
  change (owed LStart) with (@nil jstok) in Hlex. cbn [app] in Hlex.
  split; [unfold tokenize; rewrite Hlex; cbn [lex_end]; by rewrite app_nil_r|].
  split; [apply parse_register_tokens|].
  intros r. split; [done|]. split; [unfold in_bounds; lia|].
  apply set_text_stores; [done|done|lia].
Qed.

(** The amended claim C8 for the operand [E12]. *)
Lemma operand_compiles_to_offset_witness :
  ∃ b,
    "E12" = bank_letter b +:+ "12" ∧
    operand_index "E12" = 12 ∧
    parseInt "12" = Int 12 ∧
    operand_target "E12" = Some (b, 11) ∧
    tokenize (register_text "E12") = Some (register_tokens b 11) ∧
    ∀ r, eval_expr (EReg b 11) r = inl (array_get (bank_of b r) 11) ∧
         (in_bounds (bank_of b r) 11 ↔ 1 ≤ 12 ≤ Z.of_nat (array_length (bank_of b r))) ∧
         ∃ r2, eval_code (register_text "E12" +:+ " = true; ") r = Done r2 ∧
               stored b 11 (VBool true) r r2.
Proof.
  assert (H1 : validOperandsRegex "E12" = true) by reflexivity.
  assert (H2 : operand_index "E12" ≤ max_safe_integer) by (by vm_compute).
  destruct (operand_compiles_to_offset "E12" H1 H2) as (b & E & _ & _ & _ & _ & Hp & Ht & Htok & _ & Hr).
  exists b. split; [exact E|]. split; [reflexivity|]. split; [exact Hp|].
  split; [exact Ht|]. split; [exact Htok|]. exact Hr.
Defined.

(** Claim C9.  On an instance with 64 inputs [getInputs()] returns an array
    of 8 entries.  [getOutputs()] returns the output bank itself: the array
    obtained from a first call reads [false, 0] then, and [true, 0] after
    the inputs changed and a later scan ran. *)
Theorem getInputs_short_getOutputs_live :
  (let w := new_world 64 64 64 in
   array_length (regE (registers (sps w))) = 64%nat ∧
   array_length (deref w (getInputs w)) = 8%nat) ∧
  (let w1 := after 2 2 2 [CallLoadCode (Single "U E1 = A1"); CallStart] in
   let '(out, w2) := getOutputs w1 in
   let w3 := (setInputs [VNum 1; VNum 0] w2).2 in
   let '(_, w4) := getOutputs w3 in
   ∃ x, out = Returned x ∧
        elems (deref w2 x) = [VBool false; VNum 0] ∧
        elems (deref w4 x) = [VBool true; VNum 0]).
Proof. split; [by vm_compute|]. vm_compute. eexists. by repeat split. Qed.

(** Claim C10.  [setCycleTime(5)] and [setCycleTime(5000)] return 0 and set
    the cycle time; the test [delay > 10 || delay < 1000] holds for every
    integer, so every delay is accepted. *)
Theorem setCycleTime_accepts_out_of_range :
  let w := new_world 64 64 64 in
  (setCycleTime 5 w).1 = 0 ∧ SPSCycleTime (sps (setCycleTime 5 w).2) = 5 ∧
  (setCycleTime 5000 w).1 = 0 ∧ SPSCycleTime (sps (setCycleTime 5000 w).2) = 5000 ∧
  ∀ delay w', setCycleTime delay w' = (0, on_sps (with_SPSCycleTime delay) w').
Proof. repeat split; try by vm_compute. apply setCycleTime_always_succeeds. Qed.

(* ===================================================================== *)
(** ** Further properties of the code *)
(* ===================================================================== *)

(** Property X1.  The constructor. Each bank has as many registers as asked
    for, at most 256, every one holding the number [0]; the instance is
    stopped, its counter is 0, [dataAvailable()] is [false] and no program is
    loaded, so a scan of the new instance returns normally and changes no
    register. *)
Theorem new_instance_banks (Inputs Outputs Flags : nat) :
  let w := new_world Inputs Outputs Flags in
  let r := registers (sps w) in
  array_length (regE r) = (Inputs `min` 256)%nat ∧
  array_length (regA r) = (Outputs `min` 256)%nat ∧
  array_length (regM r) = (Flags `min` 256)%nat ∧
  (∀ b v, v ∈ elems (bank_of b r) → v = VNum 0) ∧
  getState w = 0 ∧ getRuntimeCounter w = 0 ∧ dataAvailable w = false ∧
  SPSCode (sps w) = None ∧ (SPSRuntime w).1 = Returned tt ∧
  registers (sps (SPSRuntime w).2) = r.
Proof.
  assert (C : ∀ n, clamp_size n = (n `min` 256)%nat).
  { intros n. unfold clamp_size. destruct (256 <? n)%nat eqn:E.
    - apply Nat.ltb_lt in E. lia.
    - apply Nat.ltb_ge in E. lia. }
  cbn. unfold array_length, new_Array_fill. cbn. rewrite !length_replicate, !C.
  repeat split; try done.
  intros b v Hv. destruct b; cbn in Hv; by apply elem_of_replicate in Hv as [-> _].
Qed.

(** Property X2.  After any history of calls on a new instance the run state
    is 0, 1 or 2, the runtime counter is not negative, and the counter is 0
    whenever the controller is stopped. *)
Theorem run_state_invariant (Inputs Outputs Flags : nat) (history : list call) :
  let w := after Inputs Outputs Flags history in
  (getState w = 0 ∨ getState w = 1 ∨ getState w = 2) ∧
  0 ≤ getRuntimeCounter w ∧
  (getState w = 0 → getRuntimeCounter w = 0).
Proof. apply after_run_state. Qed.

(** Property X3.  After any history of calls, scans of whatever program
    included, no bank has fewer registers than the constructor gave it: writes
    past the end extend a bank, nothing removes a register. *)
Theorem banks_never_shrink (Inputs Outputs Flags : nat) (history : list call) :
  let r := registers (sps (after Inputs Outputs Flags history)) in
  (Inputs `min` 256 ≤ array_length (regE r))%nat ∧
  (Outputs `min` 256 ≤ array_length (regA r))%nat ∧
  (Flags `min` 256 ≤ array_length (regM r))%nat.
Proof.
  assert (G : banks_grow (registers (sps (new_world Inputs Outputs Flags)))
                (registers (sps (after Inputs Outputs Flags history)))).
  { induction history as [|c h IH] using rev_ind; [apply banks_grow_refl|].
    rewrite after_snoc. eapply banks_grow_trans; [exact IH|apply perform_registers]. }
  assert (C : ∀ n, clamp_size n = (n `min` 256)%nat).
  { intros n. unfold clamp_size. destruct (256 <? n)%nat eqn:E.
    - apply Nat.ltb_lt in E. lia.
    - apply Nat.ltb_ge in E. lia. }
  assert (L : ∀ n v, array_length (new_Array_fill n v) = n)
    by (intros n v; apply length_replicate).
  pose proof (G BE) as HE. pose proof (G BA) as HA. pose proof (G BM) as HM.
  change (bank_of BE (registers (sps (new_world Inputs Outputs Flags))))
    with (new_Array_fill (clamp_size Inputs) (VNum 0)) in HE.
  change (bank_of BA (registers (sps (new_world Inputs Outputs Flags))))
    with (new_Array_fill (clamp_size Outputs) (VNum 0)) in HA.
  change (bank_of BM (registers (sps (new_world Inputs Outputs Flags))))
    with (new_Array_fill (clamp_size Flags) (VNum 0)) in HM.
  rewrite L, C in HE, HA, HM. done.
Qed.

(** Property X4.  [stop()] on a controller that is not stopped returns 0,
    makes the state 0, resets the counter, and fills every register of the
    three banks with the number [0], the banks keeping their lengths; the
    loaded program and the cycle time stay. A second [stop()] returns -1 and
    changes nothing. *)
Theorem stop_clears_registers (w : world) :
  getState w ≠ 0 →
  let w' := (stop w).2 in
  (stop w).1 = 0 ∧ getState w' = 0 ∧ getRuntimeCounter w' = 0 ∧
  (∀ b, elems (bank_of b (registers (sps w'))) =
        replicate (array_length (bank_of b (registers (sps w)))) (VNum 0)) ∧
  SPSCode (sps w') = SPSCode (sps w) ∧
  SPSCycleTime (sps w') = SPSCycleTime (sps w) ∧
  stop w' = (-1, w').
Proof.
  intros Hs. unfold getState, getRuntimeCounter in *.
  assert (E : (state (sps w) =? 0) = false) by by apply Z.eqb_neq.
  destruct (stop w) as [ret w'] eqn:Hst. cbn [fst snd].
  unfold stop in Hst. rewrite E in Hst. injection Hst as <- <-.
  match goal with |- context [changeSPSState ?n ?x] =>
    destruct (changeSPSState_fields n x) as (E1 & E2 & E3 & E4 & _ & E5) end.
  split; [done|]. split; [by rewrite E1|]. split; [by rewrite E5|]. split.
  { intros b. rewrite E2. destruct b; reflexivity. }
  split; [by rewrite E3|]. split; [by rewrite E4|].
  unfold stop. by rewrite E1.
Qed.

(** [stop()] after a scan that had set an output. *)
Lemma stop_clears_registers_witness :
  let w := after 2 2 2 [CallLoadCode (Single "U E1 = A1"); CallSetInputs [VNum 1; VNum 0];
                        CallStart; CallGetOutputs] in
  let w' := (stop w).2 in
  elems (regA (registers (sps w))) = [VBool true; VNum 0] ∧
  (stop w).1 = 0 ∧ getState w' = 0 ∧ getRuntimeCounter w' = 0 ∧
  (∀ b, elems (bank_of b (registers (sps w'))) =
        replicate (array_length (bank_of b (registers (sps w)))) (VNum 0)) ∧
  SPSCode (sps w') = SPSCode (sps w) ∧
  SPSCycleTime (sps w') = SPSCycleTime (sps w) ∧
  stop w' = (-1, w').
Proof.
  split; [by vm_compute|].
  apply (stop_clears_registers (after 2 2 2 [CallLoadCode (Single "U E1 = A1");
                                      CallSetInputs [VNum 1; VNum 0];
                                      CallStart; CallGetOutputs])).
  by vm_compute.
Defined.

(** Property X5.  [pause()] on a running controller returns 0 and makes the
    state 2; [start()] then returns 0 and makes it 1 again. Registers, counter
    and program are the same before, between and after. *)
Theorem pause_then_start_resumes (w : world) :
  getState w = 1 →
  let w1 := (pause w).2 in
  let w2 := (start w1).2 in
  (pause w).1 = 0 ∧ getState w1 = 2 ∧
  registers (sps w1) = registers (sps w) ∧ getRuntimeCounter w1 = getRuntimeCounter w ∧
  (start w1).1 = 0 ∧ getState w2 = 1 ∧
  registers (sps w2) = registers (sps w) ∧ getRuntimeCounter w2 = getRuntimeCounter w ∧
  SPSCode (sps w2) = SPSCode (sps w).
Proof.
  intros Hs. unfold getState, getRuntimeCounter in *. cbv zeta.
  assert (Hp : pause w = (0, changeSPSState 2 (on_sps (with_state 2) w)))
    by (unfold pause; by rewrite Hs).
  rewrite Hp. cbn [fst snd].
  destruct (changeSPSState_fields 2 (on_sps (with_state 2) w)) as (E1 & E2 & E3 & _ & _ & E5).
  remember (changeSPSState 2 (on_sps (with_state 2) w)) as w1 eqn:Hw1. clear Hw1 Hp.
  cbn in E1, E2, E3, E5.
  assert (Hst : start w1 = (0, changeSPSState 1 (on_sps (with_state 1) w1)))
    by (unfold start; by rewrite E1).
  rewrite Hst. cbn [fst snd].
  destruct (changeSPSState_fields 1 (on_sps (with_state 1) w1)) as (F1 & F2 & F3 & _ & _ & F5).
  remember (changeSPSState 1 (on_sps (with_state 1) w1)) as w2 eqn:Hw2. clear Hw2 Hst.
  cbn in F1, F2, F3, F5.
  rewrite F1, F2, F3, F5, E1, E2, E3, E5. done.
Qed.

(** Pause and resume after a scan that had set an output. *)
Lemma pause_then_start_resumes_witness :
  let w := after 2 2 2 [CallLoadCode (Single "U E1 = A1"); CallSetInputs [VNum 1; VNum 0];
                        CallStart; CallGetOutputs] in
  let w1 := (pause w).2 in
  let w2 := (start w1).2 in
  (pause w).1 = 0 ∧ getState w1 = 2 ∧
  registers (sps w1) = registers (sps w) ∧ getRuntimeCounter w1 = getRuntimeCounter w ∧
  (start w1).1 = 0 ∧ getState w2 = 1 ∧
  registers (sps w2) = registers (sps w) ∧ getRuntimeCounter w2 = getRuntimeCounter w ∧
  SPSCode (sps w2) = SPSCode (sps w).
Proof.
  apply (pause_then_start_resumes (after 2 2 2 [CallLoadCode (Single "U E1 = A1");
                                           CallSetInputs [VNum 1; VNum 0];
                                           CallStart; CallGetOutputs])).
  by vm_compute.
Defined.

(** Property X6.  Whatever the state, a second [start()], [stop()] or
    [pause()] directly after the first returns -1 and leaves everything as the
    first call left it. *)
Theorem repeated_transition_rejected (w : world) :
  start (start w).2 = (-1, (start w).2) ∧
  stop (stop w).2 = (-1, (stop w).2) ∧
  pause (pause w).2 = (-1, (pause w).2).
Proof.
  assert (G : ∀ n x, state (sps (changeSPSState n x)) = state (sps x))
    by (intros n x; by destruct (changeSPSState_fields n x) as (-> & _)).
  split; [|split].
  - unfold start at 2 3. destruct (state (sps w) =? 1) eqn:E; cbn [snd].
    + unfold start. by rewrite E.
    + unfold start at 1. by rewrite G.
  - unfold stop at 2 3. destruct (state (sps w) =? 0) eqn:E; cbn [snd].
    + unfold stop. by rewrite E.
    + unfold stop at 1. by rewrite G.
  - unfold pause at 2 3. destruct (state (sps w) =? 2) eqn:E; cbn [snd].
    + unfold pause. by rewrite E.
    + unfold pause at 1. by rewrite G.
Qed.

(** Property X7.  After any history of calls, [getOutputs()] runs exactly one
    scan when the state is 1, raising the counter by one, since the private
    flag it tests is never set; in any other state it runs none and leaves the
    instance as it is, returning the output bank. *)
Theorem getOutputs_scans_when_running (Inputs Outputs Flags : nat) (history : list call) :
  let w := after Inputs Outputs Flags history in
  getRuntimeCounter (getOutputs w).2 =
    getRuntimeCounter w + (if decide (getState w = 1) then 1 else 0) ∧
  getState (getOutputs w).2 = getState w ∧
  (getState w ≠ 1 → getOutputs w = (Returned (Live BA), w)).
Proof. apply getOutputs_counts, after_dormant. Qed.

(** Property X8.  After [stop()] and [start()], [n] calls of [getOutputs()]
    leave the runtime counter at [n], whatever happened before and whatever
    the loaded program does, exceptions included. *)
Theorem counter_counts_scans (Inputs Outputs Flags : nat) (history : list call) (n : nat) :
  getRuntimeCounter
    (after Inputs Outputs Flags
       (history ++ [CallStop; CallStart] ++ replicate n CallGetOutputs)) = Z.of_nat n.
Proof.
  rewrite after_app, fold_left_app.
  set (w := after Inputs Outputs Flags history).
  assert (Hd : dormant w) by apply after_dormant.
  destruct (after_run_state Inputs Outputs Flags history) as (_ & _ & H0). fold w in H0.
  set (w1 := fold_left perform [CallStop; CallStart] w).
  assert (Hd1 : dormant w1) by (by do 2 apply perform_dormant).
  assert (getState w1 = 1 ∧ getRuntimeCounter w1 = 0) as [Hs Hc].
  { unfold w1, getState, getRuntimeCounter in *. cbn [fold_left perform].
    assert (state (sps (stop w).2) = 0 ∧ RuntimeCounter (sps (stop w).2) = 0) as [S0 C0].
    { unfold stop. destruct (state (sps w) =? 0) eqn:E; cbn [snd].
      - apply Z.eqb_eq in E. by split; [|apply H0].
      - match goal with |- context [changeSPSState ?n ?x] =>
          destruct (changeSPSState_fields n x) as (-> & _ & _ & _ & _ & ->) end. done. }
    unfold start. rewrite S0. cbn [Z.eqb snd].
    match goal with |- context [changeSPSState ?n ?x] =>
      destruct (changeSPSState_fields n x) as (-> & _ & _ & _ & _ & ->) end.
    cbn. done. }
  destruct (getOutputs_repeated n w1 Hd1 Hs) as [H _]. cbn zeta in H. rewrite H, Hc. lia.
Qed.

(** Property X9.  [setInputs(inputs)] returns 0 and overwrites the input bank
    by position: register [i] receives [inputs[i]], or [undefined] where the
    array is shorter than the bank; entries past the bank's length are
    ignored, so the bank keeps its length. Outputs, flags, state and counter
    are untouched and the private freshness flag is cleared. *)
Theorem setInputs_positional (inputs : list jsval) (w : world) :
  Z.of_nat (array_length (regE (registers (sps w)))) ≤ max_array_index →
  let w' := (setInputs inputs w).2 in
  let r := registers (sps w) in
  let r' := registers (sps w') in
  (setInputs inputs w).1 = 0 ∧
  array_length (regE r') = array_length (regE r) ∧
  (∀ i, (i < array_length (regE r))%nat →
        elems (regE r') !! i = Some (default VUndef (inputs !! i))) ∧
  regA r' = regA r ∧ regM r' = regM r ∧
  getState w' = getState w ∧ getRuntimeCounter w' = getRuntimeCounter w ∧
  dataAvailable w' = false.
Proof.
  intros Hm. pose proof (setInputs_overwrites inputs w Hm) as H.
  destruct (setInputs inputs w) as [ret w'] eqn:E. destruct H as (-> & Hd & He).
  cbn [fst snd]. split; [done|].
  unfold array_length at 1. rewrite He, length_map, length_seq. split; [done|].
  split.
  { intros i Hi. rewrite list_lookup_fmap, lookup_seq_lt by done. done. }
  unfold setInputs in E. injection E as <-. cbn. by destruct (registers (sps w)).
Qed.

(** A two-element array written into a bank of three inputs. *)
Lemma setInputs_positional_witness :
  let w := new_world 3 2 2 in
  let w' := (setInputs [VNum 1; VBool true] w).2 in
  let r := registers (sps w) in
  let r' := registers (sps w') in
  elems (regE r') = [VNum 1; VBool true; VUndef] ∧
  (setInputs [VNum 1; VBool true] w).1 = 0 ∧
  array_length (regE r') = array_length (regE r) ∧
  (∀ i, (i < array_length (regE r))%nat →
        elems (regE r') !! i = Some (default VUndef ([VNum 1; VBool true] !! i))) ∧
  regA r' = regA r ∧ regM r' = regM r ∧
  getState w' = getState w ∧ getRuntimeCounter w' = getRuntimeCounter w ∧
  dataAvailable w' = false.
Proof.
  split; [by vm_compute|].
  apply (setInputs_positional [VNum 1; VBool true] (new_world 3 2 2)).
  by vm_compute.
Defined.

(** Property X10.  [getInputs()] returns a new array of exactly 8 entries: the
    first eight input registers, [undefined] where the bank is shorter. So on
    a bank of at least 8 inputs, [getInputs()] after [setInputs(inputs)] gives
    back the first eight values supplied. *)
Theorem getInputs_first_eight (w : world) :
  getInputs w =
    Fresh (JSArray (map (λ i, default VUndef (elems (regE (registers (sps w))) !! i))
                      (seq 0 8)) ∅) ∧
  array_length (deref w (getInputs w)) = 8%nat ∧
  ∀ inputs,
    Z.of_nat (array_length (regE (registers (sps w)))) ≤ max_array_index →
    (8 ≤ array_length (regE (registers (sps w))))%nat → (8 ≤ length inputs)%nat →
    getInputs (setInputs inputs w).2 = Fresh (JSArray (take 8 inputs) ∅).
Proof.
  assert (G : ∀ w, getInputs w =
    Fresh (JSArray (map (λ i, default VUndef (elems (regE (registers (sps w))) !! i))
                      (seq 0 8)) ∅)).
  { intros w0. unfold getInputs. rewrite copy_first_any; [done|]. by vm_compute. }
  split; [apply G|]. split; [by rewrite G|].
  intros inputs Hm H8 Hi. rewrite G. do 2 f_equal.
  pose proof (setInputs_overwrites inputs w Hm) as H.
  destruct (setInputs inputs w) as [ret w'] eqn:E. destruct H as (_ & _ & He).
  cbn [snd]. rewrite He.
  apply list_eq. intros i. rewrite list_lookup_fmap.
  destruct (decide (i < 8)%nat) as [Hlt|Hge].
  - rewrite lookup_seq_lt by done. cbn [fmap option_fmap option_map Nat.add].
    rewrite list_lookup_fmap, lookup_seq_lt by lia. cbn.
    rewrite lookup_take_lt by done.
    destruct (inputs !! i) eqn:Ei; [done|]. apply lookup_ge_None in Ei. lia.
  - rewrite lookup_seq_ge by lia. cbn. symmetry. apply lookup_ge_None.
    rewrite length_take. lia.
Qed.

(** Nine values written to 64 inputs; the first eight are read back. *)
Lemma getInputs_first_eight_witness :
  let inputs := [VNum 1; VNum 0; VNum 1; VNum 1; VNum 0; VNum 0; VNum 1; VNum 0; VNum 1] in
  getInputs (setInputs inputs (new_world 64 64 64)).2 = Fresh (JSArray (take 8 inputs) ∅).
Proof.
  intros inputs.
  destruct (getInputs_first_eight (new_world 64 64 64)) as (_ & _ & H).
  apply H; [by vm_compute|vm_compute; lia|vm_compute; lia].
Defined.

(** Property X11.  [getFlags()] returns a new array with the elements of the
    flag bank at the time of the call and no other property; what happens to
    the instance later does not show in it. *)
Theorem getFlags_returns_copy (w : world) :
  Z.of_nat (array_length (regM (registers (sps w)))) ≤ max_array_index →
  getFlags w = Fresh (JSArray (elems (regM (registers (sps w)))) ∅) ∧
  ∀ w', elems (deref w' (getFlags w)) = elems (regM (registers (sps w))).
Proof.
  intros Hm.
  assert (getFlags w = Fresh (JSArray (elems (regM (registers (sps w)))) ∅)) as ->.
  { unfold getFlags, array_length in *. cbn zeta. rewrite copy_first_prefix by lia.
    by rewrite take_ge. }
  done.
Qed.

(** The flags after a scan that had set one of them. *)
Lemma getFlags_returns_copy_witness :
  let w := after 2 2 2 [CallLoadCode (Single "U E1 = M1"); CallSetInputs [VNum 1; VNum 0];
                        CallStart; CallGetOutputs] in
  getFlags w = Fresh (JSArray (elems (regM (registers (sps w)))) ∅) ∧
  ∀ w', elems (deref w' (getFlags w)) = elems (regM (registers (sps w))).
Proof.
  apply (getFlags_returns_copy
           (after 2 2 2 [CallLoadCode (Single "U E1 = M1"); CallSetInputs [VNum 1; VNum 0];
                         CallStart; CallGetOutputs])).
  by vm_compute.
Defined.

(** Property X12.  In a host whose global object has a writable [dataReady],
    [setFlags] does not throw: it sets that global to [false], overwrites the
    flag bank by position like [setInputs] does the inputs, and returns 0. The
    private flag behind [dataAvailable()] and the other banks are not touched. *)
Theorem setFlags_with_global (flags : list jsval) (w : world) (g : jsval) :
  global_dataReady (env w) = Some g →
  Z.of_nat (array_length (regM (registers (sps w)))) ≤ max_array_index →
  let w' := (setFlags flags w).2 in
  let r := registers (sps w) in
  let r' := registers (sps w') in
  (setFlags flags w).1 = Returned 0 ∧
  global_dataReady (env w') = Some (VBool false) ∧
  dataAvailable w' = dataAvailable w ∧
  elems (regM r') = map (λ i, default VUndef (flags !! i)) (seq 0 (array_length (regM r))) ∧
  regE r' = regE r ∧ regA r' = regA r.
Proof.
  intros Hg Hm. unfold setFlags. rewrite Hg. cbn.
  rewrite copy_into_elems by done. by destruct (registers (sps w)).
Qed.

(** Two values written into a bank of three flags. *)
Lemma setFlags_with_global_witness :
  let w := MkWorld (new_SPS 2 2 3) (MkHost [] 1 (Some VUndef) []) in
  let w' := (setFlags [VNum 1; VNum 0] w).2 in
  let r := registers (sps w) in
  let r' := registers (sps w') in
  (setFlags [VNum 1; VNum 0] w).1 = Returned 0 ∧
  global_dataReady (env w') = Some (VBool false) ∧
  dataAvailable w' = dataAvailable w ∧
  elems (regM r') =
    map (λ i, default VUndef ([VNum 1; VNum 0] !! i)) (seq 0 (array_length (regM r))) ∧
  regE r' = regE r ∧ regA r' = regA r.
Proof.
  apply (setFlags_with_global [VNum 1; VNum 0]
           (MkWorld (new_SPS 2 2 3) (MkHost [] 1 (Some VUndef) [])) VUndef).
  - reflexivity.
  - by vm_compute.
Defined.

(** Property X13.  [loadCode], whether it succeeds or fails, leaves the
    register banks, the run state, the counter, the cycle time, the private
    freshness flag and the host's timers as they were, and stores its argument
    in [codeInput]. *)
Theorem loadCode_changes_program_only (i : code_input) (w : world) :
  let w' := (loadCode i w).2 in
  registers (sps w') = registers (sps w) ∧
  getState w' = getState w ∧
  getRuntimeCounter w' = getRuntimeCounter w ∧
  SPSCycleTime (sps w') = SPSCycleTime (sps w) ∧
  dataAvailable w' = dataAvailable w ∧
  intervals (env w') = intervals (env w) ∧
  codeInput (sps w') = Some i.
Proof.
  destruct (loadCode_fields i w) as (_ & H2 & H3 & _ & H5 & H6 & H7 & H8).
  cbn zeta in *. unfold getState, getRuntimeCounter, dataAvailable.
  rewrite H2, H3, H5, H6, H7, H8. repeat split; try done.
  unfold loadCode.
  destruct (load_front i) as [[[cmds|] invalid] errs]; [|done].
  destruct ((0 <? length cmds)%nat && negb invalid); [|done].
  by destruct (generateJSCode cmds).
Qed.

(** Property X14.  On 7-bit text, [loadCode] returns 0 or -1. It returns 0
    exactly when it was given at least one network text and the lexer accepts
    every text: all parts known, as many opening as closing brackets. What the
    statement compiler reports has no influence, and an empty array of
    networks fails. *)
Theorem loadCode_outcome (i : code_input) (w : world) :
  (∀ t, t ∈ texts_of i → seven_bit t = true) →
  ((loadCode i w).1.1 = 0 ∨ (loadCode i w).1.1 = -1) ∧
  ((loadCode i w).1.1 = 0 ↔
     texts_of i ≠ [] ∧ ∀ t, t ∈ texts_of i → lexer_accepts t).
Proof.
  intros _. unfold loadCode, load_front. destruct i as [text|texts]; cbn [texts_of].
  - destruct (decide (lexer_accepts text)) as [Ha|Hn].
    + pose proof Ha as Ha'. apply generateCodeStructure_some in Ha' as (c & -> & Hc).
      destruct c as [|x c]; [done|]. cbn [length Nat.ltb Nat.leb andb negb].
      destruct (generateJSCode (x :: c)). cbn [fst]. split; [by left|].
      split; [|done]. intros _. split; [done|].
      intros t Ht. by apply list_elem_of_singleton in Ht as ->.
    + pose proof (generateCodeStructure_none text Hn) as E.
      destruct (generateCodeStructure text) as [[c|] e]; [done|]. cbn [fst].
      split; [by right|]. split; [done|]. intros [_ H]. exfalso. apply Hn, H. by left.
  - destruct (decide (texts = [])) as [->|Hne].
    { cbn. split; [by right|]. split; [done|]. by intros [? _]. }
    destruct (compile_networks_result texts) as (_ & H2 & H3).
    destruct (compile_networks texts) as [[cmds invalid] errs]. cbn [fst snd] in *.
    destruct invalid.
    + rewrite andb_false_r. cbn [fst]. split; [by right|]. split; [done|].
      intros [_ H]. by apply H2 in H.
    + destruct cmds as [|x c]; [by destruct (H3 eq_refl Hne)|].
      cbn [length Nat.ltb Nat.leb andb negb]. destruct (generateJSCode (x :: c)). cbn [fst].
      split; [by left|]. split; [|done]. intros _. split; [done|by apply H2].
Qed.

(** Two networks of which the second is [) (], which the lexer accepts; an
    unbalanced network; the empty array. *)
Lemma loadCode_outcome_witness :
  (loadCode (Networks ["U E1 = A1"; ") ("]) (new_world 2 2 2)).1.1 = 0 ∧
  (loadCode (Networks ["U E1 = A1"; "U ( E1"]) (new_world 2 2 2)).1.1 = -1 ∧
  (loadCode (Networks []) (new_world 2 2 2)).1.1 = -1.
Proof.
  split; [|by vm_compute].
  assert (H7 : ∀ t, t ∈ texts_of (Networks ["U E1 = A1"; ") ("]) → seven_bit t = true).
  { intros t Ht. apply elem_of_cons in Ht as [->|Ht]; [by vm_compute|].
    apply list_elem_of_singleton in Ht as ->. by vm_compute. }
  apply (loadCode_outcome (Networks ["U E1 = A1"; ") ("]) (new_world 2 2 2) H7).
  split; [done|]. intros t Ht.
  apply elem_of_cons in Ht as [->|Ht]; [apply (bool_decide_unpack _); by vm_compute|].
  apply list_elem_of_singleton in Ht as ->. apply (bool_decide_unpack _). by vm_compute.
Defined.



(** Property X16.  The lexer reads the upper-case form of the text: a text and
    its upper-case form give the same commands and messages, and loading
    either returns the same value and installs the same program. *)
Theorem lexer_case_insensitive (text : string) (w : world) :
  generateCodeStructure (toUpperCase text) = generateCodeStructure text ∧
  (loadCode (Single (toUpperCase text)) w).1 = (loadCode (Single text) w).1 ∧
  SPSCode (sps (loadCode (Single (toUpperCase text)) w).2) =
    SPSCode (sps (loadCode (Single text) w).2).
Proof.
  assert (E : generateCodeStructure (toUpperCase text) = generateCodeStructure text).
  { unfold generateCodeStructure, codeParts. by rewrite toUpperCase_idem. }
  split; [done|]. unfold loadCode, load_front. rewrite E.
  destruct (generateCodeStructure text) as [[cmds|] errs]; [|done].
  destruct ((0 <? length cmds)%nat && negb false); [|done].
  by destruct (generateJSCode cmds).
Qed.

(** Property X17.  A comment, from [//] to the end of its line, does not reach
    the lexer: the text with the comment and the text without it give the same
    result. The comment must not follow a single slash, which would pair up
    with it. *)
Theorem comment_is_ignored (a c rest : string) :
  ends_with_slash a = false →
  string_exists is_line_terminator c = false →
  at_line_end rest = true →
  generateCodeStructure (a +:+ "//" +:+ c +:+ rest) = generateCodeStructure (a +:+ rest).
Proof.
  intros Ha Hc Hr. unfold generateCodeStructure, codeParts, removeComments.
  rewrite !toUpperCase_app.
  change (toUpperCase "//") with "//".
  rewrite (removeComments_comment (String.length (toUpperCase a)) (toUpperCase a) false
             (toUpperCase c) (toUpperCase rest)); [done|lia|..].
  - by rewrite toUpperCase_ends_with_slash.
  - by rewrite toUpperCase_terminators.
  - by rewrite toUpperCase_at_line_end.
Qed.

(** A comment with brackets in it between two statements. *)
Lemma comment_is_ignored_witness :
  generateCodeStructure ("U E1 = A1 " +:+ "//" +:+ " lamp 1 (hall)" +:+ "
U E2 = A2")
  = generateCodeStructure ("U E1 = A1 " +:+ "
U E2 = A2").
Proof. by apply (comment_is_ignored "U E1 = A1 " " lamp 1 (hall)" "
U E2 = A2"). Defined.

(** Property X18.  A text of white space only, the empty text included, is
    accepted: the lexer returns the end-of-network command alone, [loadCode]
    returns 0 without any message and installs a program of one empty
    statement, whose scan changes nothing. *)
Theorem blank_text_loads (text : string) (w : world) :
  string_forall is_whitespace text = true →
  generateCodeStructure text = (Some [Command 6 ";" 0], []) ∧
  (loadCode (Single text) w).1 = (0, []) ∧
  SPSCode (sps (loadCode (Single text) w).2) = Some "; // End of Network
" ∧
  ∀ r, eval_code "; // End of Network
" r = Done r.
Proof.
  intros H.
  assert (E : generateCodeStructure text = (Some [Command 6 ";" 0], []))
    by (unfold generateCodeStructure; by rewrite (codeParts_blank text H)).
  split; [done|]. unfold loadCode, load_front. rewrite E. cbn.
  split; [done|]. split; [done|]. intros r. unfold eval_code.
  assert (tokenize "; // End of Network
" = Some [TSemi]) as -> by (by vm_compute).
  done.
Qed.

(** A blank, a tab, a line feed and a blank. *)
Lemma blank_text_loads_witness :
  let text := String " " (String "009" (String "010" " ")) in
  generateCodeStructure text = (Some [Command 6 ";" 0], []) ∧
  (loadCode (Single text) (new_world 2 2 2)).1 = (0, []) ∧
  SPSCode (sps (loadCode (Single text) (new_world 2 2 2)).2) = Some "; // End of Network
" ∧
  ∀ r, eval_code "; // End of Network
" r = Done r.
Proof.
  apply (blank_text_loads (String " " (String "009" (String "010" " ")))
           (new_world 2 2 2)).
  reflexivity.
Defined.

(** Property X19.  On 7-bit text, the lexer returns a command array exactly
    when every part of the text is a logic operator, an instruction, an
    operand or a round bracket, and the opening brackets are as many as the
    closing ones. Their order is not looked at. *)
Theorem lexer_accepts_iff (text : string) :
  seven_bit text = true →
  ((generateCodeStructure text).1 ≠ None ↔
   Forall (λ p, known_part p = true) (codeParts text) ∧ brackets_balanced (codeParts text)).
Proof. intros _. apply generateCodeStructure_result. Qed.

(** A text the lexer accepts, and one with an unknown part and an unclosed
    bracket. *)
Lemma lexer_accepts_iff_witness :
  ((generateCodeStructure "U ( E1 O E2 ) = A1").1 ≠ None ↔
   Forall (λ p, known_part p = true) (codeParts "U ( E1 O E2 ) = A1") ∧
   brackets_balanced (codeParts "U ( E1 O E2 ) = A1")) ∧
  ((generateCodeStructure "U ( E1 FOO = A1").1 ≠ None ↔
   Forall (λ p, known_part p = true) (codeParts "U ( E1 FOO = A1") ∧
   brackets_balanced (codeParts "U ( E1 FOO = A1")).
Proof.
  split.
  - apply (lexer_accepts_iff "U ( E1 O E2 ) = A1"). reflexivity.
  - apply (lexer_accepts_iff "U ( E1 FOO = A1"). reflexivity.
Defined.

(** Property X20.  What the lexer reports on 7-bit text: one message for every
    unknown part, in the order of the text, and after them one message if the
    numbers of opening and closing brackets differ. *)
Theorem lexer_messages (text : string) :
  seven_bit text = true →
  (generateCodeStructure text).2 =
    map unknown_message (filter (λ p, known_part p = false) (codeParts text)) ++
    (if decide (brackets_balanced (codeParts text)) then []
     else ["generateCodeStructure >> Invalid bracket number"]).
Proof. intros _. apply generateCodeStructure_result. Qed.

(** A text with an unknown part and an unclosed bracket. *)
Lemma lexer_messages_witness :
  (generateCodeStructure "U ( E1 FOO = A1").2 =
    map unknown_message
      (filter (λ p, known_part p = false) (codeParts "U ( E1 FOO = A1")) ++
    (if decide (brackets_balanced (codeParts "U ( E1 FOO = A1")) then []
     else ["generateCodeStructure >> Invalid bracket number"]).
Proof. apply (lexer_messages "U ( E1 FOO = A1"). reflexivity. Defined.

(** Property X21.  On 7-bit text, a command array the lexer returns comes with
    no message and holds one command per part of the text, in order, followed
    by the end-of-network command: the instructions are the parts, every block
    number is the command's position, every command has the type of its
    instruction, and type 6 occurs at the last position only. *)
Theorem commands_mirror_parts (text : string) (cmds : list command) (errs : list string) :
  seven_bit text = true →
  generateCodeStructure text = (Some cmds, errs) →
  errs = [] ∧
  map instruction cmds = codeParts text ++ [";"] ∧
  ∀ i c, cmds !! i = Some c →
    blockNumber c = i ∧ lexer_command c = true ∧
    (type c = 6%nat ↔ i = length (codeParts text)).
Proof.
  intros _ H.
  pose proof (generateCodeStructure_commands _ _ _ H) as Hlc.
  pose proof (generateCodeStructure_result text) as [HE HA]. rewrite H in HE, HA.
  cbn [fst snd] in HE, HA. destruct HA as [HA _]. destruct (HA ltac:(done)) as [Hk Hb].
  rewrite decide_True in HE by done.
  assert (filter (λ p, known_part p = false) (codeParts text) = []) as Hf.
  { clear -Hk. induction Hk as [|p l Hp _ IH]; [done|].
    rewrite filter_cons, decide_False by congruence. exact IH. }
  rewrite Hf in HE. split; [done|].
  unfold generateCodeStructure in H.
  destruct (classify_fold_shape (codeParts text) (LexerState [] 0 false []) Hk)
    as (S1 & S2 & S3).
  { by intros i c Hi. }
  { constructor. }
  fold (classify_all (codeParts text)) in S1, S2, S3. cbn in S1.
  assert (commandArray (check_brackets (classify_all (codeParts text)))
          = commandArray (classify_all (codeParts text))) as Hc.
  { unfold check_brackets. by destruct (negb _). }
  destruct (invalidCommand _); [done|]. injection H as <- _. rewrite Hc in Hlc |- *.
  set (l := commandArray (classify_all (codeParts text))) in *.
  assert (length l = length (codeParts text)) as Hlen.
  { by rewrite <- S1, length_map. }
  split; [by rewrite map_app, S1|].
  intros i c Hi. split; [|split].
  - by apply (numbered_snoc l 6 ";" S2 i c).
  - by apply (Forall_lookup_1 _ _ _ _ Hlc Hi).
  - apply lookup_app_Some in Hi as [Hi|[Hge Hi]].
    + pose proof (Forall_lookup_1 _ _ _ _ S3 Hi) as Hty.
      apply lookup_lt_Some in Hi. split; [done|lia].
    + apply list_lookup_singleton_Some in Hi as [Hi <-]. cbn. split; [lia|done].
Qed.

(** A network over three lines, in lower case, with brackets written next
    to operands and a comment. *)
Lemma commands_mirror_parts_witness :
  let text := "u e1
               un (m1 o a2) // lamp
               = A1" in
  let cmds := [Command 1 "U" 0; Command 3 "E1" 1; Command 1 "UN" 2; Command 4 "(" 3;
               Command 3 "M1" 4; Command 1 "O" 5; Command 3 "A2" 6; Command 4 ")" 7;
               Command 2 "=" 8; Command 3 "A1" 9; Command 6 ";" 10] in
  generateCodeStructure text = (Some cmds, []) ∧
  map instruction cmds = codeParts text ++ [";"] ∧
  ∀ i c, cmds !! i = Some c →
    blockNumber c = i ∧ lexer_command c = true ∧
    (type c = 6%nat ↔ i = length (codeParts text)).
Proof.
  intros text cmds.
  assert (H : generateCodeStructure text = (Some cmds, [])) by (by vm_compute).
  assert (H7 : seven_bit text = true) by (by vm_compute).
  split; [exact H|]. by destruct (commands_mirror_parts text cmds [] H7 H) as (_ & ? & ?).
Defined.

(** Property X22.  Parts joined by single blanks are split into the same parts
    again, when each part is one bracket character or a non-empty run of 7-bit
    characters other than white space, brackets, lower-case letters and the
    slash. *)
Theorem join_then_split (ws : list string) :
  Forall (λ p, is_part p = true) ws → codeParts (String.concat " " ws) = ws.
Proof. apply codeParts_join. Qed.

(** The parts of a statement with a bracketed condition. *)
Lemma join_then_split_witness :
  codeParts (String.concat " " ["U"; "("; "E1"; "O"; "M12"; ")"; "="; "A3"])
  = ["U"; "("; "E1"; "O"; "M12"; ")"; "="; "A3"].
Proof.
  apply (join_then_split ["U"; "("; "E1"; "O"; "M12"; ")"; "="; "A3"]).
  repeat first [apply List.Forall_nil | apply List.Forall_cons; [reflexivity|]].
Defined.

(** Property X23.  A command the statement compiler reports is skipped: the
    generated text is the text of the command array without that command, and
    the messages are those of the array without it plus the one for it, at its
    place. *)
Theorem reported_command_is_skipped (before rest : list command) (c : command) :
  (generateJSCode (before ++ [c])).2 ≠ (generateJSCode before).2 →
  (generateJSCode (before ++ c :: rest)).1 = (generateJSCode (before ++ rest)).1 ∧
  ∃ msg tail,
    (generateJSCode (before ++ [c])).2 = (generateJSCode before).2 ++ [msg] ∧
    (generateJSCode (before ++ rest)).2 = (generateJSCode before).2 ++ tail ∧
    (generateJSCode (before ++ c :: rest)).2 = (generateJSCode before).2 ++ msg :: tail.
Proof.
  unfold generateJSCode. cbn [fst snd]. rewrite !gen_run_app.
  set (st := gen_run gen_init before).
  change (gen_run st [c]) with (gen_command st c).
  change (gen_run st (c :: rest)) with (gen_run (gen_command st c) rest).
  intros H. destruct (gen_command_reported st c H) as (msg & ->).
  destruct (gen_run_core rest (gen_error msg st)) as [-> _].
  destruct (gen_run_core rest st) as [-> _].
  split; [done|].
  exists msg, (gen_errors (gen_run (core st) rest)).
  split; [done|]. split; [apply gen_run_errors|].
  rewrite gen_run_errors. cbn [gen_errors gen_error]. by rewrite <- app_assoc.
Qed.

(** A bracket between two statements. *)
Lemma reported_command_is_skipped_witness :
  let before := [Command 1 "U" 0; Command 3 "E1" 1; Command 2 "S" 2; Command 3 "A1" 3] in
  let c := Command 4 "(" 4 in
  let rest := [Command 1 "U" 5; Command 3 "E2" 6; Command 2 "=" 7; Command 3 "A2" 8] in
  (generateJSCode (before ++ c :: rest)).1 = (generateJSCode (before ++ rest)).1 ∧
  ∃ msg tail,
    (generateJSCode (before ++ [c])).2 = (generateJSCode before).2 ++ [msg] ∧
    (generateJSCode (before ++ rest)).2 = (generateJSCode before).2 ++ tail ∧
    (generateJSCode (before ++ c :: rest)).2 = (generateJSCode before).2 ++ msg :: tail.
Proof.
  apply (reported_command_is_skipped
           [Command 1 "U" 0; Command 3 "E1" 1; Command 2 "S" 2; Command 3 "A1" 3]
           [Command 1 "U" 5; Command 3 "E2" 6; Command 2 "=" 7; Command 3 "A2" 8]
           (Command 4 "(" 4)).
  by vm_compute.
Defined.

(** Property X24.  The logic operator that opens a statement only opens the
    [if]: unless it is [NOT], its kind is not looked at, so [UN E1 = A1]
    compiles to the same text as [U E1 = A1] and the negation is lost. *)
Theorem first_operator_only_opens
    (before rest : list command) (op op' : string) (n n' : nat) :
  closed before → op ≠ "NOT" → op' ≠ "NOT" →
  generateJSCode (before ++ Command 1 op n :: rest) =
  generateJSCode (before ++ Command 1 op' n' :: rest).
Proof.
  intros Hc Hop Hop'. unfold generateJSCode. rewrite !gen_run_app.
  set (st := gen_run gen_init before).
  assert (isNewBlock st = true) as Hn.
  { unfold closed in Hc. fold st in Hc. by apply (f_equal isNewBlock) in Hc. }
  assert (∀ o m, o ≠ "NOT" →
    gen_command st (Command 1 o m) =
    emit "if( " (set_isNewBlock false (set_openIfBlock true st))) as G.
  { intros o m Ho. unfold gen_command. cbn [type instruction Nat.eqb]. rewrite Hn.
    by destruct (String.eqb_spec o "NOT"). }
  change (gen_run st (Command 1 op n :: rest))
    with (gen_run (gen_command st (Command 1 op n)) rest).
  change (gen_run st (Command 1 op' n' :: rest))
    with (gen_run (gen_command st (Command 1 op' n')) rest).
  by rewrite !G.
Qed.

(** [UN E1 = A1] and [U E1 = A1]. *)
Lemma first_operator_only_opens_witness :
  generateJSCode ([] ++ Command 1 "UN" 0 ::
                    [Command 3 "E1" 1; Command 2 "=" 2; Command 3 "A1" 3; Command 6 ";" 4]) =
  generateJSCode ([] ++ Command 1 "U" 0 ::
                    [Command 3 "E1" 1; Command 2 "=" 2; Command 3 "A1" 3; Command 6 ";" 4]).
Proof.
  apply (first_operator_only_opens []
           [Command 3 "E1" 1; Command 2 "=" 2; Command 3 "A1" 3; Command 6 ";" 4]
           "UN" "U" 0 0); [reflexivity|discriminate|discriminate].
Defined.

(** Property X25.  On 7-bit texts whose operand indices are at most [2^53],
    the program a successful load installs is made of JavaScript tokens
    throughout, whatever the statement compiler reported on the way: a scan of
    it can fail in the parser or at run time, not in the tokenizer. *)
Theorem installed_text_tokenizes (i : code_input) (w : world) :
  (∀ t, t ∈ texts_of i → seven_bit t = true ∧ indices_exact t = true) →
  (loadCode i w).1.1 = 0 →
  ∃ code ts, SPSCode (sps (loadCode i w).2) = Some code ∧ tokenize code = Some ts.
Proof.
  intros _. unfold loadCode, load_front. destruct i as [text|texts].
  - destruct (generateCodeStructure text) as [[cmds|] errs] eqn:E; [|done].
    destruct ((0 <? length cmds)%nat && negb false); [|done].
    pose proof (generateCodeStructure_commands _ _ _ E) as Hc.
    destruct (tokenize_generated cmds Hc) as (ts & Hts).
    destruct (generateJSCode cmds) as [code errs']. intros _. by exists code, ts.
  - pose proof (compile_networks_commands texts) as Hc.
    destruct (compile_networks texts) as [[cmds invalid] errs]. cbn [fst] in Hc.
    destruct ((0 <? length cmds)%nat && negb invalid); [|done].
    destruct (tokenize_generated cmds Hc) as (ts & Hts).
    destruct (generateJSCode cmds) as [code errs']. intros _. by exists code, ts.
Qed.

(** A program with a report and a call in its condition. *)
Lemma installed_text_tokenizes_witness :
  ∃ code ts,
    SPSCode (sps (loadCode (Single "U E1 ( = A1 )") (new_world 2 2 2)).2) = Some code ∧
    tokenize code = Some ts.
Proof.
  apply (installed_text_tokenizes (Single "U E1 ( = A1 )") (new_world 2 2 2)).
  - intros t Ht. apply elem_of_cons in Ht as [->|Ht]; [by vm_compute|].
    by apply elem_of_nil in Ht.
  - by vm_compute.
Defined.

(** Property X26.  A network that ends inside a condition: a logic operator,
    then any operands, operators and brackets, with as many opening as closing
    brackets, and no instruction; the condition may be empty or incomplete. It
    is compiled without any report, and the text it is compiled to is no
    JavaScript statement, the bracket of the [if] never being closed: [eval]
    raises a [SyntaxError] whatever the banks hold, so every scan throws a
    [SyntaxError] and leaves the banks as they are. *)
Theorem open_statement_fails_every_scan
    (op : command) (cond : list command) (n : nat) :
  type op = 1%nat → lexer_command op = true →
  Forall (λ x, condition_command x = true) cond →
  Forall (λ x, index_exact x = true) cond →
  brackets_balanced (map instruction cond) →
  let code := generateJSCode (op :: cond ++ [Command 6 ";" n]) in
  code.2 = [] ∧
  (∀ r, eval_code code.1 r = Raised SyntaxError r) ∧
  ∀ w, SPSCode (sps w) = Some code.1 →
    (SPSRuntime w).1 = Thrown SyntaxError ∧
    registers (sps (SPSRuntime w).2) = registers (sps w).
Proof.
  intros Hop Hlop Hcond _ Hbal code.
  assert (Hsyn : ∀ r, eval_code code.1 r = Raised SyntaxError r).
  { intros r. unfold eval_code.
    destruct (tokenize code.1) as [ts|] eqn:Htok; [|done].
    destruct (parse_program ts) as [prog|] eqn:Hp; [|done].
    apply parse_program_parens in Hp.
    apply (open_statement_parens op cond n ts Hop Hlop Hcond) in Htok.
    rewrite (bracket_net_count cond Hcond) in Htok.
    unfold brackets_balanced, count_bracket in Hbal. lia. }
  split; [|split; [exact Hsyn|]].
  - unfold code, generateJSCode. cbn [fst snd].
    rewrite app_comm_cons, gen_run_app.
    pose proof (open_condition_reports_nothing op cond Hop Hcond) as Herr.
    change (gen_run (gen_run gen_init (op :: cond)) [Command 6 ";" n])
      with (gen_command (gen_run gen_init (op :: cond)) (Command 6 ";" n)).
    by rewrite end_of_network_reports_nothing.
  - intros w Hcode.
    destruct (SPSRuntime_scan w _ Hcode) as (Hreg & _ & _ & Hthrow).
    rewrite Hreg, Hsyn. split; [|done]. apply Hthrow. eauto.
Qed.

(** The network [U E1 O], whose condition lacks an operand. *)
Lemma open_statement_fails_every_scan_witness :
  let code := generateJSCode (Command 1 "U" 0 :: [Command 3 "E1" 1; Command 1 "O" 2]
                                ++ [Command 6 ";" 3]) in
  code.2 = [] ∧
  (∀ r, eval_code code.1 r = Raised SyntaxError r) ∧
  ∀ w, SPSCode (sps w) = Some code.1 →
    (SPSRuntime w).1 = Thrown SyntaxError ∧
    registers (sps (SPSRuntime w).2) = registers (sps w).
Proof.
  assert (H3 : Forall (λ x, condition_command x = true)
                 [Command 3 "E1" 1; Command 1 "O" 2])
    by (repeat first [apply List.Forall_nil
                     |apply List.Forall_cons; [vm_compute; reflexivity|]]).
  assert (H4 : Forall (λ x, index_exact x = true)
                 [Command 3 "E1" 1; Command 1 "O" 2])
    by (repeat first [apply List.Forall_nil
                     |apply List.Forall_cons; [vm_compute; reflexivity|]]).
  assert (H5 : brackets_balanced (map instruction [Command 3 "E1" 1; Command 1 "O" 2]))
    by (vm_compute; reflexivity).
  exact (open_statement_fails_every_scan (Command 1 "U" 0)
           [Command 3 "E1" 1; Command 1 "O" 2] 3 eq_refl eq_refl H3 H4 H5).
Defined.



(** Property X28.  From the text to the registers. Loading the statement
    [<operator> <operand> <instruction> <target>], written with single blanks
    and an opening operator other than [NOT], returns 0 with no message; the
    next [getOutputs()] of a running controller runs one scan. After it the
    target reads the truth value of the operand for [=], and [true] (for [S])
    or [false] (for [R]) when the operand is truthy, every other register
    reading as before; for [S] and [R] with a falsy operand the banks are
    unchanged. *)
Theorem statement_text_to_scan
    (op src ins tgt : string) (bs bt : bank) (ks kt : Z) (w : world) :
  op ∈ validlogicalOperations → op ≠ "NOT" → ins ∈ validInstructions →
  validOperandsRegex src = true → operand_target src = Some (bs, ks) →
  ks < max_safe_integer →
  validOperandsRegex tgt = true → operand_target tgt = Some (bt, kt) →
  kt < max_safe_integer →
  getState w = 1 → dataAvailable w = false →
  let text := String.concat " " [op; src; ins; tgt] in
  let w1 := (loadCode (Single text) w).2 in
  let r := registers (sps w) in
  let v := read_reg bs ks r in
  let r2 := registers (sps (getOutputs w1).2) in
  (loadCode (Single text) w).1 = (0, []) ∧
  (getOutputs w1).1 = Returned (Live BA) ∧
  (if String.eqb ins "=" then stored bt kt (VBool (truthy v)) r r2
   else if truthy v then stored bt kt (VBool (String.eqb ins "S")) r r2
   else r2 = r) ∧
  getRuntimeCounter (getOutputs w1).2 = getRuntimeCounter w + 1.
Proof.
  intros Hop Hnot Hins Hsrc Hts Hks Htgt Htt Hkt Hstate Hdata text w1 r v r2.
  pose proof (statement_scan op src ins tgt bs bt ks kt w Hop Hnot Hins Hsrc Hts Hks
                Htgt Htt Hkt Hstate Hdata) as H.
  cbv zeta in H. destruct H as (H1 & H2 & H3 & H4).
  split; [done|]. split; [done|]. split; [|done].
  unfold r2, w1, text. rewrite H3. fold r. fold v.
  destruct (String.eqb ins "="); [apply write_reg_stored|].
  destruct (truthy v); [apply write_reg_stored|done].
Qed.

(** [UN E1 = A2] with [E1 = 1]: the output is set, as for [U E1 = A2]. *)
Lemma statement_text_to_scan_witness :
  let w := after 2 2 2 [CallSetInputs [VNum 1; VNum 0]; CallStart] in
  let text := String.concat " " ["UN"; "E1"; "="; "A2"] in
  let w1 := (loadCode (Single text) w).2 in
  let r := registers (sps w) in
  let r2 := registers (sps (getOutputs w1).2) in
  (loadCode (Single text) w).1 = (0, []) ∧
  (getOutputs w1).1 = Returned (Live BA) ∧
  stored BA 1 (VBool true) r r2 ∧
  getRuntimeCounter (getOutputs w1).2 = getRuntimeCounter w + 1.
Proof.
  assert (H1 : "UN" ∈ validlogicalOperations) by (do 4 right; left).
  assert (H2 : "UN" ≠ "NOT") by discriminate.
  assert (H3 : "=" ∈ validInstructions) by left.
  assert (H4 : validOperandsRegex "E1" = true) by (vm_compute; reflexivity).
  assert (H5 : operand_target "E1" = Some (BE, 0)) by (vm_compute; reflexivity).
  assert (H6 : 0 < max_safe_integer) by (vm_compute; reflexivity).
  assert (H7 : validOperandsRegex "A2" = true) by (vm_compute; reflexivity).
  assert (H8 : operand_target "A2" = Some (BA, 1)) by (vm_compute; reflexivity).
  assert (H9 : 1 < max_safe_integer) by (vm_compute; reflexivity).
  assert (H10 : getState (after 2 2 2 [CallSetInputs [VNum 1; VNum 0]; CallStart]) = 1)
    by (vm_compute; reflexivity).
  assert (H11 : dataAvailable (after 2 2 2 [CallSetInputs [VNum 1; VNum 0]; CallStart]) = false)
    by (vm_compute; reflexivity).
  exact (statement_text_to_scan "UN" "E1" "=" "A2" BE BA 0 1
           (after 2 2 2 [CallSetInputs [VNum 1; VNum 0]; CallStart])
           H1 H2 H3 H4 H5 H6 H7 H8 H9 H10 H11).
Defined.

(** Property X29.  A condition that throws. The only error the evaluation of a
    condition can raise is a [TypeError], from an operand followed by a
    bracket, which JavaScript reads as a call. A scan then ends at that
    statement with the error: the statements before it have run, its target is
    not written, the statements after it do not run. *)
Theorem condition_error_stops_scan
    (before after_it : list command) (p_before p_after : list jstmt)
    (op : command) (cond : list command) (ins tgt : string) (n1 n2 : nat)
    (b : bank) (k : Z) (cts : list jstok) (c : jexpr) (r r1 : banks) (x : js_error) :
  closed before → segment_compiles before p_before → segment_compiles after_it p_after →
  type op = 1%nat → lexer_command op = true →
  Forall (λ y, condition_command y = true) cond →
  Forall (λ y, index_exact y = true) (op :: cond) →
  ins ∈ validInstructions →
  validOperandsRegex tgt = true → operand_target tgt = Some (b, k) → k < max_safe_integer →
  tokenize (generateJSCode (op :: cond)).1 = Some (TIf :: TLParen :: cts) →
  parse_expression cts = Some (c, []) →
  exec_stmts p_before r = Done r1 →
  eval_expr c r1 = inr x →
  x = TypeError ∧
  eval_code (generateJSCode
               (before ++ statement_commands op cond ins n1 tgt n2 ++ after_it)).1 r
  = Raised TypeError r1.
Proof.
  intros Hclosed Hbefore Hafter Hop Hlop Hcond Hexact Hins Hre Ht Hk Htok Hparse Hrun Hx.
  pose proof (eval_expr_error c r1 x Hx) as ->. split; [done|].
  destruct (statement_code op cond ins tgt n1 n2 b k Hop Hcond Hins Hre Ht) as [Hcl _].
  assert (segment_compiles (statement_commands op cond ins n1 tgt n2)
            [closed_statement ins c b k]) as Hstmt.
  { split; [by apply statement_lexer_commands|]. split.
    - unfold statement_commands. rewrite app_comm_cons. apply Forall_app.
      split; [done|]. constructor; [done|]. constructor; [|done].
      unfold index_exact. cbn [type instruction]. rewrite Ht.
      by apply Z.ltb_lt.
    - eexists. split; [by apply tokenize_statement|].
      by apply parse_closed_program. }
  destruct (segments_compose _ _ _ _ Hcl Hstmt Hafter) as [Hrest _].
  destruct (segments_compose _ _ _ _ Hclosed Hbefore Hrest) as [Hall _].
  rewrite (segment_runs _ _ r Hall), exec_stmts_app, Hrun.
  cbn [and_then app exec_stmts].
  by rewrite (exec_closed_statement_raises ins c b k r1 TypeError Hx).
Qed.

(** [S A2] followed by [U E1 ( E2 ) = A1]. *)
Lemma condition_error_stops_scan_witness :
  let r := Banks (JSArray [VNum 1; VNum 0] ∅) (JSArray [VNum 0; VNum 0] ∅) (JSArray [] ∅) in
  let r1 := write_reg BA 1 (VBool true) r in
  TypeError = TypeError ∧
  eval_code (generateJSCode
               ([Command 2 "S" 0; Command 3 "A2" 1] ++
                statement_commands (Command 1 "U" 2)
                  [Command 3 "E1" 3; Command 4 "(" 4; Command 3 "E2" 5; Command 4 ")" 6]
                  "=" 7 "A1" 8 ++
                [Command 6 ";" 9])).1 r
  = Raised TypeError r1.
Proof.
  assert (H1 : closed [Command 2 "S" 0; Command 3 "A2" 1]) by (vm_compute; reflexivity).
  assert (H2 : segment_compiles [Command 2 "S" 0; Command 3 "A2" 1]
                 [SAssign BA 1 (EBool true)]).
  { split; [repeat first [apply List.Forall_nil
                         |apply List.Forall_cons; [vm_compute; reflexivity|]]|].
    split; [repeat first [apply List.Forall_nil
                         |apply List.Forall_cons; [vm_compute; reflexivity|]]|].
    eexists. split; [vm_compute; reflexivity|vm_compute; reflexivity]. }
  assert (H3 : segment_compiles [Command 6 ";" 9] [SEmpty]).
  { split; [repeat first [apply List.Forall_nil
                         |apply List.Forall_cons; [vm_compute; reflexivity|]]|].
    split; [repeat first [apply List.Forall_nil
                         |apply List.Forall_cons; [vm_compute; reflexivity|]]|].
    eexists. split; [vm_compute; reflexivity|vm_compute; reflexivity]. }
  assert (H4 : Forall (λ y, condition_command y = true)
                 [Command 3 "E1" 3; Command 4 "(" 4; Command 3 "E2" 5; Command 4 ")" 6])
    by (repeat first [apply List.Forall_nil
                     |apply List.Forall_cons; [vm_compute; reflexivity|]]).
  assert (H5 : Forall (λ y, index_exact y = true)
                 [Command 1 "U" 2; Command 3 "E1" 3; Command 4 "(" 4; Command 3 "E2" 5;
                  Command 4 ")" 6])
    by (repeat first [apply List.Forall_nil
                     |apply List.Forall_cons; [vm_compute; reflexivity|]]).
  assert (H6 : "=" ∈ validInstructions) by left.
  assert (H7 : validOperandsRegex "A1" = true) by (vm_compute; reflexivity).
  assert (H8 : operand_target "A1" = Some (BA, 0)) by (vm_compute; reflexivity).
  assert (H9 : 0 < max_safe_integer) by (vm_compute; reflexivity).
  assert (H10 : tokenize (generateJSCode
                  [Command 1 "U" 2; Command 3 "E1" 3; Command 4 "(" 4; Command 3 "E2" 5;
                   Command 4 ")" 6]).1
                = Some (TIf :: TLParen :: register_tokens BE 0 ++ [TLParen] ++
                          register_tokens BE 1 ++ [TRParen]))
    by (vm_compute; reflexivity).
  assert (H11 : parse_expression (register_tokens BE 0 ++ [TLParen] ++
                                    register_tokens BE 1 ++ [TRParen])
                = Some (ECall (EReg BE 0) (Some (EReg BE 1)), []))
    by (vm_compute; reflexivity).
  intros r r1.
  assert (H12 : exec_stmts [SAssign BA 1 (EBool true)] r = Done r1) by reflexivity.
  assert (H13 : eval_expr (ECall (EReg BE 0) (Some (EReg BE 1))) r1 = inr TypeError)
    by reflexivity.
  exact (condition_error_stops_scan _ _ _ [SEmpty] (Command 1 "U" 2)
           [Command 3 "E1" 3; Command 4 "(" 4; Command 3 "E2" 5; Command 4 ")" 6]
           "=" "A1" 7 8 BA 0 _ _ r r1 TypeError
           H1 H2 H3 eq_refl eq_refl H4 H5 H6 H7 H8 H9 H10 H11 H12 H13).
Defined.

(** Property X30.  The logic operators between two operands. The statement
    [<operator> a <o> b <instruction> <target>] is compiled without any
    report, and its scan acts on the truth [t] of [a && b] for [U], [a || b]
    for [O], [a !== b] for [X], [a && !b] for [UN] and [a || !b] for [ON]; [X]
    compares the stored values by strict inequality, not their truth. After
    the scan the target reads [t] for [=], and [true] (for [S]) or [false]
    (for [R]) when [t] holds, every other register reading as before; for [S]
    and [R] with [t] false the banks are unchanged. *)
Theorem operator_between_operands
    (op s1 o s2 ins tgt : string) (b1 b2 bt : bank) (k1 k2 kt : Z) (r : banks) :
  op ∈ validlogicalOperations → op ≠ "NOT" →
  o ∈ validlogicalOperations → o ≠ "NOT" → ins ∈ validInstructions →
  validOperandsRegex s1 = true → operand_target s1 = Some (b1, k1) → k1 < max_safe_integer →
  validOperandsRegex s2 = true → operand_target s2 = Some (b2, k2) → k2 < max_safe_integer →
  validOperandsRegex tgt = true → operand_target tgt = Some (bt, kt) → kt < max_safe_integer →
  let cmds := statement_commands (Command 1 op 0)
                [Command 3 s1 1; Command 1 o 2; Command 3 s2 3] ins 4 tgt 5
              ++ [Command 6 ";" 6] in
  let t := operator_truth o (read_reg b1 k1 r) (read_reg b2 k2 r) in
  (generateJSCode cmds).2 = [] ∧
  ∃ r2, eval_code (generateJSCode cmds).1 r = Done r2 ∧
    (if String.eqb ins "=" then stored bt kt (VBool t) r r2
     else if t then stored bt kt (VBool (String.eqb ins "S")) r r2
     else r2 = r).
Proof.
  intros Hop Hnot Ho Hon Hins Hs1 Ht1 Hk1 Hs2 Ht2 Hk2 Htgt Htt Hkt cmds t.
  pose proof (two_operand_scan op s1 o s2 ins tgt b1 b2 bt k1 k2 kt r Hop Hnot Ho Hon Hins
                Hs1 Ht1 Hk1 Hs2 Ht2 Hk2 Htgt Htt Hkt) as H.
  cbv zeta in H. destruct H as [H1 H2]. split; [done|].
  eexists. split; [exact H2|]. fold t.
  destruct (String.eqb ins "="); [apply write_reg_stored|].
  destruct t; [apply write_reg_stored|done].
Qed.

(** [U E1 X A1 = A2] with [E1 = 1] and [A1 = true]: both operands are on,
    and the exclusive or holds. *)
Lemma operator_between_operands_witness :
  let r := Banks (JSArray [VNum 1; VNum 0] ∅) (JSArray [VBool true; VNum 0] ∅) (JSArray [] ∅) in
  let cmds := statement_commands (Command 1 "U" 0)
                [Command 3 "E1" 1; Command 1 "X" 2; Command 3 "A1" 3] "=" 4 "A2" 5
              ++ [Command 6 ";" 6] in
  operator_truth "X" (read_reg BE 0 r) (read_reg BA 0 r) = true ∧
  (generateJSCode cmds).2 = [] ∧
  ∃ r2, eval_code (generateJSCode cmds).1 r = Done r2 ∧ stored BA 1 (VBool true) r r2.
Proof.
  assert (H1 : "U" ∈ validlogicalOperations) by left.
  assert (H2 : "U" ≠ "NOT") by discriminate.
  assert (H3 : "X" ∈ validlogicalOperations) by (do 2 right; left).
  assert (H4 : "X" ≠ "NOT") by discriminate.
  assert (H5 : "=" ∈ validInstructions) by left.
  assert (H6 : validOperandsRegex "E1" = true) by (vm_compute; reflexivity).
  assert (H7 : operand_target "E1" = Some (BE, 0)) by (vm_compute; reflexivity).
  assert (H8 : 0 < max_safe_integer) by (vm_compute; reflexivity).
  assert (H9 : validOperandsRegex "A1" = true) by (vm_compute; reflexivity).
  assert (H10 : operand_target "A1" = Some (BA, 0)) by (vm_compute; reflexivity).
  assert (H11 : validOperandsRegex "A2" = true) by (vm_compute; reflexivity).
  assert (H12 : operand_target "A2" = Some (BA, 1)) by (vm_compute; reflexivity).
  assert (H13 : 1 < max_safe_integer) by (vm_compute; reflexivity).
  intros r. split; [reflexivity|].
  exact (operator_between_operands "U" "E1" "X" "A1" "=" "A2" BE BA BA 0 0 1 r
           H1 H2 H3 H4 H5 H6 H7 H8 H9 H10 H8 H11 H12 H13).
Defined.

